(** * Skaffold pipeline engine: a shallow embedding and its properties

    The development follows the Go packages of the repository:
    - [errors]     the error values the code builds with [errors.New] / [errors.Wrap];
    - [watch]      change events;
    - [runner]     the dev loop ([SkaffoldRunner.Dev], [shouldSync], [match],
                   [mergeWithPreviousBuilds]) and the poll loop that drives
                   it ([watchList.Run]);
    - [deploy]     the manifest transformer ([replaceImages], [recursiveReplaceImage]);
    - [kubernetes] the port-forwarder ([portForwardPod], [forward], [cleanupPorts]);
    - [label]      the post-deploy labeler ([ApplyLabelDeployResults]).

    External collaborators (builder, deployer, syncer, the YAML codec, the
    image-reference parser, [filepath.Match], the API server) are section
    variables; concrete test doubles instantiate them in the examples. *)

From Stdlib Require Import ZArith String Ascii List Bool Lia DecimalString.
From Stdlib Require DecimalZ DecimalPos.
From stdpp Require Import gmap strings list fin_maps sorting.

Open Scope string_scope.
Open Scope list_scope.

(* ===================================================================== *)
(** ** Errors *)
(* ===================================================================== *)

Module errors.

(** [errors.New msg] and [errors.Wrap cause msg] of github.com/pkg/errors
    (and [fmt.Errorf], which is [New] on the formatted text). *)
Inductive error : Type :=
| New (msg : string)
| Wrap (cause : error) (msg : string).

(** [errors.Cause]: the innermost error of a chain of wraps. *)
Fixpoint Cause (e : error) : error :=
  match e with
  | New _ => e
  | Wrap c _ => Cause c
  end.

(** A Go result [(v, err)]: either the value or the non-nil error. *)
Inductive result (A : Type) : Type :=
| Ok (a : A)
| Err (e : error).
Arguments Ok {A} a.
Arguments Err {A} e.

(** A call either returns or panics (a failed type assertion, a nil
    dereference). *)
Inductive outcome (A : Type) : Type :=
| Returned (a : A)
| Panicked (msg : string).
Arguments Returned {A} a.
Arguments Panicked {A} msg.

#[global] Instance error_eq_dec : EqDecision error.
Proof. solve_decision. Defined.

End errors.
Export errors.

(* ===================================================================== *)
(** ** Configuration and build records *)
(* ===================================================================== *)

Module v1alpha3.

(** [v1alpha3.Artifact]: the fields the runner reads. *)
Record Artifact : Type := {
  ImageName : string;
  Workspace : string;
  Sync : list string
}.

#[global] Instance Artifact_eq_dec : EqDecision Artifact.
Proof. solve_decision. Defined.

End v1alpha3.

Module build.

(** [build.Artifact]: the result of a build. *)
Record Artifact : Type := {
  ImageName : string;
  Tag : string
}.

#[global] Instance Artifact_eq_dec : EqDecision Artifact.
Proof. solve_decision. Defined.

End build.

(* ===================================================================== *)
(** ** Change events *)
(* ===================================================================== *)

Module watch.

(** Modelled from the spec: the [WatchEvents{added, modified, deleted}]
    value handed to a change handler and its [HasChanged] method (the
    file declaring them is not among the sources); an event has changed
    when the diff is non-empty. *)
Record WatchEvents : Type := {
  Added : list string;
  Modified : list string;
  Deleted : list string
}.

Definition HasChanged (e : WatchEvents) : bool :=
  (0 <? length (Added e))%nat || (0 <? length (Deleted e))%nat
  || (0 <? length (Modified e))%nat.

Definition noEvents : WatchEvents :=
  {| Added := []; Modified := []; Deleted := [] |}.

End watch.

(* ===================================================================== *)
(** ** The pipeline runner *)
(* ===================================================================== *)

Module runner.
Import watch.

(** [ErrorConfigurationChanged]: the sentinel returned when the skaffold
    configuration was changed. *)
Definition ErrorConfigurationChanged : error := New "configuration changed".

(** Modelled from the spec: the change accumulator [changes] carried across
    handler invocations of one tick (its declaration, [Add] and [reset] are
    not among the sources): the dirty artifacts and the two flags, reset to
    empty once the tick's action is done. *)
Record changes : Type := {
  dirtyArtifacts : list v1alpha3.Artifact;
  needsRedeploy : bool;
  needsReload : bool
}.

Definition noChanges : changes :=
  {| dirtyArtifacts := []; needsRedeploy := false; needsReload := false |}.

Definition changes_Add (c : changes) (a : v1alpha3.Artifact) : changes :=
  {| dirtyArtifacts := dirtyArtifacts c ++ [a];
     needsRedeploy := needsRedeploy c;
     needsReload := needsReload c |}.

Definition changes_reset (c : changes) : changes := noChanges.

(** What the runner does to the outside, in order. *)
Inductive event : Type :=
| EBuild (artifacts : list v1alpha3.Artifact)      (* r.Build *)
| EDeploy (builds : list build.Artifact)           (* r.Deploy *)
| ECopy (image : string) (files : list string)     (* Syncer.CopyFilesForImage *)
| EDelete (image : string) (files : list string)   (* Syncer.DeleteFilesForImage *)
| EImageAdd (tag : string)                         (* imageList.Add *)
| EMute | EUnmute | ELoggerStop | ELoggerStart     (* the log aggregator *)
| EPortForwarderStart
| EPrint (line : string)                           (* Fprintln(out, ...) *)
| EWarn (msg : string) (err : option error).       (* logrus.Warn* *)

#[global] Instance event_eq_dec : EqDecision event.
Proof. solve_decision. Defined.

(** [strings.Contains]. *)
Fixpoint Contains (s substr : string) : bool :=
  if String.prefix substr s then true
  else match s with
       | EmptyString => false
       | String _ s' => Contains s' substr
       end.

(** The [updatedBuilds] of [mergeWithPreviousBuilds]: the image names
    that were just built. *)
Definition updatedBuilds (builds : list build.Artifact) : gset string :=
  foldl (fun acc b => {[ build.ImageName b ]} ∪ acc) ∅ builds.

(** [mergeWithPreviousBuilds]: this tick's builds, then every previous
    build whose image name was not rebuilt. *)
Definition mergeWithPreviousBuilds (builds previous : list build.Artifact)
  : list build.Artifact :=
  let updated := updatedBuilds builds in
  builds ++ filter (fun b => build.ImageName b ∉ updated) previous.

Section WithMatch.
(** [filepath.Match pattern name] of the Go standard library. *)
Variable Match : string -> string -> result bool.

(** The inner loop of [match]: one file against every pattern. *)
Fixpoint matchFile (patterns : list string) (f : string) : result bool :=
  match patterns with
  | [] => Ok true
  | p :: ps =>
      match Match p f with
      | Err err => Err (Wrap err "pattern error")
      | Ok false => Ok false
      | Ok true => matchFile ps f
      end
  end.

(** [match patterns files]. *)
Fixpoint match_ (patterns files : list string) : result bool :=
  match files with
  | [] => Ok true
  | f :: fs =>
      match matchFile patterns f with
      | Ok true => match_ patterns fs
      | r => r
      end
  end.

(** [shouldSync syncPatterns e]. *)
Definition shouldSync (syncPatterns : list string) (e : WatchEvents)
  : result bool :=
  if negb (HasChanged e) then Ok false
  else
    let copyFiles := Added e ++ Modified e in
    match match_ syncPatterns copyFiles with
    | Err err => Err (Wrap err "checking sync pattern")
    | Ok false => Ok false
    | Ok true =>
        (* isDeleteSyncable, _ := match(syncPatterns, e.Deleted) *)
        match match_ syncPatterns (Deleted e) with
        | Ok true => Ok true
        | _ => Ok false
        end
    end.

(** The sync predicate in the words of the specification: the pattern
    list is non-empty and every changed path matches at least one
    pattern. Only compared with [shouldSync], never used by the model. *)
Definition matchesSome (patterns : list string) (f : string) : bool :=
  existsb (fun p => match Match p f with Ok true => true | _ => false end)
          patterns.

Definition specShouldSync (syncPatterns : list string) (e : WatchEvents)
  : bool :=
  (0 <? length syncPatterns)%nat
  && forallb (matchesSome syncPatterns) (Added e ++ Modified e ++ Deleted e).
End WithMatch.

(** *** The dev loop *)

(** The registered components, in the order [Dev] registers them. *)
Inductive component : Type :=
| CArtifact (a : v1alpha3.Artifact)
| CDeployer
| CConfiguration.

(** [SkaffoldOptions]: the fields [Dev] reads. *)
Record SkaffoldOptions : Type := {
  Watch : list string;
  ConfigurationFile : string
}.

Section WithPlugins.
Variable Match : string -> string -> result bool.
(** The state of the plugins and of the cluster. *)
Variable World : Type.
(** [Builder.Build], [Deployer.Deploy] (its deploy artifacts are dropped
    by every caller here), the two [Syncer] methods, the first [stat] of
    a component's dependencies at [Register], and [logger.Start]. *)
Variable Build : list v1alpha3.Artifact -> World ->
                 result (list build.Artifact) * World.
Variable Deploy : list build.Artifact -> World -> option error * World.
Variable CopyFilesForImage : string -> list string -> World ->
                             option error * World.
Variable DeleteFilesForImage : string -> list string -> World ->
                               option error * World.
Variable registerStat : component -> World -> option error * World.
Variable loggerStart : World -> option error * World.

(** The runner ([r.builds]), the accumulator [changed] that the closures
    of [Dev] share, the plugins' world and the trace of effects. *)
Record state : Type := {
  builds : list build.Artifact;
  changed : changes;
  world : World;
  trace : list event
}.

Definition emit (ev : event) (s : state) : state :=
  {| builds := builds s; changed := changed s; world := world s;
     trace := trace s ++ [ev] |}.

Definition setWorld (w : World) (s : state) : state :=
  {| builds := builds s; changed := changed s; world := w;
     trace := trace s |}.

Definition setChanged (c : changes) (s : state) : state :=
  {| builds := builds s; changed := c; world := world s;
     trace := trace s |}.

Definition setBuilds (b : list build.Artifact) (s : state) : state :=
  {| builds := b; changed := changed s; world := world s;
     trace := trace s |}.

Definition callBuild (artifacts : list v1alpha3.Artifact) (s : state)
  : result (list build.Artifact) * state :=
  let '(r, w) := Build artifacts (world s) in
  (r, setWorld w (emit (EBuild artifacts) s)).

Definition callDeploy (bs : list build.Artifact) (s : state)
  : option error * state :=
  let '(r, w) := Deploy bs (world s) in
  (r, setWorld w (emit (EDeploy bs) s)).

(** [r.updateBuiltImages images bRes]. *)
Definition updateBuiltImages (bRes : list build.Artifact) (s : state)
  : state :=
  let s := foldl (fun s b => emit (EImageAdd (build.Tag b)) s) s bRes in
  setBuilds (mergeWithPreviousBuilds bRes (builds s)) s.

(** The body of the [switch] of [onChange]: the returned error, the
    final value of [hasError] and the state. *)
Definition onChangeSwitch (s : state) : option error * bool * state :=
  if needsReload (changed s) then
    (Some ErrorConfigurationChanged, true, emit ELoggerStop s)
  else if (0 <? length (dirtyArtifacts (changed s)))%nat then
    match callBuild (dirtyArtifacts (changed s)) s with
    | (Err err, s) =>
        (None, true,
         emit (EWarn "Skipping Deploy due to build error:" (Some err)) s)
    | (Ok bRes, s) =>
        let s := updateBuiltImages bRes s in
        match callDeploy (builds s) s with
        | (Some err, s) =>
            (None, true,
             emit (EWarn "Skipping Deploy due to error:" (Some err)) s)
        | (None, s) => (None, false, s)
        end
    end
  else if needsRedeploy (changed s) then
    match callDeploy (builds s) s with
    | (Some err, s) =>
        (None, true,
         emit (EWarn "Skipping Deploy due to error:" (Some err)) s)
    | (None, s) => (None, false, s)
    end
  else (None, false, s).

(** [onChange], the per-tick action: mute, the switch, then the deferred
    function (reset, status line, unmute unless an error happened). *)
Definition onChange (s : state) : option error * state :=
  let s := emit EMute s in
  let '(ret, hasError, s) := onChangeSwitch s in
  let s := setChanged (changes_reset (changed s)) s in
  let s := emit (EPrint "Watching for changes...") s in
  let s := if negb hasError then emit EUnmute s else s in
  (ret, s).

(** The change handler registered for an artifact. *)
Definition artifactOnChange (artifact : v1alpha3.Artifact)
           (e : WatchEvents) (s : state) : option error * state :=
  match shouldSync Match (v1alpha3.Sync artifact) e with
  | Err err => (Some (Wrap err "checking sync files"), s)
  | Ok true =>
      let image := v1alpha3.ImageName artifact in
      let files := Added e ++ Modified e in
      let '(r, w) := CopyFilesForImage image files (world s) in
      let s := setWorld w (emit (ECopy image files) s) in
      match r with
      | Some err => (Some (Wrap err "copying files"), s)
      | None =>
          let '(r, w) := DeleteFilesForImage image (Deleted e) (world s) in
          let s := setWorld w (emit (EDelete image (Deleted e)) s) in
          match r with
          | Some err => (Some (Wrap err "deleting files"), s)
          | None => (None, emit (EPrint "Synced files.") s)
          end
      end
  | Ok false =>
      (None, setChanged (changes_Add (changed s) artifact) s)
  end.

(** The change handler of each registered component. *)
Definition componentOnChange (c : component) (e : WatchEvents) (s : state)
  : option error * state :=
  match c with
  | CArtifact a => artifactOnChange a e s
  | CDeployer =>
      (None, setChanged {| dirtyArtifacts := dirtyArtifacts (changed s);
                           needsRedeploy := true;
                           needsReload := needsReload (changed s) |} s)
  | CConfiguration =>
      (None, setChanged {| dirtyArtifacts := dirtyArtifacts (changed s);
                           needsRedeploy := needsRedeploy (changed s);
                           needsReload := true |} s)
  end.

(** One tick of [watchList.Run] over the components: for each one the
    observation is the outcome of [stat] and, when it succeeds, the diff
    with the previous snapshot. Returns the error that aborts the run,
    if any, the number of components that fired and the state. *)
Fixpoint tickComponents (cs : list component)
         (obs : list (result WatchEvents)) (count : nat) (s : state)
  : option error * nat * state :=
  match cs, obs with
  | c :: cs', Err err :: _ => (Some (Wrap err "listing files"), count, s)
  | c :: cs', Ok e :: obs' =>
      if HasChanged e then
        let '(r, s) := componentOnChange c e s in
        let s := match r with
                 | Some _ => emit (EWarn "on change error: %s" None) s
                 | None => s
                 end in
        tickComponents cs' obs' (S count) s
      else tickComponents cs' obs' count s
  | _, _ => (None, count, s)
  end.

(** [watchList.Run] over a script of ticks; the context is cancelled
    once the script is over. *)
Fixpoint Run (cs : list component)
         (ticks : list (list (result WatchEvents))) (s : state)
  : option error * state :=
  match ticks with
  | [] => (None, s)
  | obs :: ticks' =>
      match tickComponents cs obs 0 s with
      | (Some err, _, s) => (Some err, s)
      | (None, count, s) =>
          if (0 <? count)%nat then
            match onChange s with
            | (Some err, s) => (Some (Wrap err "calling final callback"), s)
            | (None, s) => Run cs ticks' s
            end
          else Run cs ticks' s
      end
  end.

(** [r.shouldWatch artifact]. *)
Definition shouldWatch (opts : SkaffoldOptions) (a : v1alpha3.Artifact)
  : bool :=
  (length (Watch opts) =? 0)%nat
  || existsb (fun w => Contains (v1alpha3.ImageName a) w) (Watch opts).

(** The registration loop of [Dev] over the artifacts. *)
Fixpoint registerArtifacts (opts : SkaffoldOptions)
         (artifacts : list v1alpha3.Artifact) (cs : list component)
         (s : state) : result (list component) * state :=
  match artifacts with
  | [] => (Ok cs, s)
  | a :: rest =>
      if negb (shouldWatch opts a) then registerArtifacts opts rest cs s
      else
        let '(r, w) := registerStat (CArtifact a) (world s) in
        let s := setWorld w s in
        match r with
        | Some err =>
            (Err (Wrap (Wrap err "listing files")
                       ("watching files for artifact "
                          +:+ v1alpha3.ImageName a)), s)
        | None => registerArtifacts opts rest (cs ++ [CArtifact a]) s
        end
  end.

Definition register (c : component) (msg : string) (cs : list component)
           (s : state) : result (list component) * state :=
  let '(r, w) := registerStat c (world s) in
  let s := setWorld w s in
  match r with
  | Some err => (Err (Wrap (Wrap err "listing files") msg), s)
  | None => (Ok (cs ++ [c]), s)
  end.

(** The three registrations of [Dev]: the watched artifacts, the
    deployment configuration, the skaffold configuration. *)
Definition registerAll (opts : SkaffoldOptions)
           (artifacts : list v1alpha3.Artifact) (s : state)
  : result (list component) * state :=
  match registerArtifacts opts artifacts [] s with
  | (Err err, s) => (Err err, s)
  | (Ok cs, s) =>
      match register CDeployer "watching files for deployer" cs s with
      | (Err err, s) => (Err err, s)
      | (Ok cs, s) =>
          register CConfiguration
                   ("watching skaffold configuration "
                      +:+ ConfigurationFile opts) cs s
      end
  end.

(** [SkaffoldRunner.Dev]; [ticks] scripts what the poll loop observes
    until the context is cancelled. The result list of [Dev] is always
    nil and is left out. *)
Definition Dev (opts : SkaffoldOptions) (artifacts : list v1alpha3.Artifact)
           (ticks : list (list (result WatchEvents))) (s : state)
  : option error * state :=
  match registerAll opts artifacts (setChanged noChanges s) with
  | (Err err, s) => (Some err, s)
  | (Ok cs, s) =>
      (* First run *)
      match callBuild artifacts s with
      | (Err err, s) =>
          (Some (Wrap err "exiting dev mode because the first build failed"), s)
      | (Ok bRes, s) =>
          let s := updateBuiltImages bRes s in
          match callDeploy (builds s) s with
          | (Some err, s) =>
              (Some (Wrap err "exiting dev mode because the first deploy failed"), s)
          | (None, s) =>
              let '(r, w) := loggerStart (world s) in
              let s := setWorld w (emit ELoggerStart s) in
              match r with
              | Some err => (Some (Wrap err "starting logger"), s)
              | None => Run cs ticks (emit EPortForwarderStart s)
              end
          end
      end
  end.
End WithPlugins.

Arguments builds {World} s.
Arguments changed {World} s.
Arguments world {World} s.
Arguments trace {World} s.

(** The inputs the deployer was called with, in order. *)
Definition deployInputs (tr : list event) : list (list build.Artifact) :=
  omap (fun ev => match ev with EDeploy bs => Some bs | _ => None end) tr.

(** The artifacts the builder was called with, in order. *)
Definition buildInputs (tr : list event) : list (list v1alpha3.Artifact) :=
  omap (fun ev => match ev with EBuild arts => Some arts | _ => None end) tr.

Definition named (n : string) (b : build.Artifact) : Prop :=
  build.ImageName b = n.

#[global] Instance named_dec n b : Decision (named n b).
Proof. unfold named. apply _. Defined.

End runner.

(* ===================================================================== *)
(** ** The manifest transformer *)
(* ===================================================================== *)

Module docker.

(** Modelled from the spec: the parsed image reference returned by
    [docker.ParseReference] (the parser is not among the sources); the
    transformer reads its base name and whether it is fully qualified. *)
Record ImageReference : Type := {
  BaseName : string;
  FullyQualified : bool
}.

(** Split at the first, respectively the last, occurrence of a character. *)
Fixpoint splitFirst (c : ascii) (s : string) : option (string * string) :=
  match s with
  | EmptyString => None
  | String a s' =>
      if Ascii.eqb a c then Some (EmptyString, s')
      else match splitFirst c s' with
           | Some (l, r) => Some (String a l, r)
           | None => None
           end
  end.

Fixpoint splitLast (c : ascii) (s : string) : option (string * string) :=
  match s with
  | EmptyString => None
  | String a s' =>
      match splitLast c s' with
      | Some (l, r) => Some (String a l, r)
      | None => if Ascii.eqb a c then Some (EmptyString, s') else None
      end
  end.

Definition hasChar (c : ascii) (s : string) : bool :=
  match splitFirst c s with Some _ => true | None => false end.

(** The name without its tag: the text before the last colon, unless that
    colon belongs to the registry's port. *)
Definition splitTag (s : string) : string * option string :=
  match splitLast ":" s with
  | Some (name, t) => if hasChar "/" t then (s, None) else (name, Some t)
  | None => (s, None)
  end.

(** Modelled from the spec: [docker.ParseReference], which is not among
    the sources. A reference is [name], [name:tag] or [name@digest]; it is
    fully qualified when it carries a digest or an explicit tag other than
    [latest]. The empty reference and one with a space do not parse. *)
Definition ParseReference (image : string) : result ImageReference :=
  if String.eqb image "" || hasChar " " image then
    Err (New "invalid reference format")
  else
    match splitFirst "@" image with
    | Some (name, _) =>
        Ok {| BaseName := fst (splitTag name); FullyQualified := true |}
    | None =>
        match splitTag image with
        | (name, Some t) =>
            Ok {| BaseName := name;
                  FullyQualified := negb (String.eqb t "latest") |}
        | (name, None) => Ok {| BaseName := name; FullyQualified := false |}
        end
    end.

End docker.

Module deploy.

(** The generic tree [yaml.Unmarshal] produces: scalars, [[]interface{}]
    and [map[interface{}]interface{}]. A mapping is kept as the list of its
    entries; a Go map holds each key once. *)
Unset Elimination Schemes.
Inductive yaml : Type :=
| YNull
| YBool (b : bool)
| YInt (n : Z)
| YFloat (literal : string)
| YStr (s : string)
| YSeq (items : list yaml)
| YMap (entries : list (yaml * yaml)).
Set Elimination Schemes.

(** [replacement]. *)
Record replacement : Type := {
  tag : string;
  found : bool
}.

(** A line of [logrus] output: the format and its argument. *)
Inductive logLine : Type :=
| Warnf (format arg : string)
| Infof (format arg : string).

(** The state the walk threads: the replacement set (its [found] marks
    are written through the pointers the Go map holds) and the log. *)
Record walk : Type := {
  replacements : gmap string replacement;
  log : list logLine
}.

Definition logged (line : logLine) (st : walk) : walk :=
  {| replacements := replacements st; log := log st ++ [line] |}.

Section ListWalks.
Variable ParseReference : string -> result docker.ImageReference.
Variable rec : yaml -> walk -> outcome (yaml * walk).

(** [for _, v := range t] over a sequence. *)
Fixpoint walkItems (t : list yaml) (st : walk)
  : outcome (list yaml * walk) :=
  match t with
  | [] => Returned ([], st)
  | v :: t' =>
      match rec v st with
      | Panicked msg => Panicked msg
      | Returned (v', st) =>
          match walkItems t' st with
          | Panicked msg => Panicked msg
          | Returned (t'', st) => Returned (v' :: t'', st)
          end
      end
  end.

(** The body of [for k, v := range t] on a mapping, for the key
    ["image"]: the new value and state. *)
Definition replaceImageValue (v : yaml) (st : walk)
  : outcome (yaml * walk) :=
  match v with
  | YStr image =>
      match ParseReference image with
      | Err _ => Returned (v, logged (Warnf "Couldn't parse image: %s" image) st)
      | Ok parsed =>
          if docker.FullyQualified parsed then
            Returned (v, logged (Infof "Not replacing fully qualified image: %s (see #565)" image) st)
          else
            match replacements st !! docker.BaseName parsed with
            | Some img =>
                Returned
                  (YStr (tag img),
                   {| replacements :=
                        <[docker.BaseName parsed :=
                            {| tag := tag img; found := true |}]>
                          (replacements st);
                      log := log st |})
            | None => Returned (v, st)
            end
      end
  | _ => Panicked "interface conversion: interface {} is not string"
  end.

(** [for k, v := range t] over a mapping. *)
Fixpoint walkEntries (t : list (yaml * yaml)) (st : walk)
  : outcome (list (yaml * yaml) * walk) :=
  match t with
  | [] => Returned ([], st)
  | (k, v) :: t' =>
      match k with
      | YStr ks =>
          match (if String.eqb ks "image" then replaceImageValue v st
                 else rec v st) with
          | Panicked msg => Panicked msg
          | Returned (v', st) =>
              match walkEntries t' st with
              | Panicked msg => Panicked msg
              | Returned (t'', st) => Returned ((k, v') :: t'', st)
              end
          end
      | _ => Panicked "interface conversion: interface {} is not string"
      end
  end.
End ListWalks.

Section Transformer.
Variable ParseReference : string -> result docker.ImageReference.

(** [recursiveReplaceImage i replacements]; the tree is updated in
    place in Go, here the updated tree is returned. *)
Fixpoint recursiveReplaceImage (i : yaml) (st : walk)
  : outcome (yaml * walk) :=
  match i with
  | YSeq t =>
      match walkItems recursiveReplaceImage t st with
      | Panicked msg => Panicked msg
      | Returned (t', st) => Returned (YSeq t', st)
      end
  | YMap t =>
      match walkEntries ParseReference recursiveReplaceImage t st with
      | Panicked msg => Panicked msg
      | Returned (t', st) => Returned (YMap t', st)
      end
  | _ => Returned (i, st)
  end.

(** The replacement set [replaceImages] starts from. *)
Definition newReplacements (builds : list build.Artifact)
  : gmap string replacement :=
  foldl (fun m b =>
           <[build.ImageName b := {| tag := build.Tag b; found := false |}]> m)
        ∅ builds.

(** The YAML codec: a manifest is a [[]byte]. *)
Variable bytes : Type.
Variable Unmarshal : bytes -> result (list (yaml * yaml)).
Variable Marshal : list (yaml * yaml) -> result bytes.

(** The loop of [replaceImages] over the manifests. *)
Fixpoint replaceManifests (l : list bytes) (st : walk)
  : outcome (result (list bytes) * walk) :=
  match l with
  | [] => Returned (Ok [], st)
  | manifest :: l' =>
      match Unmarshal manifest with
      | Err err => Returned (Err (Wrap err "reading kubernetes YAML"), st)
      | Ok m =>
          if (length m =? 0)%nat then replaceManifests l' st
          else
            match walkEntries ParseReference recursiveReplaceImage m st with
            | Panicked msg => Panicked msg
            | Returned (m', st) =>
                match Marshal m' with
                | Err err => Returned (Err (Wrap err "marshalling yaml"), st)
                | Ok updatedManifest =>
                    match replaceManifests l' st with
                    | Returned (Ok rest, st) =>
                        Returned (Ok (updatedManifest :: rest), st)
                    | r => r
                    end
                end
            end
      end
  end.

(** The warnings for the replacements that were not used. *)
Definition unusedWarnings (reps : gmap string replacement) : list logLine :=
  omap (fun '(name, r) =>
          if found r then None
          else Some (Warnf "image [%s] is not used by the deployment" name))
       (map_to_list reps).

(** [manifestList.replaceImages builds]: the updated manifests or the
    error, and the log. *)
Definition replaceImages (l : list bytes) (builds : list build.Artifact)
  : outcome (result (list bytes) * list logLine) :=
  let st := {| replacements := newReplacements builds; log := [] |} in
  match replaceManifests l st with
  | Panicked msg => Panicked msg
  | Returned (Err err, st) => Returned (Err err, log st)
  | Returned (Ok updatedManifests, st) =>
      Returned (Ok updatedManifests,
                log st ++ unusedWarnings (replacements st))
  end.
End Transformer.

End deploy.

(* ===================================================================== *)
(** ** The port-forwarder *)
(* ===================================================================== *)

Module kubernetes.

(** [strconv.Atoi] on a 64-bit platform: an optional sign and decimal
    digits, within the range of [int]. *)
Definition digit (a : ascii) : option Z :=
  let n := nat_of_ascii a in
  if (48 <=? n)%nat && (n <=? 57)%nat then Some (Z.of_nat (n - 48)) else None.

Fixpoint digits (s : string) (acc : Z) : option Z :=
  match s with
  | EmptyString => Some acc
  | String a s' =>
      match digit a with
      | Some d => digits s' (10 * acc + d)%Z
      | None => None
      end
  end.

Definition Atoi (s : string) : result Z :=
  let '(neg, body) :=
    match s with
    | String "-" r => (true, r)
    | String "+" r => (false, r)
    | _ => (false, s)
    end in
  match body with
  | EmptyString => Err (New "strconv.Atoi: invalid syntax")
  | _ =>
      match digits body 0 with
      | None => Err (New "strconv.Atoi: invalid syntax")
      | Some n =>
          let v := if neg then (- n)%Z else n in
          if ((- 2 ^ 63 <=? v) && (v <? 2 ^ 63))%Z then Ok v
          else Err (New "strconv.Atoi: value out of range")
      end
  end.

(** [fmt.Sprintf "%d"]. *)
Definition itoa (z : Z) : string := NilZero.string_of_int (Z.to_int z).

(** The fields of [v1.Pod] the port-forwarder reads. *)
Record Container : Type := {
  Name : string;
  Ports : list Z            (* ContainerPort of each port *)
}.

Inductive PodPhase : Type :=
| PodPending | PodRunning | PodSucceeded | PodFailed | PodUnknown.

Record Pod : Type := {
  PodName : string;
  ResourceVersion : string;
  Containers : list Container;
  Phase : PodPhase;
  DeletionTimestamp : option string
}.

(** [portForwardEntry]; [cmd] is the process the command was started as,
    [None] for a nil [cmd]. *)
Record portForwardEntry : Type := {
  resourceVersion : Z;
  podName : string;
  containerName : string;
  port : Z;
  cmd : option nat
}.

(** [portForwardEntry.key]. *)
Definition key (p : portForwardEntry) : string :=
  containerName p +:+ "-" +:+ itoa (port p).

(** What a started [kubectl port-forward] does: it keeps running, so that
    the goroutine that runs it stays in [RunCmdOut], or it exits. *)
Inductive behaviour : Type :=
| KeepsRunning
| Exits (err : option error).

Inductive event : Type :=
| EPrintln (line : string)
| EStart (pid : nat) (args : list string)    (* the command is started *)
| ESignal (pid : nat)                        (* SIGTERM is sent *)
| EWarnf (format : string) (err : error)
| EWatcherStop.

(** The forwarder: the table [forwardedPods], the live processes with the
    key each one forwards, the next process id and the trace. *)
Record state : Type := {
  forwardedPods : gmap string portForwardEntry;
  running : gmap nat string;
  nextPid : nat;
  trace : list event
}.

Definition emit (ev : event) (st : state) : state :=
  {| forwardedPods := forwardedPods st; running := running st;
     nextPid := nextPid st; trace := trace st ++ [ev] |}.

(** How the goroutine of [portForwardPod] ends: it returns, or it stays
    blocked on the process it started. *)
Inductive goroutine : Type :=
| Finished (err : option error)
| Blocked (pid : nat).

(** [portForwardEntry.stop]: SIGTERM to the process of the entry. A
    process that is signalled is taken to exit at once; signalling one
    that has exited is an error. *)
Definition stop (p : portForwardEntry) (st : state) : option error * state :=
  match cmd p with
  | None =>
      (Some (New ("No port-forward command found for " +:+ podName p +:+ "/"
                    +:+ containerName p +:+ ":" +:+ itoa (port p))), st)
  | Some pid =>
      match running st !! pid with
      | Some _ =>
          (None,
           emit (ESignal pid)
                {| forwardedPods := forwardedPods st;
                   running := delete pid (running st);
                   nextPid := nextPid st; trace := trace st |})
      | None =>
          (Some (Wrap (New "os: process already finished")
                      "terminating port-forward process"), st)
      end
  end.

(** [sync.Map.Range]: calls [f] on the entries, in some order, until [f]
    returns false. *)
Fixpoint rangeList {V S : Type} (l : list (string * V))
         (f : string -> V -> S -> bool * S) (s : S) : S :=
  match l with
  | [] => s
  | (k, v) :: l' =>
      let '(continue, s) := f k v s in
      if continue then rangeList l' f s else s
  end.

Definition Range {V S : Type} (m : gmap string V)
           (f : string -> V -> S -> bool * S) (s : S) : S :=
  rangeList (map_to_list m) f s.

(** [PortForwarder.cleanupPorts]. *)
Definition cleanupPorts (st : state) : state :=
  Range (forwardedPods st)
        (fun _ entry st =>
           match stop entry st with
           | (Some err, st) => (false, emit (EWarnf "cleaning up port forwards" err) st)
           | (None, st) => (false, st)
           end)
        st.

Section WithCluster.
(** What the command of an entry does once started, and the pod
    selector. *)
Variable runs : portForwardEntry -> behaviour.
Variable Select : Pod -> bool.

(** [portForwardEntry.forward]: the status line, the command, the
    [Store], then [RunCmdOut], which starts the process and waits. *)
Definition forward (p : portForwardEntry) (st : state) : goroutine * state :=
  let portNumber := itoa (port p) in
  let st := emit (EPrintln ("Port Forwarding " +:+ podName p +:+ " "
                              +:+ portNumber +:+ " -> " +:+ portNumber)) st in
  let pid := nextPid st in
  let p := {| resourceVersion := resourceVersion p; podName := podName p;
              containerName := containerName p; port := port p;
              cmd := Some pid |} in
  let st := {| forwardedPods := <[key p := p]> (forwardedPods st);
               running := running st; nextPid := nextPid st;
               trace := trace st |} in
  let st := emit (EStart pid ["kubectl"; "port-forward";
                              "pod/" +:+ podName p; portNumber; portNumber])
                 {| forwardedPods := forwardedPods st;
                    running := running st; nextPid := S pid;
                    trace := trace st |} in
  match runs p with
  | KeepsRunning =>
      (Blocked pid,
       {| forwardedPods := forwardedPods st;
          running := <[pid := key p]> (running st);
          nextPid := nextPid st; trace := trace st |})
  | Exits None => (Finished None, st)
  | Exits (Some err) =>
      (Finished (Some (Wrap err ("port forwarding pod: " +:+ podName p
                                   +:+ ", port: " +:+ portNumber))), st)
  end.

(** The body of the loops of [portForwardPod] for one entry. *)
Definition forwardEntry (entry : portForwardEntry) (st : state)
  : goroutine * state :=
  let stopped :=
    match forwardedPods st !! key entry with
    | Some prevEntry =>
        (* Check if this is a new generation of pod *)
        if (resourceVersion prevEntry <? resourceVersion entry)%Z then
          stop prevEntry st
        else (None, st)
    | None => (None, st)
    end in
  match stopped with
  | (Some err, st) =>
      (Finished (Some (Wrap err "terminating port-forward process")), st)
  | (None, st) =>
      match forward entry st with
      | (Finished (Some err), st) =>
          (Finished (Some (Wrap err "port forwarding")), st)
      | r => r
      end
  end.

Fixpoint forwardEntries (entries : list portForwardEntry) (st : state)
  : goroutine * state :=
  match entries with
  | [] => (Finished None, st)
  | entry :: rest =>
      match forwardEntry entry st with
      | (Finished None, st) => forwardEntries rest st
      | r => r
      end
  end.

(** The entries of a pod, container by container, port by port. *)
Definition podEntries (resourceVersion : Z) (pod : Pod)
  : list portForwardEntry :=
  flat_map (fun c =>
              map (fun p => {| resourceVersion := resourceVersion;
                               podName := PodName pod;
                               containerName := Name c;
                               port := p; cmd := None |})
                  (Ports c))
           (Containers pod).

(** [PortForwarder.portForwardPod]. *)
Definition portForwardPod (pod : Pod) (st : state) : goroutine * state :=
  match Atoi (ResourceVersion pod) with
  | Err err =>
      (Finished (Some (Wrap err "converting resource version to integer")), st)
  | Ok resourceVersion => forwardEntries (podEntries resourceVersion pod) st
  end.

(** What the loop of [Start] receives: the context is done, the result
    channel is closed, or a watch event arrives. *)
Inductive EventType : Type := Added | Modified | Deleted | Error.

Inductive input : Type :=
| CtxDone
| ChanClosed
| PodEvent (type : EventType) (pod : Pod)
| OtherEvent (type : EventType).     (* the object is not a pod *)

Definition ready (pod : Pod) : bool :=
  Select pod
  && match Phase pod with PodRunning => true | _ => false end
  && match DeletionTimestamp pod with None => true | Some _ => false end.

(** The goroutine of [PortForwarder.Start] over a script of inputs;
    each goroutine of [portForwardPod] it spawns runs at once, until it
    returns or blocks. The watcher is stopped when the loop is left. *)
Fixpoint Start (script : list input) (st : state) : state :=
  match script with
  | [] => st
  | CtxDone :: _ => emit EWatcherStop (cleanupPorts st)
  | ChanClosed :: _ => emit EWatcherStop st
  | PodEvent Modified pod :: script' =>
      if ready pod then
        match portForwardPod pod st with
        | (Finished (Some err), st) =>
            Start script' (emit (EWarnf "port forwarding pod failed: %s" err) st)
        | (_, st) => Start script' st
        end
      else Start script' st
  | _ :: script' => Start script' st
  end.
End WithCluster.

Definition initial : state :=
  {| forwardedPods := ∅; running := ∅; nextPid := 0; trace := [] |}.

(** The forwarder's table accounts for the live processes: each one is the
    process of the entry its key has in the table, and process ids below
    [nextPid] only are in use. *)
Definition consistent (st : state) : Prop :=
  (forall pid k, running st !! pid = Some k ->
                 exists e, forwardedPods st !! k = Some e /\ cmd e = Some pid)
  /\ (forall pid k, running st !! pid = Some k -> (pid < nextPid st)%nat).

(** At most one live port-forward process per key. *)
Definition onePerKey (st : state) : Prop :=
  forall pid1 pid2 k,
    running st !! pid1 = Some k -> running st !! pid2 = Some k -> pid1 = pid2.

(** The processes a trace sends SIGTERM to, in order. *)
Definition signals (tr : list event) : list nat :=
  omap (fun ev => match ev with ESignal pid => Some pid | _ => None end) tr.

(** The events a step has added to the trace. *)
Definition added (st st' : state) : list event :=
  drop (length (trace st)) (trace st').

End kubernetes.

(* ===================================================================== *)
(** ** The post-deploy labeler *)
(* ===================================================================== *)

Module label.

(** Go maps and objects are shared through references: [labels] and the
    [Labels] of an object are addresses into the store of maps, a runtime
    object is an address into the store of objects. *)
Definition loc := nat.

(** The cases of the type switch of [updateRuntimeObject]. *)
Inductive kind : Type :=
| CoreV1Pod
| AppsV1Deployment | AppsV1beta1Deployment | AppsV1beta2Deployment
| ExtensionsV1beta1Deployment
| CoreV1Service
| AppsV1StatefulSet | AppsV1beta1StatefulSet | AppsV1beta2StatefulSet
| ExtensionsV1beta1DaemonSet
| AppsV1ReplicaSet | AppsV1beta2ReplicaSet
| OtherObject.

(** [metav1.ObjectMeta]: [Labels] is nil or a map. *)
Record ObjectMeta : Type := {
  Labels : option loc;
  Namespace : string
}.

Record RuntimeObject : Type := {
  Kind : kind;
  Meta : ObjectMeta
}.

(** [deploy.Artifact]: the fields the labeler reads. *)
Record Artifact : Type := {
  Obj : loc;
  ArtifactNamespace : string
}.

Inductive event : Type :=
| EUpdate (k : kind) (namespace : string) (labels : gmap string string)
| ESleep
| EInfof (msg : string)
| EWarnf (format : string) (err : error).

(** [tries]: retry 3 times to give the object time to propagate. *)
Definition tries : nat := 3.

(** [retrieveNamespace]. *)
Definition retrieveNamespace (ns : string) (m : ObjectMeta) : string :=
  if negb (String.eqb ns "") then ns
  else if negb (String.eqb (Namespace m) "") then Namespace m
  else "default".

Section WithClient.
(** [constants.Labels.DefaultLabels], the API server behind the client's
    update calls, and the outcome of [kubernetes.Client()]. *)
Variable DefaultLabels : gmap string string.
Variable API : Type.
Variable apiUpdate : kind -> string -> gmap string string -> API ->
                     option error * API.
Variable clientError : option error.

Record state : Type := {
  maps : gmap loc (gmap string string);
  objects : gmap loc RuntimeObject;
  api : API;
  trace : list event
}.

Definition emit (ev : event) (st : state) : state :=
  {| maps := maps st; objects := objects st; api := api st;
     trace := trace st ++ [ev] |}.

Definition setMaps (m : gmap loc (gmap string string)) (st : state) : state :=
  {| maps := m; objects := objects st; api := api st; trace := trace st |}.

(** The content of the map at an address. *)
Definition mapAt (st : state) (l : loc) : gmap string string :=
  default ∅ (maps st !! l).

(** [for k, v := range src { dst[k] = v }]: the entries of [src] are
    written into the map at [dst]. *)
Definition copyInto (src : gmap string string) (dst : loc) (st : state)
  : state :=
  setMaps (<[dst := src ∪ mapAt st dst]> (maps st)) st.

(** [addSkaffoldLabels labels m] on the object at [o]; a nil [Labels] is
    first replaced by a new map. *)
Definition addSkaffoldLabels (labels : loc) (o : loc) (obj : RuntimeObject)
           (st : state) : loc * state :=
  let '(l, st) :=
    match Labels (Meta obj) with
    | Some l => (l, st)
    | None =>
        let l := fresh (dom (maps st)) in
        (l,
         {| maps := <[l := ∅]> (maps st);
            objects :=
              <[o := {| Kind := Kind obj;
                        Meta := {| Labels := Some l;
                                   Namespace := Namespace (Meta obj) |} |}]>
                (objects st);
            api := api st; trace := trace st |})
    end in
  (l, copyInto (mapAt st labels) l st).

(** [updateRuntimeObject client labels res]. *)
Definition updateRuntimeObject (labels : loc) (res : Artifact) (st : state)
  : outcome (option error * state) :=
  let st := copyInto DefaultLabels labels st in
  match objects st !! Obj res with
  | None => Panicked "invalid memory address or nil pointer dereference"
  | Some obj =>
      match Kind obj with
      | OtherObject =>
          Returned (None, emit (EInfof "unknown runtime.Object, skipping label") st)
      | k =>
          let '(l, st) := addSkaffoldLabels labels (Obj res) obj st in
          let ns := retrieveNamespace (ArtifactNamespace res) (Meta obj) in
          let '(err, a) := apiUpdate k ns (mapAt st l) (api st) in
          Returned (err,
                    emit (EUpdate k ns (mapAt st l))
                         {| maps := maps st; objects := objects st;
                            api := a; trace := trace st |})
      end
  end.

(** The retry loop for one result: [i] counts the tries that are left;
    returns the last error. *)
Fixpoint retry (i : nat) (labels : loc) (res : Artifact) (st : state)
  : outcome (option error * state) :=
  match i with
  | O => Returned (None, st)
  | S i' =>
      match updateRuntimeObject labels res st with
      | Panicked msg => Panicked msg
      | Returned (None, st) => Returned (None, st)
      | Returned (Some err, st) =>
          let st := emit ESleep st in
          match i' with
          | O => Returned (Some err, st)
          | S _ => retry i' labels res st
          end
      end
  end.

Fixpoint labelResults (labels : loc) (results : list Artifact) (st : state)
  : outcome state :=
  match results with
  | [] => Returned st
  | res :: rest =>
      match retry tries labels res st with
      | Panicked msg => Panicked msg
      | Returned (Some err, st) =>
          labelResults labels rest
            (emit (EWarnf "error adding label to runtime object: %s" err) st)
      | Returned (None, st) => labelResults labels rest st
      end
  end.

(** [ApplyLabelDeployResults labels results]. *)
Definition ApplyLabelDeployResults (labels : loc) (results : list Artifact)
           (st : state) : outcome state :=
  match clientError with
  | Some err =>
      Returned (emit (EWarnf "error retrieving kubernetes client: %s" err) st)
  | None => labelResults labels results st
  end.
End WithClient.

Arguments maps {API} s.
Arguments objects {API} s.
Arguments api {API} s.
Arguments trace {API} s.

End label.

(* ===================================================================== *)
(** ** Test doubles *)
(* ===================================================================== *)

Module testutil.
Import watch runner.

(** [filepath.Match] for patterns made of literal characters, [?] and
    [*] (no character class, no escape): [*] matches any run of
    non-separator characters, [?] one of them. *)
Fixpoint glob (pattern : list ascii) : list ascii -> bool :=
  match pattern with
  | [] => fun name => match name with [] => true | _ => false end
  | "*"%char :: pattern' =>
      fix star (name : list ascii) : bool :=
        glob pattern' name
        || match name with
           | c :: name' => negb (Ascii.eqb c "/") && star name'
           | [] => false
           end
  | "?"%char :: pattern' =>
      fun name =>
        match name with
        | c :: name' => negb (Ascii.eqb c "/") && glob pattern' name'
        | [] => false
        end
  | a :: pattern' =>
      fun name =>
        match name with
        | c :: name' => Ascii.eqb a c && glob pattern' name'
        | [] => false
        end
  end.

Definition globMatch (pattern name : string) : result bool :=
  Ok (glob (list_ascii_of_string pattern) (list_ascii_of_string name)).

(** [TestBuilder] and [TestDeployer] of the runner's tests: each pops a
    scripted outcome when it has one (a nil outcome is a success with no
    result), else succeeds. The builder tags with its generation number
    so that rebuilds can be told apart. *)
Record TestWorld : Type := {
  builderErrors : list (option error);
  deployerErrors : list (option error);
  generation : Z;
  built : list build.Artifact;
  deployed : list build.Artifact
}.

Definition testBuild (artifacts : list v1alpha3.Artifact) (w : TestWorld)
  : result (list build.Artifact) * TestWorld :=
  match builderErrors w with
  | e :: rest =>
      (match e with Some err => Err err | None => Ok [] end,
       {| builderErrors := rest; deployerErrors := deployerErrors w;
          generation := generation w; built := built w;
          deployed := deployed w |})
  | [] =>
      let g := (generation w + 1)%Z in
      let bs := map (fun a =>
                       {| build.ImageName := v1alpha3.ImageName a;
                          build.Tag := v1alpha3.ImageName a +:+ ":"
                                         +:+ kubernetes.itoa g |})
                    artifacts in
      (Ok bs,
       {| builderErrors := []; deployerErrors := deployerErrors w;
          generation := g; built := bs; deployed := deployed w |})
  end.

Definition testDeploy (bs : list build.Artifact) (w : TestWorld)
  : option error * TestWorld :=
  match deployerErrors w with
  | e :: rest =>
      (e,
       {| builderErrors := builderErrors w; deployerErrors := rest;
          generation := generation w; built := built w;
          deployed := deployed w |})
  | [] =>
      (None,
       {| builderErrors := builderErrors w; deployerErrors := [];
          generation := generation w; built := built w; deployed := bs |})
  end.

(** [TestSyncer] with no error, a [stat] and a logger that succeed. *)
Definition testSync (image : string) (files : list string) (w : TestWorld)
  : option error * TestWorld := (None, w).
Definition testStat (c : component) (w : TestWorld)
  : option error * TestWorld := (None, w).
Definition testLoggerStart (w : TestWorld) : option error * TestWorld :=
  (None, w).

Definition testWorld (buildErrs deployErrs : list (option error)) : TestWorld :=
  {| builderErrors := buildErrs; deployerErrors := deployErrs;
     generation := 0; built := []; deployed := [] |}.

Definition testState (w : TestWorld) : state TestWorld :=
  {| builds := []; changed := noChanges; world := w; trace := [] |}.

Definition testDev :=
  Dev globMatch TestWorld testBuild testDeploy testSync testSync testStat
      testLoggerStart.
Definition testOnChange := onChange TestWorld testBuild testDeploy.
Definition testRun :=
  Run globMatch TestWorld testBuild testDeploy testSync testSync.
Definition testTick :=
  tickComponents globMatch TestWorld testSync testSync.
Definition testHandler :=
  artifactOnChange globMatch TestWorld testSync testSync.

Definition testOptions : SkaffoldOptions :=
  {| Watch := []; ConfigurationFile := "skaffold.yaml" |}.

Definition artifactA : v1alpha3.Artifact :=
  {| v1alpha3.ImageName := "a"; v1alpha3.Workspace := ".";
     v1alpha3.Sync := [] |}.
Definition artifactB : v1alpha3.Artifact :=
  {| v1alpha3.ImageName := "b"; v1alpha3.Workspace := ".";
     v1alpha3.Sync := [] |}.
Definition artifactWeb : v1alpha3.Artifact :=
  {| v1alpha3.ImageName := "web"; v1alpha3.Workspace := ".";
     v1alpha3.Sync := ["static/*.html"; "static/*.css"] |}.

Definition modified (files : list string) : WatchEvents :=
  {| Added := []; Modified := files; Deleted := [] |}.

Definition tagged (name tag : string) : build.Artifact :=
  {| build.ImageName := name; build.Tag := tag |}.

(** A runner that has built [a:1] and [b:1], in the middle of a tick. *)
Definition midTick (c : changes) (buildErrs deployErrs : list (option error))
  : state TestWorld :=
  {| builds := [tagged "a" "a:1"; tagged "b" "b:1"];
     changed := c;
     world := {| builderErrors := buildErrs; deployerErrors := deployErrs;
                 generation := 1; built := []; deployed := [] |};
     trace := [] |}.

Definition dirtyA : changes :=
  {| dirtyArtifacts := [artifactA]; needsRedeploy := false;
     needsReload := false |}.
Definition redeployOnly : changes :=
  {| dirtyArtifacts := []; needsRedeploy := true; needsReload := false |}.

Definition watched : list component :=
  [CArtifact artifactWeb; CDeployer; CConfiguration].

(** A YAML codec for the examples: a manifest is a parsed document, or
    text that is not a YAML mapping. *)
Inductive testManifest : Type :=
| Malformed (text : string)
| Document (entries : list (deploy.yaml * deploy.yaml)).

Definition testUnmarshal (m : testManifest)
  : result (list (deploy.yaml * deploy.yaml)) :=
  match m with
  | Malformed _ => Err (New "yaml: unmarshal errors")
  | Document entries => Ok entries
  end.

Definition testMarshal (entries : list (deploy.yaml * deploy.yaml))
  : result testManifest := Ok (Document entries).

Definition testReplaceImages :=
  deploy.replaceImages docker.ParseReference testManifest testUnmarshal
                       testMarshal.

(** A pod manifest with one container per image. *)
Definition podManifest (images : list deploy.yaml) : testManifest :=
  Document
    [(deploy.YStr "kind", deploy.YStr "Pod");
     (deploy.YStr "spec",
      deploy.YMap
        [(deploy.YStr "replicas", deploy.YInt 1);
         (deploy.YStr "containers",
          deploy.YSeq
            (map (fun i => deploy.YMap [(deploy.YStr "name", deploy.YStr "c");
                                        (deploy.YStr "image", i)])
                 images))])].

(** Scenario S4: [image: myapp] and a digest reference, with the build
    result [myapp -> myapp:abc]. *)
Definition manifestS4 : testManifest :=
  podManifest [deploy.YStr "myapp"; deploy.YStr "registry/other@sha256:abc"].
Definition updatedS4 : testManifest :=
  podManifest [deploy.YStr "myapp:abc";
               deploy.YStr "registry/other@sha256:abc"].
Definition buildsS4 : list build.Artifact := [tagged "myapp" "myapp:abc"].

(** Build results whose tags are references that are not fully qualified:
    [web:latest] names its own image; [app-dev], the tag of [app], names
    another image of the set. *)
Definition buildsLatest : list build.Artifact :=
  [tagged "web" "web:latest"; tagged "db" "db@sha256:1"].
Definition buildsChained : list build.Artifact :=
  [tagged "app" "app-dev"; tagged "app-dev" "app-dev-dev"].

(** Running pods with one container and one port, a [kubectl] that keeps
    forwarding once started, and a selector that takes every pod. *)
Definition pod (name version container : string) (port : Z) : kubernetes.Pod :=
  {| kubernetes.PodName := name;
     kubernetes.ResourceVersion := version;
     kubernetes.Containers :=
       [{| kubernetes.Name := container; kubernetes.Ports := [port] |}];
     kubernetes.Phase := kubernetes.PodRunning;
     kubernetes.DeletionTimestamp := None |}.

Definition keepsRunning (p : kubernetes.portForwardEntry) : kubernetes.behaviour :=
  kubernetes.KeepsRunning.
Definition selectAll (p : kubernetes.Pod) : bool := true.

(** A [kubectl] that cannot bind the local port for the pod [web-2],
    because a forward of the same port is running, and exits. *)
Definition secondBindFails (p : kubernetes.portForwardEntry)
  : kubernetes.behaviour :=
  if String.eqb (kubernetes.podName p) "web-2"
  then kubernetes.Exits
         (Some (New "unable to listen on port 8080: address already in use"))
  else kubernetes.KeepsRunning.

Definition testStart := kubernetes.Start keepsRunning selectAll.
Definition testForwardEntry := kubernetes.forwardEntry keepsRunning.

(** The entry of the container [web], port 8080, of a pod. *)
Definition webEntry (name : string) (version : Z) : kubernetes.portForwardEntry :=
  {| kubernetes.resourceVersion := version; kubernetes.podName := name;
     kubernetes.containerName := "web"; kubernetes.port := 8080;
     kubernetes.cmd := None |}.

Definition modifiedPod (p : kubernetes.Pod) : kubernetes.input :=
  kubernetes.PodEvent kubernetes.Modified p.

(** A default label for the examples ([constants.Labels.DefaultLabels] is
    not among the sources), an API server that accepts every update, and a
    caller whose map, at address 0, holds [app: web], with one pod to label. *)
Definition testDefaultLabels : gmap string string :=
  {[ "deployed-with" := "skaffold" ]}.

Definition testApiUpdate (k : label.kind) (namespace : string)
           (labels : gmap string string) (a : unit) : option error * unit :=
  (None, a).

Definition testApplyLabels :=
  label.ApplyLabelDeployResults testDefaultLabels unit testApiUpdate None.

Definition labelState : label.state unit :=
  {| label.maps := {[ 0%nat := {[ "app" := "web" ]} ]};
     label.objects :=
       {[ 0%nat := {| label.Kind := label.CoreV1Pod;
                      label.Meta := {| label.Labels := None;
                                       label.Namespace := "" |} |} ]};
     label.api := tt;
     label.trace := [] |}.

Definition labelResult : label.Artifact :=
  {| label.Obj := 0%nat; label.ArtifactNamespace := "" |}.

End testutil.

(* ===================================================================== *)
(** ** Reading manifests *)
(* ===================================================================== *)

(** What the properties of the transformer are stated with: the values
    under [image] keys of a document, its shape, and the rewriting of one
    image value in the words of the specification. None of these is used
    by the model of the code. *)
Module manifests.
Import deploy.

Definition isImageKey (k : yaml) : bool :=
  match k with
  | YStr ks => String.eqb ks "image"
  | _ => false
  end.

(** The values under the [image] keys of a tree, at any depth, in
    document order. *)
Fixpoint imageValues (t : yaml) : list yaml :=
  match t with
  | YSeq items => flat_map imageValues items
  | YMap entries =>
      flat_map (fun kv => if isImageKey (fst kv) then [snd kv]
                          else imageValues (snd kv))
               entries
  | _ => []
  end.

(** Every key of every mapping is a string and every value under an
    [image] key is a string. *)
Fixpoint wellShaped (t : yaml) : bool :=
  match t with
  | YSeq items => forallb wellShaped items
  | YMap entries =>
      forallb (fun kv =>
                 match fst kv with
                 | YStr ks =>
                     if String.eqb ks "image"
                     then match snd kv with YStr _ => true | _ => false end
                     else wellShaped (snd kv)
                 | _ => false
                 end)
              entries
  | _ => true
  end.

(** The last build result of a list for an image name: the one the
    replacement set keeps. *)
Definition lastBuild (builds : list build.Artifact) (name : string)
  : option build.Artifact :=
  last (filter (runner.named name) builds).

Section WithParser.
Variable ParseReference : string -> result docker.ImageReference.

(** The specification's rewriting of an image value: a reference that
    is not fully qualified and whose base name has a target tag becomes
    that tag, any other value is kept. *)
Definition rewriteImage (tags : gmap string string) (v : yaml) : yaml :=
  match v with
  | YStr image =>
      match ParseReference image with
      | Ok parsed =>
          if docker.FullyQualified parsed then v
          else match tags !! docker.BaseName parsed with
               | Some t => YStr t
               | None => v
               end
      | Err _ => v
      end
  | _ => v
  end.

(** The tree with every image value rewritten. *)
Fixpoint rewriteTree (tags : gmap string string) (t : yaml) : yaml :=
  match t with
  | YSeq items => YSeq (map (rewriteTree tags) items)
  | YMap entries =>
      YMap (map (fun kv =>
                   (fst kv,
                    if isImageKey (fst kv) then rewriteImage tags (snd kv)
                    else rewriteTree tags (snd kv)))
                entries)
  | _ => t
  end.

(** The entries of a document with every image value rewritten. *)
Definition rewriteEntries (tags : gmap string string)
           (entries : list (yaml * yaml)) : list (yaml * yaml) :=
  map (fun kv =>
         (fst kv,
          if isImageKey (fst kv) then rewriteImage tags (snd kv)
          else rewriteTree tags (snd kv)))
      entries.

(** The line an image value is logged with when it is left alone. *)
Definition imageLog (v : yaml) : list logLine :=
  match v with
  | YStr image =>
      match ParseReference image with
      | Err _ => [Warnf "Couldn't parse image: %s" image]
      | Ok parsed =>
          if docker.FullyQualified parsed
          then [Infof "Not replacing fully qualified image: %s (see #565)" image]
          else []
      end
  | _ => []
  end.
End WithParser.

(** The target tags of a replacement set. *)
Definition tags (st : walk) : gmap string string := tag <$> replacements st.

Section Walks.
Variable ParseReference : string -> result docker.ImageReference.

(** What a walk of [t] from [st] does, when it is the one the
    specification describes: on a well-shaped tree it returns the
    rewritten tree, keeps the target tags and logs the image values it
    leaves alone; on any other tree it panics. *)
Definition walkOK (rec : yaml -> walk -> outcome (yaml * walk)) (t : yaml)
  : Prop :=
  forall st,
    match rec t st with
    | Returned (t', st') =>
        wellShaped t = true
        /\ t' = rewriteTree ParseReference (tags st) t
        /\ tags st' = tags st
        /\ log st' = log st ++ flat_map (imageLog ParseReference)
                                        (imageValues t)
    | Panicked _ => wellShaped t = false
    end.

(** No target tag of the set is itself rewritten by the set. *)
Definition stable (tgs : gmap string string) : Prop :=
  forall n t,
    tgs !! n = Some t -> rewriteImage ParseReference tgs (YStr t) = YStr t.

Variable bytes : Type.
Variable Unmarshal : bytes -> result (list (yaml * yaml)).
Variable Marshal : list (yaml * yaml) -> result bytes.

(** [updated] is the manifest [manifest] with its image values
    rewritten. *)
Definition rewritten (tgs : gmap string string) (manifest updated : bytes)
  : Prop :=
  exists m, Unmarshal manifest = Ok m /\ m <> []
            /\ wellShaped (YMap m) = true
            /\ Marshal (rewriteEntries ParseReference tgs m) = Ok updated.

(** Tag-rewrite fidelity for one image value [v] and the value [v'] at
    its place after the pass: a reference that is not fully qualified
    and whose base name has a build result has become that result's
    tag; any other value is unchanged. *)
Definition fidelity (builds : list build.Artifact) (v v' : yaml) : Prop :=
  (forall image parsed b,
      v = YStr image -> ParseReference image = Ok parsed ->
      docker.FullyQualified parsed = false ->
      lastBuild builds (docker.BaseName parsed) = Some b ->
      v' = YStr (build.Tag b))
  /\ ((forall image parsed,
         v = YStr image -> ParseReference image = Ok parsed ->
         docker.FullyQualified parsed = true
         \/ lastBuild builds (docker.BaseName parsed) = None) ->
      v' = v).

(** Fidelity for a manifest and its updated manifest: image value by
    image value, in document order. *)
Definition documentFidelity (builds : list build.Artifact)
           (manifest updated : bytes) : Prop :=
  exists m m',
    Unmarshal manifest = Ok m /\ Marshal m' = Ok updated
    /\ Forall2 (fidelity builds)
               (imageValues (YMap m)) (imageValues (YMap m')).

(** The lines the walk of a manifest logs. *)
Definition documentLog (manifest : bytes) : list logLine :=
  match Unmarshal manifest with
  | Ok m => flat_map (imageLog ParseReference) (imageValues (YMap m))
  | Err _ => []
  end.
End Walks.
Arguments rewritten ParseReference {bytes} Unmarshal Marshal tgs manifest updated.
Arguments documentLog ParseReference {bytes} Unmarshal manifest.
Arguments documentFidelity ParseReference {bytes} Unmarshal Marshal builds
          manifest updated.

(** A manifest that [replaceImages] skips: it unmarshals to no entry. *)
Definition isEmptyDocument {bytes : Type}
           (Unmarshal : bytes -> result (list (yaml * yaml)))
           (manifest : bytes) : bool :=
  match Unmarshal manifest with
  | Ok [] => true
  | _ => false
  end.

End manifests.

(* ===================================================================== *)
(** ** The one-shot run *)
(* ===================================================================== *)

Module SkaffoldRunner.
Import runner.

Section WithPlugins.
Variable World : Type.
Variable Build : list v1alpha3.Artifact -> World ->
                 result (list build.Artifact) * World.
Variable Deploy : list build.Artifact -> World -> option error * World.
Variable loggerStart : World -> option error * World.

(** [SkaffoldRunner.TailLogs]; [tail] is [r.opts.Tail]. Once the logger
    has started the call waits for the context to be done and returns
    nil. *)
Definition TailLogs (tail : bool) (bRes : list build.Artifact)
           (s : state World) : option error * state World :=
  if negb tail then (None, s)
  else
    let s := foldl (fun s b => emit World (EImageAdd (build.Tag b)) s) s bRes in
    let '(r, w) := loggerStart (world s) in
    let s := setWorld World w (emit World ELoggerStart s) in
    match r with
    | Some err => (Some (Wrap err "starting logger"), s)
    | None => (None, s)
    end.

(** [SkaffoldRunner.Run]: builds artifacts and then deploys them. *)
Definition Run (tail : bool) (artifacts : list v1alpha3.Artifact)
           (s : state World) : option error * state World :=
  match callBuild World Build artifacts s with
  | (Err err, s) => (Some (Wrap err "build step"), s)
  | (Ok bRes, s) =>
      match callDeploy World Deploy bRes s with
      | (Some err, s) => (Some (Wrap err "deploy step"), s)
      | (None, s) => TailLogs tail bRes s
      end
  end.
End WithPlugins.
End SkaffoldRunner.

(* ===================================================================== *)
(** ** Manifest lists and kubectl *)
(* ===================================================================== *)

Module kubectl.
Import deploy.

(** The string without its first [n] bytes: [s[n:]]. *)
Fixpoint skip (n : nat) (s : string) : string :=
  match n, s with
  | S n', String _ s' => skip n' s'
  | _, _ => s
  end.

(** The text before and after the first instance of [sep] in [s]:
    [s[:m]] and [s[m+len(sep):]] for [m := Index(s, sep)]. *)
Fixpoint cut (sep s : string) : option (string * string) :=
  if String.prefix sep s then Some ("", skip (String.length sep) s)
  else match s with
       | "" => None
       | String a s' =>
           match cut sep s' with
           | Some (before, after) => Some (String a before, after)
           | None => None
           end
       end.

(** The loop of [genSplit] of the Go standard library, which
    [strings.Split] and [bytes.Split] run for a separator that is not
    empty: [n] bounds the number of instances that are cut. *)
Fixpoint genSplit (n : nat) (s sep : string) : list string :=
  match n with
  | O => [s]
  | S n' =>
      match cut sep s with
      | None => [s]
      | Some (before, after) => before :: genSplit n' after sep
      end
  end.

(** [strings.Split s sep] and [bytes.Split s sep], for a separator that is
    not empty; [s] holds at most [len(s)] instances of it. *)
Definition Split (s sep : string) : list string :=
  genSplit (String.length s) s sep.

(** The document separator [[]byte("\n---")]. *)
Definition separator : string := String (ascii_of_nat 10) "---".

(** [newManifestList r]; [r] is what [ioutil.ReadAll] returns on the
    reader. *)
Definition newManifestList (r : result string) : result (list string) :=
  match r with
  | Err err => Err (Wrap err "reading manifests")
  | Ok buf => Ok (Split buf separator)
  end.

Section WithTrimSpace.
(** [bytes.TrimSpace]. *)
Variable TrimSpace : string -> string.

(** The loop of [manifestList.String]: [i] is the index of the next
    manifest, [str] the text so far. *)
Fixpoint appendManifests (i : nat) (l : list string) (str : string) : string :=
  match l with
  | [] => str
  | manifest :: l' =>
      let str := if negb (i =? 0)%nat
                 then str +:+ separator +:+ String (ascii_of_nat 10) ""
                 else str in
      appendManifests (S i) l' (str +:+ TrimSpace manifest)
  end.

(** [manifestList.String]. *)
Definition manifestList_String (l : list string) : string :=
  appendManifests 0 l "".

Section WithExec.
Variable World : Type.
(** [util.RunCmd] on a command with its arguments and its standard
    input: the error, if any, and what it wrote. *)
Variable RunCmd : list string -> option string -> World ->
                  (string * option error) * World.

(** [kubectl in out kubeContext arg...]. *)
Definition kubectl (stdin : option string) (kubeContext : string)
           (arg : list string) (w : World) : (string * option error) * World :=
  let args := ["--context"; kubeContext] ++ arg in
  RunCmd ("kubectl" :: args) stdin w.

(** [readRemoteManifest name kubeContext]. *)
Definition readRemoteManifest (name kubeContext : string) (w : World)
  : result string * World :=
  let parts := Split name ":" in
  let '(args, name) :=
    if (1 <? length parts)%nat
    then (["--namespace"; nth 0 parts ""], nth 1 parts "")
    else ([], name) in
  let args := args ++ ["get"; name; "-o"; "yaml"] in
  let '((manifest, err), w) := kubectl None kubeContext args w in
  match err with
  | Some err => (Err (Wrap err "getting manifest"), w)
  | None => (Ok manifest, w)
  end.

(** What [readRemoteManifest] makes of the outcome of the command it
    runs; used to state its properties. *)
Definition manifestOf (r : (string * option error) * World)
  : result string * World :=
  match r with
  | ((_, Some err), w) => (Err (Wrap err "getting manifest"), w)
  | ((manifest, None), w) => (Ok manifest, w)
  end.

Variable ParseReference : string -> result docker.ImageReference.
Variable Unmarshal : string -> result (list (yaml * yaml)).
Variable Marshal : list (yaml * yaml) -> result string.
(** [deploy.Artifact] and [parseReleaseInfo "" b] on a manifest. *)
Variable Artifact : Type.
Variable parseReleaseInfo : string -> list Artifact.

(** [parseManifestsForDeploys]; its error is always nil. *)
Definition parseManifestsForDeploys (manifests : list string) : list Artifact :=
  flat_map parseReleaseInfo manifests.

(** [applyManifests r out kubeContext builds]: the deploy results or the
    error, the world and the log. *)
Definition applyManifests (r : result string) (kubeContext : string)
           (builds : list build.Artifact) (w : World)
  : outcome (result (list Artifact) * World * list logLine) :=
  match newManifestList r with
  | Err err => Returned (Err (Wrap err "getting manifest list"), w, [])
  | Ok manifestList =>
      match replaceImages ParseReference string Unmarshal Marshal
                          manifestList builds with
      | Panicked msg => Panicked msg
      | Returned (Err err, lg) =>
          Returned (Err (Wrap err "replacing images"), w, lg)
      | Returned (Ok manifestList, lg) =>
          let '((_, err), w) :=
            kubectl (Some (manifestList_String manifestList)) kubeContext
                    ["apply"; "-f"; "-"] w in
          match err with
          | Some err => Returned (Err (Wrap err "running kubectl"), w, lg)
          | None => Returned (Ok (parseManifestsForDeploys manifestList), w, lg)
          end
      end
  end.

End WithExec.
End WithTrimSpace.

End kubectl.

(* ===================================================================== *)
(** ** The images a manifest uses *)
(* ===================================================================== *)

(** What the properties of the [found] marks are stated with. None of
    these is used by the model of the code. *)
Module imageUse.
Import deploy manifests.

Section WithParser.
Variable ParseReference : string -> result docker.ImageReference.

(** The image name an image value refers to when the walk looks it up
    in the replacement set: the base name of a reference that is not
    fully qualified. *)
Definition usedName (v : yaml) : option string :=
  match v with
  | YStr image =>
      match ParseReference image with
      | Ok parsed =>
          if docker.FullyQualified parsed then None
          else Some (docker.BaseName parsed)
      | Err _ => None
      end
  | _ => None
  end.

(** The names the image values of a tree refer to, in document order. *)
Definition usedNames (t : yaml) : list string :=
  omap usedName (imageValues t).

Variable bytes : Type.
Variable Unmarshal : bytes -> result (list (yaml * yaml)).

Definition documentNames (manifest : bytes) : list string :=
  match Unmarshal manifest with
  | Ok m => usedNames (YMap m)
  | Err _ => []
  end.
End WithParser.

(** [img.found = true] for the replacement of a name, if there is one. *)
Definition mark (reps : gmap string replacement) (name : string)
  : gmap string replacement :=
  match reps !! name with
  | Some img => <[name := {| tag := tag img; found := true |}]> reps
  | None => reps
  end.

Definition marked (names : list string) (reps : gmap string replacement)
  : gmap string replacement :=
  foldl mark reps names.

(** The format of the warning for a build result that no manifest uses. *)
Definition notUsed (name : string) : logLine :=
  Warnf "image [%s] is not used by the deployment" name.

Definition silent (lg : list logLine) : Prop :=
  forall name, notUsed name ∉ lg.

Section Marks.
Variable ParseReference : string -> result docker.ImageReference.

(** What a walk does to the replacement set: it marks the names the tree
    refers to; and it logs no warning for an unused image. *)
Definition walkMarks (rec : yaml -> walk -> outcome (yaml * walk)) (t : yaml)
  : Prop :=
  forall st,
    match rec t st with
    | Returned (_, st') =>
        replacements st' = marked (usedNames ParseReference t) (replacements st)
        /\ (silent (log st) -> silent (log st'))
    | Panicked _ => True
    end.
End Marks.

End imageUse.

(* ===================================================================== *)
(** ** Observations on the port-forwarder *)
(* ===================================================================== *)

(** What further properties of the port-forwarder are stated with. *)
Module portforward.
Import kubernetes.

(** Every entry of the table is stored under its own key and holds the
    command it was started with, a process with an id below [nextPid]. *)
Definition started (st : state) : Prop :=
  forall k e,
    forwardedPods st !! k = Some e ->
    key e = k /\ exists pid, cmd e = Some pid /\ (pid < nextPid st)%nat.

Section WithSelector.
Variable Select : Pod -> bool.

(** An input the loop of [Start] passes over: an event that is not
    [Modified], an object that is not a pod, a pod that is not ready. *)
Definition passedOver (i : input) : bool :=
  match i with
  | CtxDone | ChanClosed => false
  | PodEvent Modified pod => negb (ready Select pod)
  | _ => true
  end.
End WithSelector.

End portforward.

(* ===================================================================== *)
(** ** Observations on the labeler *)
(* ===================================================================== *)

(** What further properties of the labeler are stated with. *)
Module labeler.
Import label.

(** The update calls and the sleeps of a trace. *)
Definition isUpdate (ev : event) : bool :=
  match ev with EUpdate _ _ _ => true | _ => false end.
Definition isSleep (ev : event) : bool :=
  match ev with ESleep => true | _ => false end.

Definition updates (tr : list event) : nat := length (List.filter isUpdate tr).
Definition sleeps (tr : list event) : nat := length (List.filter isSleep tr).

(** The labels of an object before it is labelled: none for a nil map. *)
Definition ownLabels {API : Type} (st : state API) (obj : RuntimeObject)
  : gmap string string :=
  match Labels (Meta obj) with
  | Some l => default ∅ (maps st !! l)
  | None => ∅
  end.

(** An update the labeler may send: to a known kind of object, in a
    namespace that is not empty, with the default labels. *)
Definition wellFormed (DefaultLabels : gmap string string) (ev : event) : Prop :=
  match ev with
  | EUpdate k ns lbls => k <> OtherObject /\ ns <> "" /\ DefaultLabels ⊆ lbls
  | _ => True
  end.

(** The address [l] holds a map that is neither the caller's nor the
    label map of an object. *)
Definition apart {API : Type} (labels l : loc) (st : state API) : Prop :=
  l <> labels /\ is_Some (maps st !! l)
  /\ forall o obj, objects st !! o = Some obj -> Labels (Meta obj) <> Some l.

End labeler.

(* ===================================================================== *)
(** ** The file syncer *)
(* ===================================================================== *)

Module sync.

(** The fields of [v1.Pod] and [v1.Container] the syncer reads. *)
Record Container : Type := {
  Name : string;
  Image : string
}.

Record Pod : Type := {
  Namespace : string;
  PodName : string;
  Containers : list Container
}.

(** [deleteFileFn] and [copyFileFn]: the command and its arguments. *)
Definition deleteFileFn (pod : Pod) (container : Container) (file : string)
  : list string :=
  ["kubectl"; "exec"; PodName pod; "-c"; Name container; "--"; "rm"; "-rf";
   file].

Definition copyFileFn (pod : Pod) (container : Container) (file : string)
  : list string :=
  ["kubectl"; "cp"; file;
   Namespace pod +:+ "/" +:+ PodName pod +:+ ":" +:+ file;
   "-c"; Name container].

Section WithCluster.
(** The cluster and the commands run so far; [Client()], the listing of
    the pods of every namespace and [util.RunCmd]. *)
Variable World : Type.
Variable Client : World -> option error.
Variable ListPods : World -> result (list Pod) * World.
Variable RunCmd : list string -> World -> option error * World.

Record state : Type := {
  world : World;
  ran : list (list string)
}.

(** [for _, f := range files]: the commands of one container. *)
Fixpoint performFiles (cmdFn : Pod -> Container -> string -> list string)
         (p : Pod) (c : Container) (files : list string) (st : state)
  : option error * state :=
  match files with
  | [] => (None, st)
  | f :: files' =>
      let cmd := cmdFn p c f in
      let '(err, w) := RunCmd cmd (world st) in
      let st := {| world := w; ran := ran st ++ [cmd] |} in
      match err with
      | Some err => (Some (Wrap err "syncing with kubectl"), st)
      | None => performFiles cmdFn p c files' st
      end
  end.

(** [for _, c := range p.Spec.Containers]. *)
Fixpoint performContainers (image : string) (files : list string)
         (cmdFn : Pod -> Container -> string -> list string)
         (p : Pod) (cs : list Container) (st : state)
  : option error * state :=
  match cs with
  | [] => (None, st)
  | c :: cs' =>
      if String.prefix image (Image c) then
        match performFiles cmdFn p c files st with
        | (Some err, st) => (Some err, st)
        | (None, st) => performContainers image files cmdFn p cs' st
        end
      else performContainers image files cmdFn p cs' st
  end.

(** [for _, p := range pods.Items]. *)
Fixpoint performPods (image : string) (files : list string)
         (cmdFn : Pod -> Container -> string -> list string)
         (pods : list Pod) (st : state) : option error * state :=
  match pods with
  | [] => (None, st)
  | p :: pods' =>
      match performContainers image files cmdFn p (Containers p) st with
      | (Some err, st) => (Some err, st)
      | (None, st) => performPods image files cmdFn pods' st
      end
  end.

(** [perform image files cmdFn]. *)
Definition perform (image : string) (files : list string)
           (cmdFn : Pod -> Container -> string -> list string) (st : state)
  : option error * state :=
  match Client (world st) with
  | Some err => (Some (Wrap err "getting k8s client"), st)
  | None =>
      match ListPods (world st) with
      | (Err err, w) =>
          (Some (Wrap err "getting pods"), {| world := w; ran := ran st |})
      | (Ok pods, w) =>
          performPods image files cmdFn pods {| world := w; ran := ran st |}
      end
  end.

(** A loop ran the first commands of a list, all of them when it
    returned nil and the one that failed last otherwise. *)
Definition ranPrefix (cmds : list (list string)) (st : state)
           (r : option error * state) : Prop :=
  exists n,
    ran (snd r) = ran st ++ take n cmds
    /\ match fst r with
       | None => (length cmds <= n)%nat
       | Some err =>
           (0 < n <= length cmds)%nat
           /\ exists cause w, err = Wrap cause "syncing with kubectl"
                              /\ exists cmd, cmds !! (n - 1)%nat = Some cmd
                                             /\ fst (RunCmd cmd w) = Some cause
       end.

(** [CopyFilesForImage] and [DeleteFilesForImage]. *)
Definition CopyFilesForImage (image : string) (f : list string) (st : state)
  : option error * state := perform image f copyFileFn st.

Definition DeleteFilesForImage (image : string) (f : list string) (st : state)
  : option error * state := perform image f deleteFileFn st.
End WithCluster.

Arguments world {World} s.
Arguments ran {World} s.

(** The commands of a sync over the listed pods: for each pod, for each
    container whose image starts with the image name, for each file. *)
Definition commands (image : string) (files : list string)
           (cmdFn : Pod -> Container -> string -> list string)
           (pods : list Pod) : list (list string) :=
  flat_map (fun p =>
              flat_map (fun c =>
                          if String.prefix image (Image c)
                          then map (cmdFn p c) files else [])
                       (Containers p))
           pods.

End sync.

(* ===================================================================== *)
(** ** The file-system watcher *)
(* ===================================================================== *)

Module fswatch.

(** The order of [sort.Strings]: byte by byte. *)
Definition le (a b : string) : Prop := String.leb a b = true.

#[global] Instance le_dec : RelDecision le.
Proof. intros a b. unfold le. apply _. Defined.

(** [sortedPaths changedPaths]: the keys of the map, sorted. The map is
    ranged over in no fixed order; sorting makes the result the same for
    every order. *)
Definition sortedPaths (changedPaths : gset string) : list string :=
  merge_sort le (elements changedPaths).

(** [fsnotify.Op], a set of bits; [fsnotify.Chmod] is [1 << 4]. *)
Definition Chmod : N := 16.

(** What the [select] of [fsWatcher.Start] receives. *)
Inductive input : Type :=
| Event (name : string) (op : N)      (* <-f.watcher.Events *)
| Error (err : error)                 (* <-f.watcher.Errors *)
| TimerC                              (* <-timer.C *)
| Done.                               (* <-ctx.Done() *)

Inductive event : Type :=
| EReset                              (* timer.Reset(quietPeriod) *)
| EInfof (name : string) (op : N)
| EError (err : error)
| EOnChange (changes : list string)
| EClose.

(** [fsWatcher.Start] over a script of inputs, from the paths changed so
    far: what it does, in order. *)
Fixpoint Start (script : list input) (changedPaths : gset string)
  : list event :=
  match script with
  | [] => []
  | Event name op :: script' =>
      if (op =? Chmod)%N then Start script' changedPaths
      else EReset :: EInfof name op
             :: Start script' ({[ name ]} ∪ changedPaths)
  | Error err :: script' => EError err :: Start script' changedPaths
  | TimerC :: script' =>
      EOnChange (sortedPaths changedPaths) :: Start script' ∅
  | Done :: _ => [EClose]
  end.

(** The paths of the events of a script that are not a bare chmod. *)
Definition changedBy (script : list input) : gset string :=
  foldr (fun i acc =>
           match i with
           | Event name op => if (op =? Chmod)%N then acc else {[ name ]} ∪ acc
           | _ => acc
           end) ∅ script.

(** A script of file events and errors only. *)
Definition quiet (i : input) : bool :=
  match i with Event _ _ | Error _ => true | _ => false end.

(** The batches handed to [onChange], in order. *)
Definition batches (tr : list event) : list (list string) :=
  omap (fun ev => match ev with EOnChange b => Some b | _ => None end) tr.

End fswatch.

(* ===================================================================== *)
(** ** Further test doubles *)
(* ===================================================================== *)

Module testdata.
Import watch runner.

(** An artifact that is synced on a change of its pages, and a
    [CopyFilesForImage] that fails. *)
Definition artifactStatic : v1alpha3.Artifact :=
  {| v1alpha3.ImageName := "web"; v1alpha3.Workspace := ".";
     v1alpha3.Sync := ["static/*.html"] |}.

Definition failingCopy (image : string) (files : list string)
           (w : testutil.TestWorld) : option error * testutil.TestWorld :=
  (Some (New "exit status 1"), w).

Definition watchOnly (w : string) : SkaffoldOptions :=
  {| Watch := [w]; ConfigurationFile := "skaffold.yaml" |}.

(** The value a call returned, [d] when it panicked. *)
Definition returned {A : Type} (o : outcome A) (d : A) : A :=
  match o with
  | Returned a => a
  | Panicked _ => d
  end.

(** A line feed, and [bytes.TrimSpace] on text in ASCII: the white space
    is the space and the bytes 9 to 13. *)
Definition nl : string := String (ascii_of_nat 10) "".

Definition isSpace (a : ascii) : bool :=
  let n := nat_of_ascii a in
  (n =? 32)%nat || ((9 <=? n)%nat && (n <=? 13)%nat).

Fixpoint trimLeft (s : string) : string :=
  match s with
  | String a s' => if isSpace a then trimLeft s' else s
  | EmptyString => EmptyString
  end.

Fixpoint trimRight (s : string) : string :=
  match s with
  | EmptyString => EmptyString
  | String a s' =>
      match trimRight s' with
      | EmptyString => if isSpace a then EmptyString else String a EmptyString
      | t => String a t
      end
  end.

Definition asciiTrim (s : string) : string := trimRight (trimLeft s).

(** A [util.RunCmd] that records the command and succeeds with no
    output. *)
Definition testRunCmd (args : list string) (stdin : option string)
           (w : list (list string * option string))
  : (string * option error) * list (list string * option string) :=
  (("", None), w ++ [(args, stdin)]).

(** A YAML codec for documents of the one line [image: <reference>]. *)
Definition textUnmarshal (s : string)
  : result (list (deploy.yaml * deploy.yaml)) :=
  let t := asciiTrim s in
  if String.eqb t "" then Ok []
  else if String.prefix "image: " t
       then Ok [(deploy.YStr "image", deploy.YStr (kubectl.skip 7 t))]
       else Err (New "yaml: unmarshal errors").

Definition textMarshal (m : list (deploy.yaml * deploy.yaml))
  : result string :=
  match m with
  | [] => Ok ""
  | [(deploy.YStr "image", deploy.YStr v)] => Ok ("image: " +:+ v +:+ nl)
  | _ => Err (New "yaml: unsupported document")
  end.

Definition noReleaseInfo (manifest : string) : list unit := [].

Definition textApply :=
  kubectl.applyManifests asciiTrim (list (list string * option string))
                         testRunCmd docker.ParseReference
                         textUnmarshal textMarshal unit noReleaseInfo.

(** Two documents, the second with a tag of its own. *)
Definition twoDocuments : string :=
  "image: web" +:+ nl +:+ "---" +:+ nl +:+ "image: db:1".

(** A pod that is not running yet, and entries for two ports of one
    container. *)
Definition pendingPod : kubernetes.Pod :=
  {| kubernetes.PodName := "web-1";
     kubernetes.ResourceVersion := "1";
     kubernetes.Containers :=
       [{| kubernetes.Name := "web"; kubernetes.Ports := [8080%Z] |}];
     kubernetes.Phase := kubernetes.PodPending;
     kubernetes.DeletionTimestamp := None |}.

Definition adminEntry (name : string) (version : Z) : kubernetes.portForwardEntry :=
  {| kubernetes.resourceVersion := version; kubernetes.podName := name;
     kubernetes.containerName := "web"; kubernetes.port := 9090;
     kubernetes.cmd := None |}.

(** An API server that rejects every update, and a store with a map that
    is neither the caller's nor an object's. *)
Definition failingApiUpdate (k : label.kind) (namespace : string)
           (labels : gmap string string) (a : unit) : option error * unit :=
  (Some (New "the object has been modified"), a).

Definition spareState : label.state unit :=
  {| label.maps := {[ 0%nat := {[ "app" := "web" ]};
                      7%nat := {[ "team" := "infra" ]} ]};
     label.objects := label.objects testutil.labelState;
     label.api := tt;
     label.trace := [] |}.

(** A cluster with two pods: the first runs the image [web:1] and a
    sidecar, the second the image [webhook]; every command succeeds. *)
Definition syncPods : list sync.Pod :=
  [{| sync.Namespace := "default"; sync.PodName := "web-1";
      sync.Containers := [{| sync.Name := "web"; sync.Image := "web:1" |};
                          {| sync.Name := "proxy"; sync.Image := "envoy" |}] |};
   {| sync.Namespace := "default"; sync.PodName := "hook-1";
      sync.Containers := [{| sync.Name := "hook"; sync.Image := "webhook" |}] |}].

Definition testClient (w : unit) : option error := None.
Definition testListPods (w : unit) : result (list sync.Pod) * unit :=
  (Ok syncPods, w).
Definition testSyncCmd (cmd : list string) (w : unit) : option error * unit :=
  (None, w).

Definition testPerform := sync.perform unit testClient testListPods testSyncCmd.

End testdata.

(* ===================================================================== *)
(** * Properties *)
(* ===================================================================== *)

(** A decidable closed proposition is settled by evaluating its decision. *)
Ltac decide_by_computation :=
  match goal with
  | |- ?P => refine (@bool_decide_unpack P _ _); vm_compute; exact I
  end.

(** ** The sync predicate *)

Section SyncProperties.
Import watch runner.
Variable Match : string -> string -> result bool.

Lemma matchFile_true_iff (patterns : list string) (f : string) :
  matchFile Match patterns f = Ok true <->
  Forall (fun p => Match p f = Ok true) patterns.
Proof.
  induction patterns as [|p ps IH]; simpl.
  - split; [constructor | reflexivity].
  - destruct (Match p f) as [[|]|err] eqn:E.
    + rewrite IH. split.
      * intros H. constructor; assumption.
      * intros H. inversion H; assumption.
    + split; [discriminate | intros H; inversion H; congruence].
    + split; [discriminate | intros H; inversion H; congruence].
Qed.

Lemma match_true_iff (patterns files : list string) :
  match_ Match patterns files = Ok true <->
  Forall (fun f => Forall (fun p => Match p f = Ok true) patterns) files.
Proof.
  induction files as [|f fs IH]; simpl.
  - split; [constructor | reflexivity].
  - destruct (matchFile Match patterns f) as [[|]|err] eqn:E.
    + rewrite IH. apply matchFile_true_iff in E. split.
      * intros H. constructor; assumption.
      * intros H. inversion H; assumption.
    + split; [discriminate|]. intros H. inversion H as [|? ? H1 H2].
      apply matchFile_true_iff in H1. congruence.
    + split; [discriminate|]. intros H. inversion H as [|? ? H1 H2].
      apply matchFile_true_iff in H1. congruence.
Qed.

(** What [shouldSync] decides: the event has changed and every changed
    path matches every pattern of the list. *)
Lemma shouldSync_true_iff (patterns : list string) (e : WatchEvents) :
  shouldSync Match patterns e = Ok true <->
  HasChanged e = true /\
  Forall (fun f => Forall (fun p => Match p f = Ok true) patterns)
         (Added e ++ Modified e ++ Deleted e).
Proof.
  unfold shouldSync. destruct (HasChanged e); simpl.
  2: { split; [discriminate | intros [? _]; discriminate]. }
  rewrite app_assoc, Forall_app, <- !match_true_iff.
  destruct (match_ Match patterns (Added e ++ Modified e)) as [[|]|err];
    destruct (match_ Match patterns (Deleted e)) as [[|]|err'];
    split; try discriminate; try tauto;
    intros (_ & H1 & H2); discriminate.
Qed.

(** With no pattern at all every change is a sync. *)
Lemma shouldSync_no_pattern (e : WatchEvents) :
  HasChanged e = true -> shouldSync Match [] e = Ok true.
Proof.
  intros H. apply shouldSync_true_iff. split; [assumption|].
  apply Forall_forall. intros f _. constructor.
Qed.
End SyncProperties.

(** C1 (the code departs from the claim). The handler of an artifact whose
    [sync] list is empty, on the event [modified = ["main.go"]]: the files
    are copied, "Synced files." is printed and the artifact is not marked
    dirty, where the claim asks for a rebuild; and with the patterns
    [static/*.html; static/*.css] the change of [static/index.html], which
    matches the first pattern, is not a sync, where the claim asks for one. *)
Theorem shouldSync_departs_from_claim :
  let e := testutil.modified ["main.go"] in
  let s := testutil.testState (testutil.testWorld [] []) in
  runner.shouldSync testutil.globMatch [] e = Ok true
  /\ runner.specShouldSync testutil.globMatch [] e = false
  /\ runner.trace (snd (testutil.testHandler testutil.artifactA e s))
     = [runner.ECopy "a" ["main.go"]; runner.EDelete "a" [];
        runner.EPrint "Synced files."]
  /\ runner.dirtyArtifacts
       (runner.changed (snd (testutil.testHandler testutil.artifactA e s))) = []
  /\ runner.shouldSync testutil.globMatch ["static/*.html"; "static/*.css"]
       (testutil.modified ["static/index.html"]) = Ok false
  /\ runner.specShouldSync testutil.globMatch ["static/*.html"; "static/*.css"]
       (testutil.modified ["static/index.html"]) = true.
Proof. vm_compute. repeat split; reflexivity. Qed.

(** ** Merging build results *)

Section MergeProperties.
Import runner.

Lemma updatedBuilds_acc (bs : list build.Artifact) (acc : gset string) (n : string) :
  n ∈ foldl (fun acc b => {[ build.ImageName b ]} ∪ acc) acc bs <->
  n ∈ acc \/ n ∈ build.ImageName <$> bs.
Proof.
  revert acc. induction bs as [|b bs IH]; intros acc; simpl.
  - rewrite elem_of_nil. tauto.
  - rewrite IH, elem_of_union, elem_of_singleton, elem_of_cons. tauto.
Qed.

Lemma elem_of_updatedBuilds (bs : list build.Artifact) (n : string) :
  n ∈ updatedBuilds bs <-> n ∈ build.ImageName <$> bs.
Proof.
  unfold updatedBuilds. rewrite updatedBuilds_acc, elem_of_empty. tauto.
Qed.

Lemma filter_named_absent (l : list build.Artifact) (n : string) :
  n ∉ build.ImageName <$> l -> filter (named n) l = [].
Proof.
  induction l as [|b bs IH]; intros Hn; [reflexivity|].
  rewrite fmap_cons, not_elem_of_cons in Hn. destruct Hn as [Hne Hn].
  rewrite filter_cons_False; [auto | unfold named; congruence].
Qed.

Lemma filter_named_kept (bRes previous : list build.Artifact) (n : string) :
  filter (named n)
         (filter (fun b => build.ImageName b ∉ updatedBuilds bRes) previous) =
  if decide (n ∈ build.ImageName <$> bRes) then [] else filter (named n) previous.
Proof.
  induction previous as [|p ps IH]; [case_decide; reflexivity|].
  rewrite (filter_cons _ p ps).
  destruct (decide (build.ImageName p ∉ updatedBuilds bRes)) as [Hp|Hp].
  - rewrite !(filter_cons (named n) p), IH.
    destruct (decide (named n p)) as [Hn|Hn]; [|reflexivity].
    case_decide as Hin; [|reflexivity].
    exfalso. apply Hp. apply elem_of_updatedBuilds.
    unfold named in Hn. rewrite Hn. exact Hin.
  - rewrite IH, (filter_cons (named n) p).
    destruct (decide (named n p)) as [Hn|Hn]; [|reflexivity].
    case_decide as Hin; [reflexivity|].
    exfalso. apply Hp. intros Hin'. apply Hin. apply elem_of_updatedBuilds in Hin'.
    unfold named in Hn. rewrite <- Hn. exact Hin'.
Qed.

(** Image name by image name, the merge holds this tick's results for a
    rebuilt image and the previous results for any other. *)
Lemma merge_by_name (bRes previous : list build.Artifact) (n : string) :
  filter (named n) (mergeWithPreviousBuilds bRes previous) =
  if decide (n ∈ build.ImageName <$> bRes)
  then filter (named n) bRes
  else filter (named n) previous.
Proof.
  unfold mergeWithPreviousBuilds. rewrite filter_app, filter_named_kept.
  case_decide as Hin; [apply app_nil_r|].
  rewrite filter_named_absent by assumption. reflexivity.
Qed.

Lemma filter_named_unique (l : list build.Artifact) (p : build.Artifact) :
  NoDup (build.ImageName <$> l) -> p ∈ l ->
  filter (named (build.ImageName p)) l = [p].
Proof.
  induction l as [|b bs IH]; intros Hnd Hin.
  - apply elem_of_nil in Hin. contradiction.
  - rewrite fmap_cons in Hnd. apply NoDup_cons in Hnd as [Hb Hnd].
    assert (Hnone : forall q, q ∈ bs -> build.ImageName q = build.ImageName b -> False).
    { intros q Hq Heq. apply Hb. rewrite <- Heq. apply list_elem_of_fmap_2. exact Hq. }
    apply elem_of_cons in Hin as [-> | Hin].
    + rewrite filter_cons_True by reflexivity. f_equal.
      clear IH Hnd Hb. induction bs as [|q qs IHq]; [reflexivity|].
      rewrite filter_cons_False.
      * apply IHq. intros q' Hq'. apply Hnone. apply elem_of_cons. auto.
      * unfold named. intros Heq. apply (Hnone q); [apply elem_of_cons; auto | exact Heq].
    + rewrite filter_cons_False.
      * apply IH; assumption.
      * unfold named. intros Heq. apply (Hnone p Hin). congruence.
Qed.
(** The merge of two tables with unique image names has unique names. *)
Lemma merge_names_unique (bRes previous : list build.Artifact) :
  NoDup (build.ImageName <$> bRes) ->
  NoDup (build.ImageName <$> previous) ->
  NoDup (build.ImageName <$> mergeWithPreviousBuilds bRes previous).
Proof.
  intros Hb Hp. unfold mergeWithPreviousBuilds. rewrite fmap_app.
  apply NoDup_app. split; [exact Hb|]. split.
  - intros n Hn Hin. apply list_elem_of_fmap in Hin as (p & -> & Hin).
    apply list_elem_of_filter in Hin as [Hnot _].
    apply Hnot. apply elem_of_updatedBuilds. exact Hn.
  - induction previous as [|p ps IH]; [constructor|].
    rewrite fmap_cons in Hp. apply NoDup_cons in Hp as [Hp1 Hp2].
    rewrite filter_cons. case_decide; [|auto].
    rewrite fmap_cons. apply NoDup_cons. split; [|auto].
    intros Hin. apply Hp1. apply list_elem_of_fmap in Hin as (q & Hq & Hin).
    apply list_elem_of_filter in Hin as [_ Hin].
    rewrite Hq. apply list_elem_of_fmap_2. exact Hin.
Qed.
End MergeProperties.

(** ** The dev loop *)

Section DevLoopProperties.
Import watch runner.
Variable Match : string -> string -> result bool.
Variable World : Type.
Variable Build : list v1alpha3.Artifact -> World ->
                 result (list build.Artifact) * World.
Variable Deploy : list build.Artifact -> World -> option error * World.
Variable CopyFilesForImage DeleteFilesForImage :
  string -> list string -> World -> option error * World.

Local Abbreviation onChange := (onChange World Build Deploy).
Local Abbreviation tickComponents :=
  (tickComponents Match World CopyFilesForImage DeleteFilesForImage).
Local Abbreviation Run :=
  (Run Match World Build Deploy CopyFilesForImage DeleteFilesForImage).
Local Abbreviation updateBuiltImages := (updateBuiltImages World).
Local Abbreviation emit := (emit World).

Lemma imageAdds_trace (bRes : list build.Artifact) (s : state World) :
  let s' := foldl (fun s b => emit (EImageAdd (build.Tag b)) s) s bRes in
  builds s' = builds s /\ changed s' = changed s /\ world s' = world s
  /\ trace s' = trace s ++ ((fun b => EImageAdd (build.Tag b)) <$> bRes).
Proof.
  revert s. induction bRes as [|b bs IH]; intros s; simpl.
  - rewrite app_nil_r. auto.
  - destruct (IH (emit (EImageAdd (build.Tag b)) s)) as (H1 & H2 & H3 & H4).
    simpl in *. rewrite H1, H2, H3, H4, <- app_assoc. auto.
Qed.

Lemma updateBuiltImages_spec (bRes : list build.Artifact) (s : state World) :
  let s' := updateBuiltImages bRes s in
  builds s' = mergeWithPreviousBuilds bRes (builds s)
  /\ changed s' = changed s /\ world s' = world s
  /\ trace s' = trace s ++ ((fun b => EImageAdd (build.Tag b)) <$> bRes).
Proof.
  unfold runner.updateBuiltImages.
  destruct (imageAdds_trace bRes s) as (H1 & H2 & H3 & H4).
  simpl in *. rewrite H1. auto.
Qed.

Lemma deployInputs_app (l1 l2 : list event) :
  deployInputs (l1 ++ l2) = deployInputs l1 ++ deployInputs l2.
Proof. unfold deployInputs. apply omap_app. Qed.

Lemma buildInputs_app (l1 l2 : list event) :
  buildInputs (l1 ++ l2) = buildInputs l1 ++ buildInputs l2.
Proof. unfold buildInputs. apply omap_app. Qed.

Lemma deployInputs_imageAdds (bRes : list build.Artifact) :
  deployInputs ((fun b => EImageAdd (build.Tag b)) <$> bRes) = [].
Proof. induction bRes; [reflexivity | assumption]. Qed.

Lemma buildInputs_imageAdds (bRes : list build.Artifact) :
  buildInputs ((fun b => EImageAdd (build.Tag b)) <$> bRes) = [].
Proof. induction bRes; [reflexivity | assumption]. Qed.

Lemma componentOnChange_quiet (c : component) (e : WatchEvents) (s : state World) :
  let s' := snd (componentOnChange Match World CopyFilesForImage
                                   DeleteFilesForImage c e s) in
  buildInputs (trace s') = buildInputs (trace s)
  /\ deployInputs (trace s') = deployInputs (trace s)
  /\ builds s' = builds s
  /\ (needsReload (changed s') = true ->
      needsReload (changed s) = true \/ c = CConfiguration).
Proof.
  destruct c as [a| |]; simpl; [|tauto|tauto].
  unfold artifactOnChange.
  destruct (shouldSync Match (v1alpha3.Sync a) e) as [[|]|err]; simpl;
    [|tauto|tauto].
  destruct (CopyFilesForImage _ _ _) as [[err|] w]; simpl.
  { rewrite buildInputs_app, deployInputs_app; simpl. rewrite !app_nil_r. tauto. }
  destruct (DeleteFilesForImage _ _ _) as [[err|] w']; simpl;
    rewrite ?buildInputs_app, ?deployInputs_app; simpl;
    rewrite ?buildInputs_app, ?deployInputs_app; simpl;
    rewrite ?buildInputs_app, ?deployInputs_app; simpl;
    rewrite ?app_nil_r; tauto.
Qed.

(** The handlers of a tick neither build nor deploy, and when one of them
    raises [needsReload] the tick has fired. *)
Lemma tickComponents_quiet (cs : list component)
      (obs : list (result WatchEvents)) (n : nat) (s : state World) :
  let '(_, count, s') := tickComponents cs obs n s in
  buildInputs (trace s') = buildInputs (trace s)
  /\ deployInputs (trace s') = deployInputs (trace s)
  /\ builds s' = builds s
  /\ (n <= count)%nat
  /\ (needsReload (changed s) = false -> needsReload (changed s') = true ->
      (n < count)%nat).
Proof.
  revert obs n s. induction cs as [|c cs IH]; intros obs n s; simpl.
  { repeat split; auto. congruence. }
  destruct obs as [|[e|err] obs]; simpl.
  { repeat split; auto. congruence. }
  2: { repeat split; auto. congruence. }
  destruct (HasChanged e).
  - destruct (componentOnChange_quiet c e s) as (H1 & H2 & H3 & H4).
    destruct (componentOnChange Match World CopyFilesForImage
                                DeleteFilesForImage c e s) as [r s1].
    simpl in *.
    set (s2 := match r with
               | Some _ => emit (EWarn "on change error: %s" None) s1
               | None => s1
               end).
    assert (Hs2 : buildInputs (trace s2) = buildInputs (trace s1)
                  /\ deployInputs (trace s2) = deployInputs (trace s1)
                  /\ builds s2 = builds s1 /\ changed s2 = changed s1).
    { subst s2. destruct r; simpl;
        rewrite ?buildInputs_app, ?deployInputs_app; simpl;
        rewrite ?app_nil_r; auto. }
    destruct Hs2 as (G1 & G2 & G3 & G4).
    specialize (IH obs (S n) s2).
    destruct (tickComponents cs obs (S n) s2) as [[r' count] s'].
    destruct IH as (I1 & I2 & I3 & I4 & I5).
    repeat split; try congruence; lia.
  - specialize (IH obs n s).
    destruct (tickComponents cs obs n s) as [[r' count] s'].
    exact IH.
Qed.


Lemma builds_imageAdds (bRes : list build.Artifact) (s : state World) :
  builds (foldl (fun s b => emit (EImageAdd (build.Tag b)) s) s bRes)
  = builds s.
Proof. apply (imageAdds_trace bRes s). Qed.

Lemma deploy_after_update (bs bRes : list build.Artifact) (s : state World) :
  callDeploy World Deploy bs (updateBuiltImages bRes s) =
  (fst (Deploy bs (world s)),
   {| builds := mergeWithPreviousBuilds bRes (builds s);
      changed := changed s;
      world := snd (Deploy bs (world s));
      trace := trace s ++ ((fun b => EImageAdd (build.Tag b)) <$> bRes)
                       ++ [EDeploy bs] |}).
Proof.
  unfold callDeploy, runner.updateBuiltImages.
  destruct (imageAdds_trace bRes s) as (H1 & H2 & H3 & H4).
  simpl in *. rewrite H3.
  destruct (Deploy _ _) as [r w'].
  unfold setWorld, runner.emit, setBuilds in *. simpl in *.
  rewrite ?H1, ?H2, ?H4, <- ?app_assoc. reflexivity.
Qed.

(** C3. On a tick that builds the dirty artifacts (no reload pending, the
    build succeeds with [bRes]), the deployer is called once, with the
    merge of [bRes] and the previously known results, which becomes the
    runner's table: image name by image name it holds this tick's results
    for a rebuilt image and the previous results for any other, so every
    new result is in it and, the previous names being unique, an image
    that was not rebuilt appears exactly once, with its previous tag; unique
    names in the results and in the table give unique names in the merge. *)
Theorem deploy_input_is_merge (s : state World) (bRes : list build.Artifact)
        (w : World) :
  needsReload (changed s) = false ->
  dirtyArtifacts (changed s) <> [] ->
  Build (dirtyArtifacts (changed s)) (world s) = (Ok bRes, w) ->
  let s' := snd (onChange s) in
  let merged := mergeWithPreviousBuilds bRes (builds s) in
  deployInputs (trace s') = deployInputs (trace s) ++ [merged]
  /\ builds s' = merged
  /\ (forall n : string,
        filter (named n) merged =
        if decide (n ∈ build.ImageName <$> bRes)
        then filter (named n) bRes
        else filter (named n) (builds s))
  /\ (forall b, b ∈ bRes -> b ∈ merged)
  /\ (NoDup (build.ImageName <$> builds s) ->
      forall p, p ∈ builds s ->
                build.ImageName p ∉ build.ImageName <$> bRes ->
                filter (named (build.ImageName p)) merged = [p])
  /\ (NoDup (build.ImageName <$> bRes) ->
      NoDup (build.ImageName <$> builds s) ->
      NoDup (build.ImageName <$> merged)).
Proof.
  intros Hreload Hdirty Hbuild s' merged.
  assert (Htrace : deployInputs (trace s') = deployInputs (trace s) ++ [merged]
                   /\ builds s' = merged).
  { subst s'. unfold runner.onChange, onChangeSwitch. simpl.
    rewrite Hreload.
    destruct (dirtyArtifacts (changed s)) as [|a dirty] eqn:Hd; [congruence|].
    simpl. unfold callBuild. simpl. rewrite Hbuild.
    rewrite deploy_after_update, builds_imageAdds. simpl.
    destruct (Deploy _ w) as [[err|] w']; simpl;
      rewrite !deployInputs_app, deployInputs_imageAdds; simpl;
      rewrite ?deployInputs_app; simpl;
      rewrite ?app_nil_r; auto. }
  destruct Htrace as [Ht Hb].
  split; [exact Ht|]. split; [exact Hb|].
  split; [intros n; apply merge_by_name|].
  split.
  { intros b Hin. unfold merged, mergeWithPreviousBuilds.
    apply elem_of_app. left. exact Hin. }
  split.
  - intros Hnd p Hp Hnot. unfold merged.
    rewrite merge_by_name. case_decide; [contradiction|].
    apply filter_named_unique; assumption.
  - apply merge_names_unique.
Qed.

(** C4. An error of the first build or of the first deploy makes [Dev]
    return it (wrapped as "exiting dev mode because the first ... failed")
    without running the watch loop; on a later tick an error of the build,
    or of the deploy (after a build or on a redeploy), is logged as a
    warning, the tick handler returns nil with the accumulator reset, and
    [watchList.Run] goes on with the next tick. *)
Theorem first_run_fatal_later_errors_dropped
        (registerStat : component -> World -> option error * World)
        (loggerStart : World -> option error * World) :
  let Dev := Dev Match World Build Deploy CopyFilesForImage
                 DeleteFilesForImage registerStat loggerStart in
  let registerAll := registerAll World registerStat in
  (forall opts artifacts ticks s cs s1 err w,
      registerAll opts artifacts (setChanged World noChanges s) = (Ok cs, s1) ->
      Build artifacts (world s1) = (Err err, w) ->
      exists s',
        Dev opts artifacts ticks s =
        (Some (Wrap err "exiting dev mode because the first build failed"), s')
        /\ trace s' = trace s1 ++ [EBuild artifacts])
  /\ (forall opts artifacts ticks s cs s1 bRes w err w',
        registerAll opts artifacts (setChanged World noChanges s) = (Ok cs, s1) ->
        Build artifacts (world s1) = (Ok bRes, w) ->
        Deploy (mergeWithPreviousBuilds bRes (builds s1)) w = (Some err, w') ->
        exists s',
          Dev opts artifacts ticks s =
          (Some (Wrap err "exiting dev mode because the first deploy failed"), s')
          /\ last (trace s')
             = Some (EDeploy (mergeWithPreviousBuilds bRes (builds s1))))
  /\ (forall s err w,
        needsReload (changed s) = false ->
        dirtyArtifacts (changed s) <> [] ->
        Build (dirtyArtifacts (changed s)) (world s) = (Err err, w) ->
        exists s',
          onChange s = (None, s')
          /\ EWarn "Skipping Deploy due to build error:" (Some err) ∈ trace s'
          /\ deployInputs (trace s') = deployInputs (trace s)
          /\ changed s' = noChanges /\ builds s' = builds s)
  /\ (forall s bRes w err w',
        needsReload (changed s) = false ->
        dirtyArtifacts (changed s) <> [] ->
        Build (dirtyArtifacts (changed s)) (world s) = (Ok bRes, w) ->
        Deploy (mergeWithPreviousBuilds bRes (builds s)) w = (Some err, w') ->
        exists s',
          onChange s = (None, s')
          /\ EWarn "Skipping Deploy due to error:" (Some err) ∈ trace s'
          /\ changed s' = noChanges)
  /\ (forall s err w',
        needsReload (changed s) = false ->
        dirtyArtifacts (changed s) = [] ->
        needsRedeploy (changed s) = true ->
        Deploy (builds s) (world s) = (Some err, w') ->
        exists s',
          onChange s = (None, s')
          /\ EWarn "Skipping Deploy due to error:" (Some err) ∈ trace s'
          /\ changed s' = noChanges /\ builds s' = builds s)
  /\ (forall cs obs ticks s count s1 s',
        tickComponents cs obs 0 s = (None, count, s1) ->
        (0 < count)%nat ->
        onChange s1 = (None, s') ->
        Run cs (obs :: ticks) s = Run cs ticks s').
Proof.
  intros Dev registerAll. subst Dev registerAll.
  repeat apply conj.
  - intros opts artifacts ticks s cs s1 err w Hreg Hbuild.
    unfold runner.Dev. rewrite Hreg. unfold callBuild. rewrite Hbuild.
    eexists. split; reflexivity.
  - intros opts artifacts ticks s cs s1 bRes w err w' Hreg Hbuild Hdeploy.
    unfold runner.Dev. rewrite Hreg. unfold callBuild. rewrite Hbuild.
    rewrite deploy_after_update. simpl.
    rewrite builds_imageAdds. simpl. rewrite Hdeploy. simpl.
    eexists. split; [reflexivity|]. simpl.
    rewrite !app_assoc. apply last_snoc.
  - intros s err w Hreload Hdirty Hbuild.
    unfold runner.onChange, onChangeSwitch. simpl. rewrite Hreload.
    destruct (dirtyArtifacts (changed s)) as [|a dirty] eqn:Hd; [congruence|].
    simpl. unfold callBuild. simpl. rewrite Hbuild. simpl.
    eexists. split; [reflexivity|]. simpl.
    split; [|split; [|split; reflexivity]].
    + rewrite !elem_of_app, !list_elem_of_singleton. auto.
    + rewrite !deployInputs_app. simpl. rewrite !app_nil_r. reflexivity.
  - intros s bRes w err w' Hreload Hdirty Hbuild Hdeploy.
    unfold runner.onChange, onChangeSwitch. simpl. rewrite Hreload.
    destruct (dirtyArtifacts (changed s)) as [|a dirty] eqn:Hd; [congruence|].
    simpl. unfold callBuild. simpl. rewrite Hbuild.
    rewrite deploy_after_update, builds_imageAdds. simpl.
    rewrite Hdeploy. simpl.
    eexists. split; [reflexivity|]. simpl. split; [|reflexivity].
    rewrite !elem_of_app, !list_elem_of_singleton. auto.
  - intros s err w' Hreload Hdirty Hredeploy Hdeploy.
    unfold runner.onChange, onChangeSwitch. simpl.
    rewrite Hreload, Hdirty, Hredeploy. simpl.
    unfold callDeploy. simpl. rewrite Hdeploy. simpl.
    eexists. split; [reflexivity|]. simpl.
    split; [|split; reflexivity].
    rewrite !elem_of_app, !list_elem_of_singleton. auto.
  - intros cs obs ticks s count s1 s' Htick Hcount Hon.
    simpl. rewrite Htick.
    apply Nat.ltb_lt in Hcount. rewrite Hcount, Hon. reflexivity.
Qed.

End DevLoopProperties.

Section DevLoopWitnesses.
Import watch runner testutil.

(** Scenario S5: [a] and [b] were built as [a:1] and [b:1]; a tick dirties
    only [a] and the builder returns [a:2]; the deployer gets [a:2; b:1]. *)
Lemma deploy_input_is_merge_witness :
  deployInputs (trace (snd (testOnChange (midTick dirtyA [] []))))
  = [[tagged "a" "a:2"; tagged "b" "b:1"]]
  /\ filter (named "b")
            (mergeWithPreviousBuilds [tagged "a" "a:2"]
                                     [tagged "a" "a:1"; tagged "b" "b:1"])
     = [tagged "b" "b:1"].
Proof.
  pose proof (deploy_input_is_merge TestWorld testBuild testDeploy
                (midTick dirtyA [] []) [tagged "a" "a:2"] _
                eq_refl ltac:(discriminate) eq_refl) as H.
  destruct H as (H1 & _ & _ & _ & H5 & _).
  split; [exact H1|].
  apply (H5 ltac:(decide_by_computation) (tagged "b" "b:1"));
    decide_by_computation.
Defined.

(** The cases of [TestDev]: the first build fails, the first deploy
    fails, a later build fails, a later deploy fails, and the loop goes on
    after a failed tick. *)
Lemma first_run_fatal_later_errors_dropped_witness :
  fst (testDev testOptions [] [] (testState (testWorld [Some (New "")] [])))
  = Some (Wrap (New "") "exiting dev mode because the first build failed")
  /\ fst (testDev testOptions [] [] (testState (testWorld [] [Some (New "")])))
     = Some (Wrap (New "") "exiting dev mode because the first deploy failed")
  /\ fst (testOnChange (midTick dirtyA [Some (New "build")] [])) = None
  /\ fst (testOnChange (midTick dirtyA [] [Some (New "deploy")])) = None
  /\ fst (testOnChange (midTick redeployOnly [] [Some (New "deploy")])) = None
  /\ testRun watched
             [[Ok (modified ["main.go"])]; [Ok (modified ["main.go"])]]
             (midTick noChanges [Some (New "build")] [])
     = testRun watched [[Ok (modified ["main.go"])]]
               (snd (testOnChange
                       (snd (testTick watched [Ok (modified ["main.go"])] 0
                                      (midTick noChanges [Some (New "build")] []))))).
Proof.
  destruct (first_run_fatal_later_errors_dropped
              globMatch TestWorld testBuild testDeploy testSync testSync
              testStat testLoggerStart)
    as (H1 & H2 & H3 & H4 & H5 & H6).
  repeat apply conj.
  - destruct (H1 testOptions [] [] (testState (testWorld [Some (New "")] []))
                 _ _ _ _ eq_refl eq_refl) as (s' & Hs' & _).
    unfold testDev. rewrite Hs'. reflexivity.
  - destruct (H2 testOptions [] [] (testState (testWorld [] [Some (New "")]))
                 _ _ _ _ _ _ eq_refl eq_refl eq_refl) as (s' & Hs' & _).
    unfold testDev. rewrite Hs'. reflexivity.
  - destruct (H3 (midTick dirtyA [Some (New "build")] []) _ _
                 eq_refl ltac:(discriminate) eq_refl) as (s' & Hs' & _).
    unfold testOnChange. rewrite Hs'. reflexivity.
  - destruct (H4 (midTick dirtyA [] [Some (New "deploy")]) _ _ _ _
                 eq_refl ltac:(discriminate) eq_refl eq_refl) as (s' & Hs' & _).
    unfold testOnChange. rewrite Hs'. reflexivity.
  - destruct (H5 (midTick redeployOnly [] [Some (New "deploy")]) _ _
                 eq_refl eq_refl eq_refl eq_refl) as (s' & Hs' & _).
    unfold testOnChange. rewrite Hs'. reflexivity.
  - apply (H6 watched [Ok (modified ["main.go"])] [[Ok (modified ["main.go"])]]
              (midTick noChanges [Some (New "build")] []) 1%nat
              (snd (testTick watched [Ok (modified ["main.go"])] 0
                             (midTick noChanges [Some (New "build")] []))));
      [reflexivity | lia | reflexivity].
Defined.

(** Scenario S3: with the pattern [static/*.html], the change of
    [static/index.html] is synced: the file is copied, nothing is built. *)
Example sync_path :
  let web := {| v1alpha3.ImageName := "web"; v1alpha3.Workspace := ".";
                v1alpha3.Sync := ["static/*.html"] |} in
  testHandler web (modified ["static/index.html"]) (midTick noChanges [] [])
  = (None,
     {| builds := [tagged "a" "a:1"; tagged "b" "b:1"];
        changed := noChanges;
        world := world (midTick noChanges [] []);
        trace := [ECopy "web" ["static/index.html"]; EDelete "web" [];
                  EPrint "Synced files."] |}).
Proof. reflexivity. Qed.

(** Scenario S2: a tick whose build fails leaves the table of built images
    as it was, deploys nothing, and the next tick is run. *)
Example later_build_fails :
  let s := snd (testRun [CArtifact artifactA; CDeployer; CConfiguration]
                        [[Ok noEvents; Ok (modified ["k8s.yaml"])];
                         [Ok noEvents; Ok noEvents]]
                        (midTick dirtyA [Some (New "build")] [])) in
  builds s = [tagged "a" "a:1"; tagged "b" "b:1"]
  /\ deployInputs (trace s) = []
  /\ buildInputs (trace s) = [[artifactA]].
Proof. vm_compute. repeat split; reflexivity. Qed.
End DevLoopWitnesses.

(** ** The manifest transformer *)

Section TransformerProperties.
Import deploy manifests.
Variable ParseReference : string -> result docker.ImageReference.

Lemma yaml_ind (P : yaml -> Prop) :
  P YNull -> (forall b, P (YBool b)) -> (forall n, P (YInt n)) ->
  (forall s, P (YFloat s)) -> (forall s, P (YStr s)) ->
  (forall items, Forall P items -> P (YSeq items)) ->
  (forall entries, Forall (fun kv => P (snd kv)) entries -> P (YMap entries)) ->
  forall t, P t.
Proof.
  intros Hnull Hbool Hint Hfloat Hstr Hseq Hmap.
  fix IH 1. intros [ | b | n | s | s | items | entries].
  - exact Hnull.
  - apply Hbool.
  - apply Hint.
  - apply Hfloat.
  - apply Hstr.
  - apply Hseq. induction items as [|t items IHitems]; constructor;
      [apply IH | exact IHitems].
  - apply Hmap. induction entries as [|[k v] entries IHentries]; constructor;
      [apply IH | exact IHentries].
Qed.

Local Abbreviation rewriteImage := (rewriteImage ParseReference).
Local Abbreviation rewriteTree := (rewriteTree ParseReference).
Local Abbreviation imageLog := (imageLog ParseReference).
Local Abbreviation walkOK := (walkOK ParseReference).
Local Abbreviation stable := (stable ParseReference).


Lemma tags_found (st : walk) (n : string) (img : replacement) :
  replacements st !! n = Some img ->
  tag <$> <[n := {| tag := tag img; found := true |}]> (replacements st)
  = tags st.
Proof.
  intros H. unfold tags. rewrite fmap_insert. simpl.
  apply insert_id. rewrite lookup_fmap, H. reflexivity.
Qed.

Lemma replaceImageValue_spec (v : yaml) (st : walk) :
  match replaceImageValue ParseReference v st with
  | Returned (v', st') =>
      (exists image, v = YStr image)
      /\ v' = rewriteImage (tags st) v
      /\ tags st' = tags st
      /\ log st' = log st ++ imageLog v
  | Panicked _ => forall image, v <> YStr image
  end.
Proof.
  destruct v as [ | b | n | s | image | items | entries]; simpl;
    try (intros image'; discriminate).
  destruct (ParseReference image) as [parsed|err]; simpl.
  - destruct (docker.FullyQualified parsed); simpl.
    + repeat split; eauto.
    + unfold tags at 1. rewrite lookup_fmap.
      destruct (replacements st !! docker.BaseName parsed) as [img|] eqn:E;
        simpl.
      * repeat split; eauto.
        -- unfold tags at 1. simpl. apply tags_found. exact E.
        -- rewrite app_nil_r. reflexivity.
      * repeat split; eauto. rewrite app_nil_r. reflexivity.
  - repeat split; eauto.
Qed.

Lemma walkItems_spec (rec : yaml -> walk -> outcome (yaml * walk))
      (items : list yaml) :
  Forall (walkOK rec) items ->
  forall st,
    match walkItems rec items st with
    | Returned (items', st') =>
        forallb wellShaped items = true
        /\ items' = map (rewriteTree (tags st)) items
        /\ tags st' = tags st
        /\ log st' = log st ++ flat_map imageLog (flat_map imageValues items)
    | Panicked _ => forallb wellShaped items = false
    end.
Proof.
  induction 1 as [|t items Ht Hitems IH]; intros st; simpl.
  - rewrite app_nil_r. auto.
  - specialize (Ht st). destruct (rec t st) as [[t' st1]|msg].
    + destruct Ht as (W & -> & T1 & L1). specialize (IH st1).
      destruct (walkItems rec items st1) as [[items' st2]|msg].
      * destruct IH as (W' & -> & T2 & L2).
        rewrite W, W', T1, T2, L2, L1, flat_map_app, app_assoc. auto.
      * rewrite IH. apply andb_false_r.
    + rewrite Ht. reflexivity.
Qed.

Lemma walkEntries_spec (rec : yaml -> walk -> outcome (yaml * walk))
      (entries : list (yaml * yaml)) :
  Forall (fun kv => walkOK rec (snd kv)) entries ->
  forall st,
    match walkEntries ParseReference rec entries st with
    | Returned (entries', st') =>
        wellShaped (YMap entries) = true
        /\ YMap entries' = rewriteTree (tags st) (YMap entries)
        /\ tags st' = tags st
        /\ log st' = log st ++ flat_map imageLog (imageValues (YMap entries))
    | Panicked _ => wellShaped (YMap entries) = false
    end.
Proof.
  induction 1 as [|[k v] entries Hv Hentries IH]; intros st.
  - simpl. rewrite app_nil_r. auto.
  - cbn [walkEntries].
    destruct k as [ | b | n | s | ks | items | es]; try reflexivity.
    assert (Hhead :
              match (if String.eqb ks "image"
                     then replaceImageValue ParseReference v st
                     else rec v st) with
              | Returned (v', st') =>
                  (if String.eqb ks "image"
                   then match v with YStr _ => true | _ => false end
                   else wellShaped v) = true
                  /\ v' = (if String.eqb ks "image"
                           then rewriteImage (tags st) v
                           else rewriteTree (tags st) v)
                  /\ tags st' = tags st
                  /\ log st' = log st
                                 ++ flat_map imageLog
                                      (if String.eqb ks "image" then [v]
                                       else imageValues v)
              | Panicked _ =>
                  (if String.eqb ks "image"
                   then match v with YStr _ => true | _ => false end
                   else wellShaped v) = false
              end).
    { destruct (String.eqb ks "image").
      - pose proof (replaceImageValue_spec v st) as Hr.
        destruct (replaceImageValue ParseReference v st) as [[v' st1]|msg].
        + destruct Hr as ((image & ->) & -> & T & L).
          simpl. rewrite app_nil_r. auto.
        + destruct v; try reflexivity. exfalso. eapply Hr. reflexivity.
      - apply (Hv st). }
    destruct (if String.eqb ks "image"
              then replaceImageValue ParseReference v st
              else rec v st) as [[v' st1]|msg].
    + destruct Hhead as (W & -> & T1 & L1). specialize (IH st1).
      destruct (walkEntries ParseReference rec entries st1)
        as [[entries' st2]|msg].
      * destruct IH as (W' & E' & T2 & L2).
        simpl in W', E', L2 |- *. injection E' as ->.
        rewrite W, W', T1, T2, L2, L1, flat_map_app, app_assoc. auto.
      * simpl in IH |- *. rewrite IH. apply andb_false_r.
    + simpl. rewrite Hhead. reflexivity.
Qed.

(** The walk of the code is the rewriting of the specification on a
    well-shaped tree, and panics on any other. *)
Lemma recursiveReplaceImage_spec (t : yaml) :
  walkOK (recursiveReplaceImage ParseReference) t.
Proof.
  induction t as [ | b | n | s | s | items IH | entries IH] using yaml_ind;
    intros st; try (simpl; rewrite app_nil_r; auto; fail).
  - pose proof (walkItems_spec _ items IH st) as H.
    cbn [recursiveReplaceImage].
    destruct (walkItems (recursiveReplaceImage ParseReference) items st)
      as [[items' st']|msg].
    + destruct H as (W & -> & T & L). simpl. auto.
    + exact H.
  - pose proof (walkEntries_spec _ entries IH st) as H.
    cbn [recursiveReplaceImage].
    destruct (walkEntries ParseReference
                          (recursiveReplaceImage ParseReference) entries st)
      as [[entries' st']|msg].
    + destruct H as (W & E & T & L). rewrite E. auto.
    + exact H.
Qed.

(** *** The rewriting of the specification *)

Lemma imageValues_rewriteTree (tgs : gmap string string) (t : yaml) :
  imageValues (rewriteTree tgs t) = map (rewriteImage tgs) (imageValues t).
Proof.
  induction t as [ | b | n | s | s | items IH | entries IH] using yaml_ind;
    try reflexivity.
  - simpl. induction IH as [|t items Ht _ IHitems]; [reflexivity|].
    simpl. rewrite Ht, IHitems, map_app. reflexivity.
  - simpl. induction IH as [|[k v] entries Hv _ IHentries]; [reflexivity|].
    simpl in *. rewrite IHentries, map_app.
    destruct (isImageKey k); [reflexivity|]. rewrite Hv. reflexivity.
Qed.

Lemma rewriteImage_string (tgs : gmap string string) (image : string) :
  exists image', rewriteImage tgs (YStr image) = YStr image'.
Proof.
  simpl. destruct (ParseReference image) as [parsed|err]; eauto.
  destruct (docker.FullyQualified parsed); eauto.
  destruct (tgs !! docker.BaseName parsed); eauto.
Qed.

Lemma wellShaped_rewriteTree (tgs : gmap string string) (t : yaml) :
  wellShaped (rewriteTree tgs t) = wellShaped t.
Proof.
  induction t as [ | b | n | s | s | items IH | entries IH] using yaml_ind;
    try reflexivity.
  - simpl. induction IH as [|t items Ht _ IHitems]; [reflexivity|].
    simpl. rewrite Ht, IHitems. reflexivity.
  - simpl. induction IH as [|[k v] entries Hv _ IHentries]; [reflexivity|].
    simpl in *. rewrite IHentries. f_equal.
    destruct k as [ | b | n | s | ks | items | es]; try reflexivity.
    simpl. destruct (String.eqb ks "image"); [|exact Hv].
    destruct v; try reflexivity.
    destruct (rewriteImage_string tgs s) as [image' ->]. reflexivity.
Qed.


Lemma rewriteImage_idempotent (tgs : gmap string string) (v : yaml) :
  stable tgs -> rewriteImage tgs (rewriteImage tgs v) = rewriteImage tgs v.
Proof.
  intros Hstable. destruct v as [ | b | n | s | image | items | entries];
    try reflexivity.
  unfold manifests.rewriteImage at 2.
  destruct (ParseReference image) as [parsed|err] eqn:E.
  - destruct (docker.FullyQualified parsed) eqn:F.
    + simpl. rewrite E, F. reflexivity.
    + destruct (tgs !! docker.BaseName parsed) as [t|] eqn:L.
      * rewrite (Hstable _ _ L). simpl. rewrite E, F, L. reflexivity.
      * simpl. rewrite E, F, L. reflexivity.
  - simpl. rewrite E. reflexivity.
Qed.

Lemma rewriteTree_idempotent (tgs : gmap string string) (t : yaml) :
  stable tgs -> rewriteTree tgs (rewriteTree tgs t) = rewriteTree tgs t.
Proof.
  intros Hstable.
  induction t as [ | b | n | s | s | items IH | entries IH] using yaml_ind;
    try reflexivity.
  - simpl. f_equal. induction IH as [|t items Ht _ IHitems]; [reflexivity|].
    simpl. rewrite Ht, IHitems. reflexivity.
  - simpl. f_equal. induction IH as [|[k v] entries Hv _ IHentries];
      [reflexivity|].
    simpl in *. rewrite IHentries. f_equal. f_equal.
    destruct (isImageKey k); [apply rewriteImage_idempotent; exact Hstable|].
    exact Hv.
Qed.

Lemma rewriteEntries_tree (tgs : gmap string string) (m : list (yaml * yaml)) :
  rewriteTree tgs (YMap m) = YMap (rewriteEntries ParseReference tgs m).
Proof. reflexivity. Qed.

Lemma rewriteEntries_idempotent (tgs : gmap string string)
      (m : list (yaml * yaml)) :
  stable tgs ->
  rewriteEntries ParseReference tgs (rewriteEntries ParseReference tgs m)
  = rewriteEntries ParseReference tgs m.
Proof.
  intros Hstable.
  pose proof (rewriteTree_idempotent tgs (YMap m) Hstable) as H.
  rewrite !rewriteEntries_tree in H. injection H as H. exact H.
Qed.

(** *** The replacement set *)

Lemma foldl_replacements (builds : list build.Artifact)
      (m : gmap string replacement) (n : string) :
  foldl (fun m b =>
           <[build.ImageName b := {| tag := build.Tag b; found := false |}]> m)
        m builds !! n
  = match lastBuild builds n with
    | Some b => Some {| tag := build.Tag b; found := false |}
    | None => m !! n
    end.
Proof.
  revert m. induction builds as [|b builds IH]; intros m; [reflexivity|].
  simpl. rewrite IH. unfold lastBuild. rewrite (filter_cons _ b builds).
  destruct (decide (runner.named n b)) as [Hn|Hn].
  - rewrite last_cons.
    destruct (last (filter (runner.named n) builds)); [reflexivity|].
    unfold runner.named in Hn. rewrite Hn. apply lookup_insert_eq.
  - destruct (last (filter (runner.named n) builds)); [reflexivity|].
    apply lookup_insert_ne. exact Hn.
Qed.

Lemma newReplacements_lookup (builds : list build.Artifact) (n : string) :
  newReplacements builds !! n
  = (fun b => {| tag := build.Tag b; found := false |}) <$> lastBuild builds n.
Proof.
  unfold newReplacements. rewrite foldl_replacements.
  destruct (lastBuild builds n); reflexivity.
Qed.

Lemma newReplacements_tags (builds : list build.Artifact) (n : string) :
  tags {| replacements := newReplacements builds; log := [] |} !! n
  = build.Tag <$> lastBuild builds n.
Proof.
  unfold tags. simpl. rewrite lookup_fmap, newReplacements_lookup.
  destruct (lastBuild builds n); reflexivity.
Qed.

Lemma lastBuild_named (builds : list build.Artifact) (n : string)
      (b : build.Artifact) :
  lastBuild builds n = Some b -> b ∈ builds /\ build.ImageName b = n.
Proof.
  unfold lastBuild. intros H. apply last_Some_elem_of in H.
  apply list_elem_of_filter in H. tauto.
Qed.

(** *** The pass over a manifest list *)

Section WithCodec.
Variable bytes : Type.
Variable Unmarshal : bytes -> result (list (yaml * yaml)).
Variable Marshal : list (yaml * yaml) -> result bytes.

Local Abbreviation replaceManifests :=
  (replaceManifests ParseReference bytes Unmarshal Marshal).
Local Abbreviation replaceImages :=
  (replaceImages ParseReference bytes Unmarshal Marshal).
Local Abbreviation rewriteEntries := (rewriteEntries ParseReference).
Local Abbreviation rewritten := (rewritten ParseReference Unmarshal Marshal).
Local Abbreviation documentLog := (documentLog ParseReference Unmarshal).


Lemma walkDocument (m : list (yaml * yaml)) (st : walk) :
  match walkEntries ParseReference (recursiveReplaceImage ParseReference)
                    m st with
  | Returned (m', st') =>
      wellShaped (YMap m) = true
      /\ m' = rewriteEntries (tags st) m
      /\ tags st' = tags st
      /\ log st' = log st ++ flat_map imageLog (imageValues (YMap m))
  | Panicked _ => wellShaped (YMap m) = false
  end.
Proof.
  pose proof (walkEntries_spec (recursiveReplaceImage ParseReference) m
                (Forall_true _ _ (fun kv => recursiveReplaceImage_spec (snd kv)))
                st) as H.
  destruct (walkEntries ParseReference (recursiveReplaceImage ParseReference)
                        m st) as [[m' st']|msg]; [|exact H].
  destruct H as (W & E & T & L). rewrite rewriteEntries_tree in E.
  injection E as ->. auto.
Qed.

Lemma replaceManifests_cons (manifest : bytes) (l : list bytes) (st : walk) :
  replaceManifests (manifest :: l) st =
  match Unmarshal manifest with
  | Err err => Returned (Err (Wrap err "reading kubernetes YAML"), st)
  | Ok m =>
      match m with
      | [] => replaceManifests l st
      | _ :: _ =>
          match walkEntries ParseReference
                            (recursiveReplaceImage ParseReference) m st with
          | Panicked msg => Panicked msg
          | Returned (m', st) =>
              match Marshal m' with
              | Err err => Returned (Err (Wrap err "marshalling yaml"), st)
              | Ok updatedManifest =>
                  match replaceManifests l st with
                  | Returned (Ok rest, st) =>
                      Returned (Ok (updatedManifest :: rest), st)
                  | r => r
                  end
              end
          end
      end
  end.
Proof.
  cbn [deploy.replaceManifests].
  destruct (Unmarshal manifest) as [[|kv m]|err]; reflexivity.
Qed.

Lemma replaceManifests_fidelity (l : list bytes) :
  forall st out st',
    replaceManifests l st = Returned (Ok out, st') ->
    tags st' = tags st
    /\ Forall2 (rewritten (tags st))
               (List.filter (fun manifest =>
                               negb (isEmptyDocument Unmarshal manifest)) l)
               out.
Proof.
  induction l as [|manifest l IH]; intros st out st' H.
  - injection H as <- <-. split; [reflexivity | constructor].
  - rewrite replaceManifests_cons in H.
    simpl. unfold isEmptyDocument at 1.
    destruct (Unmarshal manifest) as [m|err] eqn:EU; [|discriminate].
    destruct m as [|kv m]; simpl.
    { apply IH. exact H. }
    pose proof (walkDocument (kv :: m) st) as Hw.
    destruct (walkEntries ParseReference
                          (recursiveReplaceImage ParseReference)
                          (kv :: m) st) as [[m' st1]|msg]; [|discriminate].
    destruct Hw as (W & -> & T & L).
    destruct (Marshal (rewriteEntries (tags st) (kv :: m)))
      as [updated|err] eqn:EM; [|discriminate].
    destruct (replaceManifests l st1) as [[[rest|err] st2]|msg] eqn:ER;
      try discriminate.
    injection H as <- <-.
    destruct (IH _ _ _ ER) as [T2 F2]. split; [congruence|].
    constructor.
    + exists (kv :: m). repeat split; auto; discriminate.
    + rewrite <- T. exact F2.
Qed.

Lemma replaceManifests_exact (tgs : gmap string string) (l out : list bytes) :
  Forall2 (rewritten tgs) l out ->
  forall st, tags st = tgs ->
             exists st', replaceManifests l st = Returned (Ok out, st')
                         /\ tags st' = tgs.
Proof.
  induction 1 as [|manifest updated l out (m & EU & Hne & W & EM) _ IH];
    intros st Ht.
  - simpl. eauto.
  - rewrite replaceManifests_cons, EU. destruct m as [|kv m]; [congruence|].
    pose proof (walkDocument (kv :: m) st) as Hw.
    destruct (walkEntries ParseReference
                          (recursiveReplaceImage ParseReference)
                          (kv :: m) st) as [[m' st1]|msg]; [|congruence].
    destruct Hw as (_ & -> & T & L). rewrite Ht, EM.
    destruct (IH st1 ltac:(congruence)) as (st' & -> & T').
    eauto.
Qed.

Lemma replaceManifests_run (l : list bytes) :
  forall st,
    Forall (fun manifest =>
              exists m, Unmarshal manifest = Ok m
                        /\ wellShaped (YMap m) = true
                        /\ exists u, Marshal (rewriteEntries (tags st) m) = Ok u)
           l ->
    exists out st',
      replaceManifests l st = Returned (Ok out, st')
      /\ tags st' = tags st
      /\ log st' = log st ++ flat_map documentLog l.
Proof.
  induction l as [|manifest l IH]; intros st H.
  - exists [], st. simpl. rewrite app_nil_r. auto.
  - apply Forall_cons in H as [(m & EU & W & u & EM) H].
    rewrite replaceManifests_cons. cbn [flat_map].
    unfold documentLog at 1. rewrite EU.
    destruct m as [|kv m].
    { destruct (IH st H) as (out & st' & -> & T & L). eauto. }
    pose proof (walkDocument (kv :: m) st) as Hw.
    destruct (walkEntries ParseReference
                          (recursiveReplaceImage ParseReference)
                          (kv :: m) st) as [[m' st1]|msg]; [|congruence].
    destruct Hw as (_ & -> & T & L). rewrite EM.
    rewrite <- T in H.
    destruct (IH st1 H) as (out & st' & -> & T' & L').
    exists (u :: out), st'. split; [reflexivity|].
    split; [congruence|]. rewrite L', L, <- app_assoc. reflexivity.
Qed.

Lemma rewriteImage_claim (builds : list build.Artifact) (v : yaml) :
  fidelity ParseReference builds v
           (rewriteImage
              (tags {| replacements := newReplacements builds; log := [] |})
              v).
Proof.
  split.
  - intros image parsed b -> HP HF HL. simpl.
    rewrite HP, HF, newReplacements_tags, HL. reflexivity.
  - intros H. destruct v as [ | b | n | s | image | items | entries];
      try reflexivity.
    simpl. destruct (ParseReference image) as [parsed|err] eqn:HP;
      [|reflexivity].
    destruct (H image parsed eq_refl HP) as [HF|HL].
    + rewrite HF. reflexivity.
    + destruct (docker.FullyQualified parsed); [reflexivity|].
      rewrite newReplacements_tags, HL. reflexivity.
Qed.

Lemma Forall2_map_right {A B : Type} (P : A -> B -> Prop) (f : A -> B)
      (l : list A) :
  (forall x, P x (f x)) -> Forall2 P l (map f l).
Proof. intros H. induction l; simpl; constructor; auto. Qed.

(** C2. When a pass over a manifest list returns, each manifest that is
    not empty has its updated manifest, in order, and the values under
    [image] keys of the two correspond one to one: a value that parses
    as a reference that is not fully qualified and whose base name has a
    build result is that result's tag (the last result of that name),
    and any other value is the value of the input. *)
Theorem tag_rewrite_fidelity (l : list bytes) (builds : list build.Artifact)
        (out : list bytes) (lg : list logLine) :
  replaceImages l builds = Returned (Ok out, lg) ->
  Forall2 (documentFidelity ParseReference Unmarshal Marshal builds)
          (List.filter (fun manifest =>
                          negb (isEmptyDocument Unmarshal manifest)) l)
          out.
Proof.
  unfold deploy.replaceImages. intros H.
  destruct (replaceManifests l _) as [[[out'|err] st']|msg] eqn:ER;
    try discriminate.
  injection H as <- _.
  destruct (replaceManifests_fidelity _ _ _ _ ER) as [_ HF].
  eapply Forall2_impl; [exact HF|].
  intros manifest updated (m & EU & _ & W & EM).
  exists m, (rewriteEntries
               (tags {| replacements := newReplacements builds; log := [] |})
               m).
  split; [exact EU|]. split; [exact EM|].
  rewrite <- rewriteEntries_tree, imageValues_rewriteTree.
  apply Forall2_map_right. intros v. apply rewriteImage_claim.
Qed.

Lemma unusedWarnings_elem (reps : gmap string replacement) (line : logLine) :
  line ∈ unusedWarnings reps ->
  exists name, is_Some (reps !! name)
               /\ line = Warnf "image [%s] is not used by the deployment" name.
Proof.
  unfold unusedWarnings. intros H.
  apply list_elem_of_omap in H as ([name r] & Hin & Hf).
  apply elem_of_map_to_list in Hin.
  destruct (found r); [discriminate|]. injection Hf as <-.
  exists name. split; [eauto | reflexivity].
Qed.

Lemma documentLog_elem (l : list bytes) (line : logLine) :
  line ∈ flat_map documentLog l <->
  exists manifest m v,
    manifest ∈ l /\ Unmarshal manifest = Ok m
    /\ v ∈ imageValues (YMap m) /\ line ∈ imageLog v.
Proof.
  rewrite list_elem_of_In, in_flat_map. split.
  - intros (manifest & Hin & Hline). unfold documentLog in Hline.
    destruct (Unmarshal manifest) as [m|err] eqn:EU; [|contradiction].
    apply in_flat_map in Hline as (v & Hv & Hl).
    exists manifest, m, v. rewrite !list_elem_of_In. auto.
  - intros (manifest & m & v & Hin & EU & Hv & Hl).
    exists manifest. rewrite <- list_elem_of_In. split; [exact Hin|].
    unfold documentLog. rewrite EU. apply in_flat_map.
    exists v. rewrite <- !list_elem_of_In. auto.
Qed.


End WithCodec.
End TransformerProperties.

Section TransformerExamples.
Import deploy manifests testutil.

(** Scenario S4: the image [myapp] becomes [myapp:abc], the digest
    reference is unchanged. *)
Lemma tag_rewrite_fidelity_witness :
  Forall2 (documentFidelity docker.ParseReference testUnmarshal testMarshal
                            buildsS4)
          [manifestS4] [updatedS4].
Proof.
  exact (tag_rewrite_fidelity docker.ParseReference testManifest
           testUnmarshal testMarshal [manifestS4] buildsS4 [updatedS4] _
           eq_refl).
Defined.




End TransformerExamples.

(** ** The port-forwarder *)

Section PortForwardProperties.
Import kubernetes.
Variable runs : portForwardEntry -> behaviour.

Lemma consistent_onePerKey (st : state) : consistent st -> onePerKey st.
Proof.
  intros [H _] pid1 pid2 k H1 H2.
  destruct (H _ _ H1) as (e1 & E1 & C1). destruct (H _ _ H2) as (e2 & E2 & C2).
  congruence.
Qed.

Lemma added_app (st st' : state) (evs : list event) :
  trace st' = trace st ++ evs -> added st st' = evs.
Proof. intros H. unfold added. rewrite H. apply drop_app_length. Qed.

(** [forward] stores the entry under its key with the new process, and
    starts that process. *)
Lemma forward_spec (p : portForwardEntry) (st : state) :
  let st' := snd (forward runs p st) in
  let pid := nextPid st in
  (exists line args, trace st' = trace st ++ [EPrintln line; EStart pid args])
  /\ forwardedPods st'
     = <[key p := {| resourceVersion := resourceVersion p; podName := podName p;
                     containerName := containerName p; port := port p;
                     cmd := Some pid |}]> (forwardedPods st)
  /\ nextPid st' = S pid
  /\ (running st' = running st \/ running st' = <[pid := key p]> (running st)).
Proof.
  unfold forward. simpl.
  destruct (runs _) as [|[err|]]; simpl; rewrite <- app_assoc; simpl;
    repeat split; eauto.
Qed.

Lemma stop_spec (p : portForwardEntry) (st : state) :
  match stop p st with
  | (None, st') =>
      exists pid, cmd p = Some pid /\ is_Some (running st !! pid)
                  /\ trace st' = trace st ++ [ESignal pid]
                  /\ running st' = delete pid (running st)
                  /\ forwardedPods st' = forwardedPods st
                  /\ nextPid st' = nextPid st
  | (Some _, st') =>
      st' = st
      /\ forall pid, cmd p = Some pid -> running st !! pid = None
  end.
Proof.
  unfold stop. destruct (cmd p) as [pid|]; [|split; [reflexivity | discriminate]].
  destruct (running st !! pid) as [k|] eqn:E; simpl.
  - exists pid. repeat split; eauto.
  - split; [reflexivity|]. intros pid' [= <-]. exact E.
Qed.

Lemma forwardEntry_after_stop (entry : portForwardEntry) (st : state) :
  snd (match forward runs entry st with
       | (Finished (Some err), st) =>
           (Finished (Some (Wrap err "port forwarding")), st)
       | r => r
       end) = snd (forward runs entry st).
Proof. destruct (forward runs entry st) as [[[err|]|pid] st']; reflexivity. Qed.

Lemma forward_consistent (p : portForwardEntry) (st : state) :
  consistent st ->
  (forall pid, running st !! pid <> Some (key p)) ->
  consistent (snd (forward runs p st)).
Proof.
  intros [H1 H2] Hfree.
  destruct (forward_spec p st) as (_ & T & N & R).
  split.
  - intros pid k Hr. rewrite T.
    destruct R as [R|R]; rewrite R in Hr.
    + destruct (decide (k = key p)) as [->|Hk]; [exfalso; eapply Hfree; eauto|].
      rewrite lookup_insert_ne by congruence. eauto.
    + destruct (decide (pid = nextPid st)) as [->|Hp].
      * rewrite lookup_insert_eq in Hr. injection Hr as <-.
        rewrite lookup_insert_eq. eauto.
      * rewrite lookup_insert_ne in Hr by congruence.
        destruct (decide (k = key p)) as [->|Hk]; [exfalso; eapply Hfree; eauto|].
        rewrite lookup_insert_ne by congruence. eauto.
  - intros pid k Hr. rewrite N.
    destruct R as [R|R]; rewrite R in Hr.
    + specialize (H2 _ _ Hr). lia.
    + destruct (decide (pid = nextPid st)) as [->|Hp]; [lia|].
      rewrite lookup_insert_ne in Hr by congruence.
      specialize (H2 _ _ Hr). lia.
Qed.

Lemma forward_keeps_running (p : portForwardEntry) (st : state) :
  consistent st ->
  forall pid k, running st !! pid = Some k ->
                running (snd (forward runs p st)) !! pid = Some k.
Proof.
  intros [_ H2] pid k Hr.
  destruct (forward_spec p st) as (_ & _ & _ & [R|R]); rewrite R; [exact Hr|].
  rewrite lookup_insert_ne; [exact Hr|]. specialize (H2 _ _ Hr). lia.
Qed.


(** [cleanupPorts] stops at the first entry [Range] hands it: its callback
    returns false. *)
Lemma cleanupPorts_first_only (st : state) :
  cleanupPorts st =
  match map_to_list (forwardedPods st) with
  | [] => st
  | (_, entry) :: _ =>
      match stop entry st with
      | (Some err, st') => emit (EWarnf "cleaning up port forwards" err) st'
      | (None, st') => st'
      end
  end.
Proof.
  unfold cleanupPorts, Range.
  destruct (map_to_list (forwardedPods st)) as [|[k entry] l]; [reflexivity|].
  simpl. destruct (stop entry st) as [[err|] st']; reflexivity.
Qed.

(** Whatever the table holds, [cleanupPorts] sends at most one signal. *)
Lemma cleanupPorts_signals_at_most_one (st : state) :
  exists evs, trace (cleanupPorts st) = trace st ++ evs
              /\ (length (signals evs) <= 1)%nat.
Proof.
  rewrite cleanupPorts_first_only.
  destruct (map_to_list (forwardedPods st)) as [|[k entry] l].
  { exists []. rewrite app_nil_r. simpl. auto. }
  pose proof (stop_spec entry st) as Hs.
  destruct (stop entry st) as [[err|] st'].
  - destruct Hs as [-> _]. eexists. split; [reflexivity|]. simpl. lia.
  - destruct Hs as (pid & _ & _ & Tr & _). eexists. split; [exact Tr|].
    simpl. lia.
Qed.
End PortForwardProperties.

Section PortForwardExamples.
Import kubernetes testutil.

(** C7 (the code departs from the claim). Two pods are forwarded, [web-1]
    on 8080 and [db-1] on 5432, then the context is cancelled: the table
    holds two entries, one SIGTERM is sent, and the forward of [db-1]
    (process 1) is still running when the forwarder has returned. *)
Theorem cleanupPorts_leaves_forwards_running :
  let st := testStart [modifiedPod (pod "web-1" "5" "web" 8080);
                       modifiedPod (pod "db-1" "6" "db" 5432);
                       CtxDone] initial in
  size (forwardedPods st) = 2%nat
  /\ signals (trace st) = [0%nat]
  /\ running st !! 1%nat = Some "db-5432"
  /\ last (trace st) = Some EWatcherStop.
Proof. vm_compute. repeat split; reflexivity. Qed.


Lemma consistent_initial : consistent initial.
Proof. split; intros pid k H; simpl in H; rewrite lookup_empty in H; discriminate. Qed.

End PortForwardExamples.

(** ** The post-deploy labeler *)

Section LabelProperties.
Import label.
Variable DefaultLabels : gmap string string.
Variable API : Type.
Variable apiUpdate : kind -> string -> gmap string string -> API -> option error * API.
Variable clientError : option error.

Local Abbreviation updateRuntimeObject :=
  (updateRuntimeObject DefaultLabels API apiUpdate).
Local Abbreviation retry := (retry DefaultLabels API apiUpdate).
Local Abbreviation labelResults := (labelResults DefaultLabels API apiUpdate).
Local Abbreviation ApplyLabelDeployResults :=
  (ApplyLabelDeployResults DefaultLabels API apiUpdate clientError).
Local Abbreviation mapAt := (mapAt API).
Local Abbreviation copyInto := (copyInto API).

Lemma mapAt_copyInto (src : gmap string string) (dst l : loc) (st : state API) :
  mapAt (copyInto src dst st) l
  = if decide (l = dst) then src ∪ mapAt st dst else mapAt st l.
Proof.
  unfold label.mapAt, label.copyInto. simpl.
  case_decide as H.
  - subst. rewrite lookup_insert_eq. reflexivity.
  - rewrite lookup_insert_ne by congruence. reflexivity.
Qed.

Lemma mapAt_emit (ev : event) (st : state API) (l : loc) :
  mapAt (emit API ev st) l = mapAt st l.
Proof. reflexivity. Qed.

(** [addSkaffoldLabels] leaves the caller's map as it is, also when the
    object's own map is that very map, and the object's map then holds the
    caller's labels. *)
Lemma addSkaffoldLabels_spec (labels o : loc) (obj : RuntimeObject)
      (st : state API) :
  is_Some (maps st !! labels) ->
  let l := fst (addSkaffoldLabels API labels o obj st) in
  let st' := snd (addSkaffoldLabels API labels o obj st) in
  mapAt st' labels = mapAt st labels
  /\ mapAt st labels ⊆ mapAt st' l
  /\ trace st' = trace st.
Proof.
  intros Halloc. unfold addSkaffoldLabels.
  destruct (Labels (Meta obj)) as [l|]; simpl.
  - rewrite !mapAt_copyInto. split; [|split; [|reflexivity]].
    + case_decide as H; [|reflexivity]. subst. apply (idemp_L (∪)).
    + case_decide; [|congruence]. apply map_union_subseteq_l.
  - set (l := fresh (dom (maps st))).
    assert (Hl : labels <> l).
    { intros ->. apply (is_fresh (dom (maps st))). apply elem_of_dom. exact Halloc. }
    set (st0 := {| maps := <[l:=∅]> (maps st); objects := _; api := api st;
                   trace := trace st |}).
    assert (H0 : mapAt st0 labels = mapAt st labels).
    { unfold label.mapAt. simpl. rewrite lookup_insert_ne by congruence.
      reflexivity. }
    rewrite !mapAt_copyInto. split; [|split; [|reflexivity]].
    + case_decide; [congruence | exact H0].
    + case_decide; [|congruence]. rewrite H0. apply map_union_subseteq_l.
Qed.

(** [updateRuntimeObject] writes the default labels into the caller's map
    itself, and the labels it sends to the API server hold them. *)
Lemma updateRuntimeObject_labels (labels : loc) (res : Artifact) (st : state API) :
  match updateRuntimeObject labels res st with
  | Returned (err, st') =>
      mapAt st' labels = DefaultLabels ∪ mapAt st labels
      /\ forall k ns lbls,
          EUpdate k ns lbls ∈ drop (length (trace st)) (trace st') ->
          DefaultLabels ⊆ lbls
  | Panicked _ => objects st !! Obj res = None
  end.
Proof.
  unfold label.updateRuntimeObject.
  set (st1 := copyInto DefaultLabels labels st).
  assert (H1 : mapAt st1 labels = DefaultLabels ∪ mapAt st labels).
  { unfold st1. rewrite mapAt_copyInto. case_decide; congruence. }
  assert (Halloc : is_Some (maps st1 !! labels)).
  { unfold st1, label.copyInto. simpl. rewrite lookup_insert_eq. eauto. }
  change (objects st1) with (objects st).
  destruct (objects st !! Obj res) as [obj|]; [|reflexivity].
  destruct (addSkaffoldLabels_spec labels (Obj res) obj st1 Halloc)
    as (H2 & H3' & Ht2).
  assert (H3 : DefaultLabels
               ⊆ mapAt (snd (addSkaffoldLabels API labels (Obj res) obj st1))
                       (fst (addSkaffoldLabels API labels (Obj res) obj st1))).
  { etransitivity; [|exact H3']. rewrite H1. apply map_union_subseteq_l. }
  clear H3'. change (trace st1) with (trace st) in Ht2.
  assert (Hdrop : forall evs, drop (length (trace st)) (trace st ++ evs) = evs)
    by (intros evs; apply drop_app_length).
  destruct (addSkaffoldLabels API labels (Obj res) obj st1) as [l st2] eqn:E2.
  simpl in H2, H3, Ht2.
  destruct (Kind obj);
    try (destruct (apiUpdate _ _ _ _) as [err a]; simpl;
         split; [rewrite <- H1, <- H2; reflexivity|];
         rewrite Ht2, Hdrop; intros k ns lbls Hin;
         apply list_elem_of_singleton in Hin; injection Hin as _ _ ->;
         exact H3).
  simpl. split; [exact H1|].
  rewrite Hdrop. intros k ns lbls Hin.
  apply list_elem_of_singleton in Hin. discriminate.
Qed.

Lemma default_twice (m : gmap string string) :
  DefaultLabels ∪ (DefaultLabels ∪ m) = DefaultLabels ∪ m.
Proof. rewrite (assoc_L (∪)), (idemp_L (∪)). reflexivity. Qed.

Lemma retry_S (i : nat) (labels : loc) (res : Artifact) (st : state API) :
  retry (S i) labels res st =
  match updateRuntimeObject labels res st with
  | Panicked msg => Panicked msg
  | Returned (None, st) => Returned (None, st)
  | Returned (Some err, st) =>
      match i with
      | O => Returned (Some err, emit API ESleep st)
      | S _ => retry i labels res (emit API ESleep st)
      end
  end.
Proof. reflexivity. Qed.

Lemma retry_labels (i : nat) (labels : loc) (res : Artifact) (st : state API) :
  match retry (S i) labels res st with
  | Returned (err, st') => mapAt st' labels = DefaultLabels ∪ mapAt st labels
  | Panicked _ => True
  end.
Proof.
  revert st. induction i as [|i IH]; intros st; rewrite retry_S;
    pose proof (updateRuntimeObject_labels labels res st) as Hu;
    destruct (updateRuntimeObject labels res st) as [[[err|] st1]|msg];
    try exact I; try (destruct Hu as [Hu _]; exact Hu).
  destruct Hu as [Hu _].
  specialize (IH (emit API ESleep st1)).
  destruct (retry (S i) labels res (emit API ESleep st1)) as [[err' st2]|msg];
    [|exact I].
  rewrite IH, mapAt_emit, Hu. apply default_twice.
Qed.

Lemma labelResults_labels (results : list Artifact) (labels : loc)
      (st : state API) :
  match labelResults labels results st with
  | Returned st' =>
      match results with
      | [] => st' = st
      | _ :: _ => mapAt st' labels = DefaultLabels ∪ mapAt st labels
      end
  | Panicked _ => True
  end.
Proof.
  revert st. induction results as [|res rest IH]; intros st; [reflexivity|].
  cbn [label.labelResults]. unfold tries.
  pose proof (retry_labels 2 labels res st) as Hr.
  destruct (retry 3 labels res st) as [[[err|] st1]|msg]; [| |exact I].
  - specialize (IH (emit API (EWarnf "error adding label to runtime object: %s" err)
                         st1)).
    destruct (labelResults labels rest _) as [st'|msg]; [|exact I].
    destruct rest as [|res' rest'].
    + rewrite IH, mapAt_emit. exact Hr.
    + rewrite IH, mapAt_emit, Hr. apply default_twice.
  - specialize (IH st1).
    destruct (labelResults labels rest st1) as [st'|msg]; [|exact I].
    destruct rest as [|res' rest'].
    + rewrite IH. exact Hr.
    + rewrite IH, Hr. apply default_twice.
Qed.

End LabelProperties.

Section LabelExamples.
Import label testutil.


End LabelExamples.

(** ** The algebra of merging *)

Section MergeAlgebra.
Import runner.

Lemma updatedBuilds_merge (a b : list build.Artifact) (n : string) :
  n ∈ updatedBuilds (mergeWithPreviousBuilds a b) <->
  n ∈ updatedBuilds a \/ n ∈ updatedBuilds b.
Proof.
  rewrite !elem_of_updatedBuilds. unfold mergeWithPreviousBuilds.
  rewrite fmap_app, elem_of_app. split.
  - intros [H|H]; [auto|]. right.
    apply list_elem_of_fmap in H as (p & -> & Hp).
    apply list_elem_of_filter in Hp as [_ Hp].
    apply list_elem_of_fmap_2. exact Hp.
  - intros [H|H]; [auto|].
    destruct (decide (n ∈ build.ImageName <$> a)) as [Ha|Ha]; [auto|].
    right. apply list_elem_of_fmap in H as (p & -> & Hp).
    apply list_elem_of_fmap_2. apply list_elem_of_filter. split; [|exact Hp].
    rewrite elem_of_updatedBuilds. exact Ha.
Qed.

(** X1. Merging build results is associative and the empty list is its
    unit on both sides: the tables of successive ticks can be merged in
    any grouping. *)
Theorem merge_associative (a b c : list build.Artifact) :
  mergeWithPreviousBuilds a (mergeWithPreviousBuilds b c)
  = mergeWithPreviousBuilds (mergeWithPreviousBuilds a b) c
  /\ mergeWithPreviousBuilds [] a = a
  /\ mergeWithPreviousBuilds a [] = a.
Proof.
  split; [|split].
  - pose proof (updatedBuilds_merge a b) as Hm.
    unfold mergeWithPreviousBuilds in *.
    rewrite filter_app, <- !app_assoc. do 2 f_equal.
    rewrite list_filter_filter. apply list_filter_iff.
    intros p. rewrite Hm. tauto.
  - unfold mergeWithPreviousBuilds. simpl.
    induction a as [|p ps IH]; [reflexivity|].
    rewrite filter_cons_True; [f_equal; exact IH|].
    unfold updatedBuilds. simpl. apply not_elem_of_empty.
  - unfold mergeWithPreviousBuilds. rewrite filter_nil. apply app_nil_r.
Qed.

(** X2. Merging the same results again changes nothing, a table merged
    with itself is itself, the image names of a merge are those of its two
    arguments, and a merge is no longer than the two together. *)
Theorem merge_idempotent (a b : list build.Artifact) :
  mergeWithPreviousBuilds a (mergeWithPreviousBuilds a b)
  = mergeWithPreviousBuilds a b
  /\ mergeWithPreviousBuilds a a = a
  /\ (forall n, n ∈ build.ImageName <$> mergeWithPreviousBuilds a b <->
                n ∈ build.ImageName <$> a \/ n ∈ build.ImageName <$> b)
  /\ (length (mergeWithPreviousBuilds a b) <= length a + length b)%nat.
Proof.
  assert (Hself : forall l : list build.Artifact,
             filter (fun p => build.ImageName p ∉ updatedBuilds a) l = [] <->
             Forall (fun p => build.ImageName p ∈ updatedBuilds a) l).
  { induction l as [|p ps IH]; [split; [constructor|reflexivity]|].
    rewrite filter_cons. case_decide as Hp.
    - split; [discriminate|]. intros H. inversion H; contradiction.
    - rewrite IH. split.
      + intros H. constructor; [|exact H].
        destruct (decide (build.ImageName p ∈ updatedBuilds a)); tauto.
      + intros H. inversion H; assumption. }
  assert (Haa : filter (fun p => build.ImageName p ∉ updatedBuilds a) a = []).
  { apply Hself. apply Forall_forall. intros p Hp.
    apply elem_of_updatedBuilds. apply list_elem_of_fmap_2. exact Hp. }
  split; [|split; [|split]].
  - unfold mergeWithPreviousBuilds.
    rewrite filter_app, Haa. simpl. f_equal.
    rewrite list_filter_filter. apply list_filter_iff. tauto.
  - unfold mergeWithPreviousBuilds. rewrite Haa. apply app_nil_r.
  - intros n. rewrite <- !elem_of_updatedBuilds. apply updatedBuilds_merge.
  - unfold mergeWithPreviousBuilds. rewrite length_app.
    pose proof (length_filter (fun p => build.ImageName p ∉ updatedBuilds a) b).
    lia.
Qed.
End MergeAlgebra.

(** ** Invariants of the watch loop *)

Section DevLoopInvariants.
Import watch runner.
Variable Match : string -> string -> result bool.
Variable World : Type.
Variable Build : list v1alpha3.Artifact -> World ->
                 result (list build.Artifact) * World.
Variable Deploy : list build.Artifact -> World -> option error * World.
Variable CopyFilesForImage DeleteFilesForImage :
  string -> list string -> World -> option error * World.

Local Abbreviation onChange := (onChange World Build Deploy).
Local Abbreviation tickComponents :=
  (tickComponents Match World CopyFilesForImage DeleteFilesForImage).
Local Abbreviation Run :=
  (Run Match World Build Deploy CopyFilesForImage DeleteFilesForImage).

(** The table after the tick action is the table before it, or the merge
    of a build result with it. *)
Lemma onChange_builds (s : state World) :
  builds (snd (onChange s)) = builds s
  \/ exists bRes,
       builds (snd (onChange s)) = mergeWithPreviousBuilds bRes (builds s).
Proof.
  unfold runner.onChange, onChangeSwitch. simpl.
  destruct (needsReload (changed s)); [left; reflexivity|].
  destruct (0 <? length (dirtyArtifacts (changed s)))%nat.
  - unfold callBuild. simpl.
    destruct (Build _ _) as [[bRes|err] w]; simpl; [|left; reflexivity].
    right. exists bRes.
    pose proof (deploy_after_update World Deploy) as Hd.
    unfold setWorld, runner.emit in *. simpl in *.
    match goal with
    | |- context [callDeploy World Deploy ?bs (updateBuiltImages World bRes ?s0)] =>
        rewrite (Hd bs bRes s0)
    end.
    destruct (Deploy _ _) as [[err|] w']; reflexivity.
  - destruct (needsRedeploy (changed s)); [|left; reflexivity].
    unfold callDeploy. simpl.
    destruct (Deploy _ _) as [[err|] w']; left; reflexivity.
Qed.

Lemma merge_keeps_names (bRes previous : list build.Artifact) (n : string) :
  n ∈ build.ImageName <$> previous ->
  n ∈ build.ImageName <$> mergeWithPreviousBuilds bRes previous.
Proof.
  intros Hn. unfold mergeWithPreviousBuilds. rewrite fmap_app, elem_of_app.
  destruct (decide (n ∈ build.ImageName <$> bRes)) as [Hb|Hb]; [auto|].
  right. apply list_elem_of_fmap in Hn as (p & -> & Hp).
  apply list_elem_of_fmap_2. apply list_elem_of_filter. split; [|exact Hp].
  rewrite elem_of_updatedBuilds. exact Hb.
Qed.

(** X3. The watch loop never drops an image from the runner's table:
    an image name that has a build result keeps one through every tick,
    whatever is rebuilt, fails or is synced. *)
Theorem watch_loop_keeps_images (cs : list component)
        (ticks : list (list (result WatchEvents))) (s : state World)
        (n : string) :
  n ∈ build.ImageName <$> builds s ->
  n ∈ build.ImageName <$> builds (snd (Run cs ticks s)).
Proof.
  revert s. induction ticks as [|obs ticks IH]; intros s Hn; [exact Hn|].
  simpl.
  pose proof (tickComponents_quiet Match World CopyFilesForImage
                                   DeleteFilesForImage cs obs 0 s) as Hq.
  destruct (tickComponents cs obs 0 s) as [[r count] s1].
  destruct Hq as (_ & _ & Hb & _).
  destruct r as [err|]; simpl; [rewrite Hb; exact Hn|].
  destruct (0 <? count)%nat.
  - assert (Hn1 : n ∈ build.ImageName <$> builds (snd (onChange s1))).
    { destruct (onChange_builds s1) as [-> | [bRes ->]].
      - rewrite Hb. exact Hn.
      - apply merge_keeps_names. rewrite Hb. exact Hn. }
    destruct (onChange s1) as [[err|] s2]; simpl in *; [exact Hn1|].
    apply IH. exact Hn1.
  - apply IH. rewrite Hb. exact Hn.
Qed.

Lemma tickComponents_unchanged (cs : list component)
      (obs : list (result WatchEvents)) (n : nat) (s : state World) :
  Forall (fun o => exists e, o = Ok e /\ HasChanged e = false) obs ->
  tickComponents cs obs n s = (None, n, s).
Proof.
  revert obs. induction cs as [|c cs IH]; intros obs Hobs; [reflexivity|].
  destruct obs as [|o obs]; [reflexivity|].
  apply Forall_cons in Hobs as [(e & -> & He) Hobs].
  simpl. rewrite He. apply IH. exact Hobs.
Qed.

(** X5. Ticks in which no component has changed do nothing: the loop
    returns nil when the context is cancelled and the state is as it
    was. *)
Theorem unchanged_ticks_do_nothing (cs : list component)
        (ticks : list (list (result WatchEvents))) (s : state World) :
  Forall (Forall (fun o => exists e, o = Ok e /\ HasChanged e = false)) ticks ->
  Run cs ticks s = (None, s).
Proof.
  induction ticks as [|obs ticks IH]; intros Hticks; [reflexivity|].
  apply Forall_cons in Hticks as [Hobs Hticks].
  simpl. rewrite (tickComponents_unchanged cs obs 0 s Hobs). simpl.
  apply IH. exact Hticks.
Qed.

(** X6. A change that qualifies for a sync but whose copy fails is
    neither deleted, nor rebuilt, nor deployed: the handler's error is
    logged by the watcher, the tick action finds nothing to do, and the
    loop goes on with the table of built images as it was. *)
Theorem failed_sync_is_not_rebuilt (a : v1alpha3.Artifact) (e : WatchEvents)
        (cs : list component) (obs : list (result WatchEvents))
        (s : state World) (err : error) (w : World) :
  changed s = noChanges ->
  shouldSync Match (v1alpha3.Sync a) e = Ok true ->
  CopyFilesForImage (v1alpha3.ImageName a) (Added e ++ Modified e) (world s)
  = (Some err, w) ->
  Forall (fun o => exists e, o = Ok e /\ HasChanged e = false) obs ->
  Run (CArtifact a :: cs) [Ok e :: obs] s =
  (None,
   {| builds := builds s; changed := noChanges; world := w;
      trace := trace s ++ [ECopy (v1alpha3.ImageName a) (Added e ++ Modified e);
                           EWarn "on change error: %s" None;
                           EMute; EPrint "Watching for changes..."; EUnmute] |}).
Proof.
  intros Hchanged Hsync Hcopy Hobs.
  assert (He : HasChanged e = true).
  { unfold shouldSync in Hsync. destruct (HasChanged e); [reflexivity|].
    simpl in Hsync. discriminate. }
  simpl. rewrite He. unfold artifactOnChange. rewrite Hsync, Hcopy.
  rewrite tickComponents_unchanged by exact Hobs. simpl.
  unfold runner.onChange, onChangeSwitch. simpl. rewrite Hchanged. simpl.
  unfold setChanged, runner.emit. simpl.
  rewrite <- !app_assoc. reflexivity.
Qed.

End DevLoopInvariants.

(** ** The tick action *)

Section TickAction.
Import watch runner.
Variable World : Type.
Variable Build : list v1alpha3.Artifact -> World ->
                 result (list build.Artifact) * World.
Variable Deploy : list build.Artifact -> World -> option error * World.

Local Abbreviation onChange := (onChange World Build Deploy).

Lemma imageAdds_only (bRes : list build.Artifact) (ev : event) :
  ev ∈ (fun b => EImageAdd (build.Tag b)) <$> bRes ->
  exists t, ev = EImageAdd t.
Proof.
  intros H. apply list_elem_of_fmap in H as (b & -> & _). eauto.
Qed.

Lemma update_then_deploy (bRes : list build.Artifact) (s : state World) :
  callDeploy World Deploy (builds (updateBuiltImages World bRes s))
             (updateBuiltImages World bRes s) =
  (fst (Deploy (mergeWithPreviousBuilds bRes (builds s)) (world s)),
   {| builds := mergeWithPreviousBuilds bRes (builds s);
      changed := changed s;
      world := snd (Deploy (mergeWithPreviousBuilds bRes (builds s)) (world s));
      trace := trace s ++ ((fun b => EImageAdd (build.Tag b)) <$> bRes)
                       ++ [EDeploy (mergeWithPreviousBuilds bRes (builds s))] |}).
Proof.
  rewrite deploy_after_update.
  destruct (updateBuiltImages_spec World bRes s) as (-> & _).
  reflexivity.
Qed.

(** The events the tick action adds after muting the logger, case by case
    of its switch. *)
Lemma onChange_trace (s : state World) :
  exists ret tr unmuted bs w,
    onChange s =
    (ret,
     {| builds := bs; changed := noChanges; world := w;
        trace := trace s ++ (EMute :: tr)
                         ++ (EPrint "Watching for changes..."
                             :: (if unmuted : bool then [EUnmute] else [])) |})
    /\ (EMute ∉ tr) /\ (EUnmute ∉ tr)
    /\ (unmuted = true <-> ret = None /\ forall m e, EWarn m e ∉ tr).
Proof.
  unfold runner.onChange, onChangeSwitch.
  change (changed (runner.emit World EMute s)) with (changed s).
  destruct (needsReload (changed s)).
  { exists (Some ErrorConfigurationChanged), [ELoggerStop], false.
    do 2 eexists. simpl.
    unfold setChanged, runner.emit. simpl. rewrite <- !app_assoc.
    split; [reflexivity|].
    rewrite !list_elem_of_singleton.
    repeat split; try congruence. intros [? _]; congruence. }
  destruct (0 <? length (dirtyArtifacts (changed s)))%nat.
  - unfold callBuild.
    change (world (runner.emit World EMute s)) with (world s).
    destruct (Build _ _) as [[bRes|err] w].
    + cbv zeta. rewrite update_then_deploy.
      destruct (Deploy _ _) as [[err|] w']; simpl.
      * exists None,
          (EBuild (dirtyArtifacts (changed s))
             :: ((fun b => EImageAdd (build.Tag b)) <$> bRes)
             ++ [EDeploy (mergeWithPreviousBuilds bRes (builds s));
                 EWarn "Skipping Deploy due to error:" (Some err)]), false.
        do 2 eexists.
        unfold setChanged, runner.emit. simpl. rewrite <- ?app_assoc. simpl.
        rewrite <- ?app_assoc. simpl.
        split; [reflexivity|].
        rewrite !not_elem_of_cons, !not_elem_of_app, !not_elem_of_cons.
        repeat split; try congruence; try apply not_elem_of_nil;
          try (intros Hin; apply imageAdds_only in Hin as [t Ht]; congruence).
        intros [_ H]. exfalso.
        apply (H "Skipping Deploy due to error:" (Some err)).
        rewrite elem_of_cons, elem_of_app, !elem_of_cons. auto.
      * exists None,
          (EBuild (dirtyArtifacts (changed s))
             :: ((fun b => EImageAdd (build.Tag b)) <$> bRes)
             ++ [EDeploy (mergeWithPreviousBuilds bRes (builds s))]), true.
        do 2 eexists.
        unfold setChanged, runner.emit. simpl. rewrite <- ?app_assoc. simpl.
        rewrite <- ?app_assoc. simpl.
        split; [reflexivity|].
        rewrite !not_elem_of_cons, !not_elem_of_app, !not_elem_of_cons.
        repeat split; try congruence; try apply not_elem_of_nil;
          try (intros Hin; apply imageAdds_only in Hin as [t Ht]; congruence).
        intros m e.
        rewrite !not_elem_of_cons, !not_elem_of_app, !not_elem_of_cons.
        repeat split; try congruence; try apply not_elem_of_nil;
          try (intros Hin; apply imageAdds_only in Hin as [t Ht]; congruence).
    + exists None,
        [EBuild (dirtyArtifacts (changed s));
         EWarn "Skipping Deploy due to build error:" (Some err)], false.
      do 2 eexists.
      unfold setChanged, runner.emit, setWorld. simpl. rewrite <- !app_assoc.
      split; [reflexivity|].
      rewrite !not_elem_of_cons.
      repeat split; try congruence; try apply not_elem_of_nil.
      intros [_ H]. exfalso.
      apply (H "Skipping Deploy due to build error:" (Some err)).
      rewrite !elem_of_cons. auto.
  - destruct (needsRedeploy (changed s)).
    + unfold callDeploy. simpl.
      destruct (Deploy _ _) as [[err|] w']; simpl.
      * exists None,
          [EDeploy (builds s); EWarn "Skipping Deploy due to error:" (Some err)],
          false.
        do 2 eexists.
        unfold setChanged, runner.emit, setWorld. simpl. rewrite <- !app_assoc.
        split; [reflexivity|].
        rewrite !not_elem_of_cons.
        repeat split; try congruence; try apply not_elem_of_nil.
        intros [_ H]. exfalso.
        apply (H "Skipping Deploy due to error:" (Some err)).
        rewrite !elem_of_cons. auto.
      * exists None, [EDeploy (builds s)], true.
        do 2 eexists.
        unfold setChanged, runner.emit, setWorld. simpl. rewrite <- !app_assoc.
        split; [reflexivity|].
        rewrite !not_elem_of_cons.
        repeat split; try congruence; try apply not_elem_of_nil.
        intros m e. rewrite !not_elem_of_cons.
        repeat split; try congruence; try apply not_elem_of_nil.
    + exists None, [], true.
      do 2 eexists.
      unfold setChanged, runner.emit. simpl. rewrite <- !app_assoc.
      split; [reflexivity|].
      repeat split; try congruence; try apply not_elem_of_nil.
      intros m e. apply not_elem_of_nil.
Qed.

(** X4. Whatever it does, the tick action resets the accumulator, mutes
    the logger first and never mutes it again; it unmutes the logger
    exactly when it returns nil without having logged a warning, and then
    as its last step: after a tick with an error the logs stay muted. *)
Theorem tick_action_resets_and_mutes (s : state World) :
  changed (snd (onChange s)) = noChanges
  /\ exists tr,
       trace (snd (onChange s)) = trace s ++ (EMute :: tr)
       /\ (EMute ∉ tr)
       /\ (EUnmute ∈ tr <->
           fst (onChange s) = None /\ forall m e, EWarn m e ∉ tr)
       /\ (EUnmute ∈ tr -> last tr = Some EUnmute).
Proof.
  destruct (onChange_trace s) as (ret & tr & unmuted & bs & w & Heq & Hm & Hu & Hiff).
  rewrite Heq. simpl. split; [reflexivity|].
  exists (tr ++ (EPrint "Watching for changes..."
                 :: (if unmuted then [EUnmute] else []))).
  split; [reflexivity|].
  assert (Hwarn : forall m e,
             EWarn m e ∈ tr ++ (EPrint "Watching for changes..."
                                :: (if unmuted then [EUnmute] else []))
             <-> EWarn m e ∈ tr).
  { intros m e. rewrite elem_of_app. split; [|auto].
    intros [H|H]; [exact H|]. exfalso.
    destruct unmuted;
      repeat (apply elem_of_cons in H as [H|H]; [discriminate|]);
      apply elem_of_nil in H; exact H. }
  split; [|split].
  - rewrite not_elem_of_app, not_elem_of_cons.
    destruct unmuted; rewrite ?not_elem_of_cons;
      repeat split; try congruence; try apply not_elem_of_nil; assumption.
  - destruct unmuted.
    + split.
      * intros _. destruct Hiff as [Hiff _]. destruct (Hiff eq_refl) as [-> H].
        split; [reflexivity|]. intros m e. rewrite Hwarn. apply H.
      * intros _. rewrite elem_of_app, !elem_of_cons. auto.
    + split.
      * rewrite elem_of_app, elem_of_cons, elem_of_nil.
        intros [H|[H|H]]; [contradiction|congruence|contradiction].
      * intros [Hret H]. exfalso.
        assert (false = true); [|discriminate].
        apply Hiff. split; [exact Hret|].
        intros m e. rewrite <- Hwarn. apply H.
  - destruct unmuted.
    + intros _. rewrite last_app. reflexivity.
    + rewrite elem_of_app, elem_of_cons, elem_of_nil.
      intros [H|[H|H]]; [contradiction|congruence|contradiction].
Qed.
End TickAction.

(** ** What is watched, and the one-shot run *)

Section WatchList.
Import watch runner.

Lemma prefix_iff (p s : string) :
  String.prefix p s = true <-> exists t, s = p +:+ t.
Proof.
  revert s. induction p as [|a p IH]; intros s.
  - split; [intros _; exists s; reflexivity | destruct s; reflexivity].
  - destruct s as [|b s]; simpl.
    + split; [discriminate | intros [t Ht]; discriminate].
    + destruct (ascii_dec a b) as [Heq|Hne].
      * subst b. split.
        -- intros H. apply IH in H as [t Ht]. exists t. rewrite Ht. reflexivity.
        -- intros [t Ht]. injection Ht as Ht. apply IH. eauto.
      * split; [discriminate|]. intros [t Ht]. injection Ht as Hab _.
        congruence.
Qed.

Lemma Contains_iff (s substr : string) :
  Contains s substr = true <-> exists pre post, s = pre +:+ substr +:+ post.
Proof.
  induction s as [|a s IH].
  - destruct substr as [|c substr]; simpl.
    + split; [|reflexivity]. intros _. exists "", "". reflexivity.
    + split; [discriminate|]. intros (pre & post & H).
      destruct pre; discriminate.
  - cbn [Contains].
    destruct (String.prefix substr (String a s)) eqn:Hp.
    + split; [|reflexivity]. intros _. apply prefix_iff in Hp as [t Ht].
      exists "", t. exact Ht.
    + rewrite IH. split.
      * intros (pre & post & ->). exists (String a pre), post. reflexivity.
      * intros (pre & post & H). destruct pre as [|b pre].
        -- exfalso. simpl in H.
           assert (String.prefix substr (String a s) = true)
             by (apply prefix_iff; eauto).
           congruence.
        -- injection H as _ H. eauto.
Qed.

(** X7. An artifact is watched exactly when the watch list is empty or
    one of its expressions occurs in the artifact's image name. *)
Theorem shouldWatch_iff (opts : SkaffoldOptions) (a : v1alpha3.Artifact) :
  shouldWatch opts a = true <->
  Watch opts = []
  \/ exists w pre post,
       w ∈ Watch opts /\ v1alpha3.ImageName a = pre +:+ w +:+ post.
Proof.
  unfold shouldWatch. rewrite orb_true_iff, Nat.eqb_eq, existsb_exists.
  split.
  - intros [H|(w & Hin & Hc)].
    + left. destruct (Watch opts); [reflexivity | discriminate].
    + right. apply Contains_iff in Hc as (pre & post & Hc).
      exists w, pre, post. split; [apply list_elem_of_In; exact Hin | exact Hc].
  - intros [H|(w & pre & post & Hin & Hc)].
    + left. rewrite H. reflexivity.
    + right. exists w. split; [apply list_elem_of_In; exact Hin|].
      apply Contains_iff. eauto.
Qed.

Variable World : Type.
Variable registerStat : component -> World -> option error * World.

Lemma registerArtifacts_components (opts : SkaffoldOptions)
      (artifacts : list v1alpha3.Artifact) (cs cs' : list component)
      (s s' : state World) :
  registerArtifacts World registerStat opts artifacts cs s = (Ok cs', s') ->
  cs' = cs ++ (CArtifact <$> filter (fun a => shouldWatch opts a = true) artifacts)
  /\ builds s' = builds s /\ changed s' = changed s /\ trace s' = trace s.
Proof.
  revert cs s. induction artifacts as [|a rest IH]; intros cs s H; simpl in H.
  - injection H as -> ->. rewrite app_nil_r. auto.
  - rewrite filter_cons. case_decide as Hw.
    + rewrite Hw in H. simpl in H.
      destruct (registerStat (CArtifact a) (world s)) as [[err|] w];
        [discriminate|].
      apply IH in H as (-> & H1 & H2 & H3).
      rewrite fmap_cons, <- app_assoc. auto.
    + apply not_true_is_false in Hw. rewrite Hw in H. simpl in H.
      apply IH in H as (-> & H1 & H2 & H3). auto.
Qed.

(** X8. When the registrations of [Dev] succeed, the components are the
    watched artifacts, in their order, then the deployer and the
    configuration; registering touches neither the table of built images,
    nor the accumulator, nor the trace. *)
Theorem registered_components (opts : SkaffoldOptions)
        (artifacts : list v1alpha3.Artifact) (cs : list component)
        (s s' : state World) :
  registerAll World registerStat opts artifacts s = (Ok cs, s') ->
  cs = (CArtifact <$> filter (fun a => shouldWatch opts a = true) artifacts)
         ++ [CDeployer; CConfiguration]
  /\ builds s' = builds s /\ changed s' = changed s /\ trace s' = trace s.
Proof.
  unfold registerAll. intros H.
  destruct (registerArtifacts World registerStat opts artifacts [] s)
    as [[cs1|err] s1] eqn:H1; [|discriminate].
  apply registerArtifacts_components in H1 as (-> & B1 & C1 & T1).
  unfold register in H.
  destruct (registerStat CDeployer (world s1)) as [[err|] w2]; [discriminate|].
  simpl in H.
  destruct (registerStat CConfiguration w2) as [[err|] w3]; [discriminate|].
  injection H as <- <-. simpl. rewrite <- app_assoc. auto.
Qed.

Variable Build : list v1alpha3.Artifact -> World ->
                 result (list build.Artifact) * World.
Variable Deploy : list build.Artifact -> World -> option error * World.
Variable loggerStart : World -> option error * World.

Lemma TailLogs_spec (tail : bool) (bRes : list build.Artifact)
      (s : state World) :
  let r := SkaffoldRunner.TailLogs World loggerStart tail bRes s in
  builds (snd r) = builds s
  /\ trace (snd r)
     = trace s ++ (if tail
                   then ((fun b => EImageAdd (build.Tag b)) <$> bRes)
                          ++ [ELoggerStart]
                   else [])
  /\ fst r = if tail
             then (fun err => Wrap err "starting logger")
                    <$> fst (loggerStart (world s))
             else None.
Proof.
  unfold SkaffoldRunner.TailLogs.
  destruct tail; simpl; [|rewrite app_nil_r; auto].
  pose proof (imageAdds_trace World bRes s) as H. cbv zeta in H.
  destruct H as (H1 & H2 & H3 & H4).
  set (s1 := foldl _ s bRes) in *. clearbody s1.
  rewrite H3.
  destruct (loggerStart (world s)) as [[err|] w]; simpl;
    rewrite H1, H4, <- app_assoc; auto.
Qed.

(** X9. [SkaffoldRunner.Run] calls the builder once, with the artifacts
    it was given; a build error is returned as "build step" and nothing is
    deployed; else the deployer gets exactly the results of that build,
    its error is returned as "deploy step"; the logger is started only
    when tailing is asked for; and the runner's table is left alone. *)
Theorem run_once (tail : bool) (artifacts : list v1alpha3.Artifact)
        (s : state World) :
  let ret := fst (SkaffoldRunner.Run World Build Deploy loggerStart tail artifacts s) in
  let s' := snd (SkaffoldRunner.Run World Build Deploy loggerStart tail artifacts s) in
  builds s' = builds s
  /\ buildInputs (trace s') = buildInputs (trace s) ++ [artifacts]
  /\ match Build artifacts (world s) with
     | (Err err, _) =>
         ret = Some (Wrap err "build step")
         /\ trace s' = trace s ++ [EBuild artifacts]
     | (Ok bRes, w) =>
         deployInputs (trace s') = deployInputs (trace s) ++ [bRes]
         /\ match Deploy bRes w with
            | (Some err, _) =>
                ret = Some (Wrap err "deploy step")
                /\ trace s' = trace s ++ [EBuild artifacts; EDeploy bRes]
            | (None, w') =>
                ret = (if tail
                       then (fun err => Wrap err "starting logger")
                              <$> fst (loggerStart w')
                       else None)
                /\ trace s'
                   = trace s ++ [EBuild artifacts; EDeploy bRes]
                       ++ (if tail
                           then ((fun b => EImageAdd (build.Tag b)) <$> bRes)
                                  ++ [ELoggerStart]
                           else [])
            end
     end.
Proof.
  unfold SkaffoldRunner.Run, callBuild, callDeploy.
  destruct (Build artifacts (world s)) as [[bRes|err] w]; simpl.
  2: { rewrite buildInputs_app. simpl. auto. }
  destruct (Deploy bRes w) as [[err|] w']; simpl.
  { rewrite <- !app_assoc. simpl.
    rewrite buildInputs_app, deployInputs_app. simpl. auto. }
  match goal with
  | |- context [SkaffoldRunner.TailLogs _ _ _ _ ?s0] =>
      destruct (TailLogs_spec tail bRes s0) as (H1 & H2 & H3)
  end.
  simpl in *. rewrite H1, H2, H3, <- !app_assoc. simpl.
  rewrite !buildInputs_app, !deployInputs_app. simpl.
  destruct tail; simpl;
    rewrite ?buildInputs_app, ?deployInputs_app,
            ?buildInputs_imageAdds, ?deployInputs_imageAdds; simpl; auto.
Qed.
End WatchList.

(** ** The first run of the dev loop *)

Section DevFirstRun.
Import watch runner.
Variable Match : string -> string -> result bool.
Variable World : Type.
Variable Build : list v1alpha3.Artifact -> World ->
                 result (list build.Artifact) * World.
Variable Deploy : list build.Artifact -> World -> option error * World.
Variable CopyFilesForImage DeleteFilesForImage :
  string -> list string -> World -> option error * World.
Variable registerStat : component -> World -> option error * World.
Variable loggerStart : World -> option error * World.

Local Abbreviation Run :=
  (Run Match World Build Deploy CopyFilesForImage DeleteFilesForImage).
Local Abbreviation Dev :=
  (Dev Match World Build Deploy CopyFilesForImage DeleteFilesForImage
       registerStat loggerStart).
Local Abbreviation registerAll := (registerAll World registerStat).

(** [t'] extends [t]. *)
Local Abbreviation extends t' t := (exists tr : list event, t' = t ++ tr).

Lemma extends_refl (t : list event) : extends t t.
Proof. exists []. rewrite app_nil_r. reflexivity. Qed.

Lemma extends_trans (t1 t2 t3 : list event) :
  extends t2 t1 -> extends t3 t2 -> extends t3 t1.
Proof.
  intros [a ->] [b ->]. exists (a ++ b). rewrite app_assoc. reflexivity.
Qed.

Lemma extends_snoc (t : list event) (ev : event) : extends (t ++ [ev]) t.
Proof. eauto. Qed.

Lemma componentOnChange_extends (c : component) (e : WatchEvents)
      (s : state World) :
  extends (trace (snd (componentOnChange Match World CopyFilesForImage
                                         DeleteFilesForImage c e s)))
          (trace s).
Proof.
  destruct c as [a| |]; simpl; try apply extends_refl.
  unfold artifactOnChange.
  destruct (shouldSync Match (v1alpha3.Sync a) e) as [[|]|err]; simpl;
    try apply extends_refl.
  destruct (CopyFilesForImage _ _ _) as [[err|] w]; simpl;
    [apply extends_snoc|].
  destruct (DeleteFilesForImage _ _ _) as [[err|] w']; simpl.
  - eexists. rewrite <- app_assoc. reflexivity.
  - eexists. rewrite <- !app_assoc. reflexivity.
Qed.

Lemma tickComponents_extends (cs : list component)
      (obs : list (result WatchEvents)) (n : nat) (s : state World) :
  extends (trace (snd (tickComponents Match World CopyFilesForImage
                                      DeleteFilesForImage cs obs n s)))
          (trace s).
Proof.
  revert obs n s. induction cs as [|c cs IH]; intros obs n s; simpl;
    [apply extends_refl|].
  destruct obs as [|[e|err] obs]; simpl; try apply extends_refl.
  destruct (HasChanged e); [|apply IH].
  pose proof (componentOnChange_extends c e s) as Hc.
  destruct (componentOnChange Match World CopyFilesForImage
                              DeleteFilesForImage c e s) as [r s1].
  simpl in Hc.
  eapply extends_trans; [|apply IH].
  destruct r; simpl; [|exact Hc].
  eapply extends_trans; [exact Hc | apply extends_snoc].
Qed.

Lemma onChange_extends (s : state World) :
  extends (trace (snd (onChange World Build Deploy s))) (trace s).
Proof.
  destruct (onChange_trace World Build Deploy s)
    as (ret & tr & unmuted & bs & w & -> & _).
  simpl. eauto.
Qed.

Lemma Run_extends (cs : list component)
      (ticks : list (list (result WatchEvents))) (s : state World) :
  extends (trace (snd (Run cs ticks s))) (trace s).
Proof.
  revert s. induction ticks as [|obs ticks IH]; intros s; simpl;
    [apply extends_refl|].
  pose proof (tickComponents_extends cs obs 0 s) as Ht.
  destruct (tickComponents Match World CopyFilesForImage DeleteFilesForImage
                           cs obs 0 s) as [[r count] s1].
  simpl in Ht. destruct r as [err|]; simpl; [exact Ht|].
  destruct (0 <? count)%nat.
  - pose proof (onChange_extends s1) as Ho.
    destruct (onChange World Build Deploy s1) as [[err|] s2]; simpl in *.
    + eapply extends_trans; eassumption.
    + eapply extends_trans; [|apply IH].
      eapply extends_trans; eassumption.
  - eapply extends_trans; [exact Ht | apply IH].
Qed.

Lemma registerArtifacts_trace (opts : SkaffoldOptions)
      (artifacts : list v1alpha3.Artifact) (cs : list component)
      (s : state World) :
  let s' := snd (registerArtifacts World registerStat opts artifacts cs s) in
  trace s' = trace s /\ builds s' = builds s.
Proof.
  revert cs s. induction artifacts as [|a rest IH]; intros cs s; simpl;
    [auto|].
  destruct (shouldWatch opts a); simpl; [|apply IH].
  destruct (registerStat (CArtifact a) (world s)) as [[err|] w]; simpl; [auto|].
  destruct (IH (cs ++ [CArtifact a]) (setWorld World w s)) as [H1 H2].
  simpl in *. auto.
Qed.

Lemma registerAll_trace (opts : SkaffoldOptions)
      (artifacts : list v1alpha3.Artifact) (s : state World) :
  let s' := snd (registerAll opts artifacts s) in
  trace s' = trace s /\ builds s' = builds s.
Proof.
  unfold runner.registerAll.
  pose proof (registerArtifacts_trace opts artifacts [] s) as Ha.
  destruct (registerArtifacts World registerStat opts artifacts [] s)
    as [[cs|err] s1]; simpl in *; [|exact Ha].
  unfold register.
  destruct (registerStat CDeployer (world s1)) as [[err|] w2]; simpl;
    [exact Ha|].
  destruct (registerStat CConfiguration w2) as [[err|] w3]; simpl; exact Ha.
Qed.

(** X10. A registration that fails makes [Dev] return its error with
    nothing built or deployed; when the registrations succeed, the first
    thing [Dev] does is to build every artifact it was given, watched or
    not. *)
Theorem dev_builds_every_artifact_first (opts : SkaffoldOptions)
        (artifacts : list v1alpha3.Artifact)
        (ticks : list (list (result WatchEvents))) (s : state World) :
  match fst (registerAll opts artifacts (setChanged World noChanges s)) with
  | Err err =>
      fst (Dev opts artifacts ticks s) = Some err
      /\ trace (snd (Dev opts artifacts ticks s)) = trace s
      /\ builds (snd (Dev opts artifacts ticks s)) = builds s
  | Ok cs =>
      exists tr,
        trace (snd (Dev opts artifacts ticks s))
        = trace s ++ EBuild artifacts :: tr
  end.
Proof.
  unfold runner.Dev.
  pose proof (registerAll_trace opts artifacts (setChanged World noChanges s))
    as Hr.
  cbv zeta in Hr.
  destruct (registerAll opts artifacts (setChanged World noChanges s))
    as [[cs|err] s1]; cbn [fst snd] in *; [|tauto].
  destruct Hr as [Ht Hb]. change (trace (setChanged World noChanges s))
    with (trace s) in Ht.
  unfold callBuild.
  destruct (Build artifacts (world s1)) as [[bRes|err] w]; cbv beta iota zeta.
  2: { simpl. rewrite Ht. eauto. }
  rewrite (update_then_deploy World Deploy).
  destruct (Deploy _ _) as [[err|] w']; cbn [fst snd].
  { simpl. rewrite Ht, <- app_assoc. simpl. eauto. }
  destruct (loggerStart _) as [[err|] w'']; cbv beta iota zeta.
  { simpl. rewrite Ht, <- !app_assoc. simpl. eauto. }
  match goal with
  | |- context [Run cs ticks ?s0] =>
      destruct (Run_extends cs ticks s0) as [tr ->]
  end.
  simpl. rewrite Ht, <- !app_assoc. simpl. eauto.
Qed.
End DevFirstRun.

(** ** Manifest lists *)

Section SplitProperties.
Import kubectl.


Lemma append_cons (a : ascii) (s t : string) :
  String a s +:+ t = String a (s +:+ t).
Proof. reflexivity. Qed.

Lemma append_assoc (s t u : string) : (s +:+ t) +:+ u = s +:+ t +:+ u.
Proof.
  induction s as [|a s IH]; [reflexivity|].
  rewrite !append_cons. f_equal. exact IH.
Qed.

Lemma append_length (s t : string) :
  String.length (s +:+ t) = (String.length s + String.length t)%nat.
Proof.
  induction s as [|a s IH]; [reflexivity|].
  rewrite append_cons. simpl. f_equal. exact IH.
Qed.

Lemma skip_app (p t : string) : skip (String.length p) (p +:+ t) = t.
Proof. induction p as [|a p IH]; [destruct t; reflexivity | exact IH]. Qed.

Lemma length_skip (n : nat) (s : string) :
  String.length (skip n s) = (String.length s - n)%nat.
Proof.
  revert s. induction n as [|n IH]; intros [|a s]; simpl; auto.
Qed.

Lemma cut_unfold (sep s : string) :
  cut sep s =
  if String.prefix sep s then Some ("", skip (String.length sep) s)
  else match s with
       | "" => None
       | String a s' =>
           match cut sep s' with
           | Some (before, after) => Some (String a before, after)
           | None => None
           end
       end.
Proof. destruct s; reflexivity. Qed.

(** What [cut] returns is around an instance of the separator. *)
Lemma cut_Some (sep s before after : string) :
  cut sep s = Some (before, after) -> s = before +:+ sep +:+ after.
Proof.
  revert before after.
  induction s as [|a s IH]; intros before after; rewrite cut_unfold.
  - destruct sep as [|c sep]; simpl; [|discriminate].
    intros H. injection H as <- <-. reflexivity.
  - destruct (String.prefix sep (String a s)) eqn:Hp.
    + intros H. injection H as <- <-. apply prefix_iff in Hp as [t Ht].
      rewrite Ht, skip_app. reflexivity.
    + destruct (cut sep s) as [[b r]|] eqn:Hc; [|discriminate].
      intros H. injection H as <- <-.
      change (String a s = String a (b +:+ sep +:+ r)).
      f_equal. apply IH. reflexivity.
Qed.

Lemma prefix_app (p s t : string) :
  String.prefix p s = true -> String.prefix p (s +:+ t) = true.
Proof.
  rewrite !prefix_iff. intros [u ->]. exists (u +:+ t). apply append_assoc.
Qed.

Lemma cut_None_Contains (sep s : string) :
  cut sep s = None <-> runner.Contains s sep = false.
Proof.
  induction s as [|a s IH]; rewrite cut_unfold; cbn [runner.Contains].
  - destruct (String.prefix sep ""); split; congruence.
  - destruct (String.prefix sep (String a s)); [split; congruence|].
    rewrite <- IH. destruct (cut sep s) as [[b r]|]; split; congruence.
Qed.

(** The text before the first instance holds no instance. *)
Lemma cut_before (sep s before after : string) :
  sep <> "" -> cut sep s = Some (before, after) -> cut sep before = None.
Proof.
  intros Hsep. revert before after.
  induction s as [|a s IH]; intros before after; rewrite cut_unfold.
  - destruct (String.prefix sep "") eqn:Hp; [|discriminate].
    intros H. injection H as <- <-. destruct sep; [congruence | reflexivity].
  - destruct (String.prefix sep (String a s)) eqn:Hp.
    + intros H. injection H as <- <-. destruct sep; [congruence | reflexivity].
    + destruct (cut sep s) as [[b r]|] eqn:Hc; [|discriminate].
      intros H. injection H as <- <-. rewrite cut_unfold.
      destruct (String.prefix sep (String a b)) eqn:Hp'.
      * exfalso. apply cut_Some in Hc. subst s.
        apply (prefix_app _ _ (sep +:+ r)) in Hp'.
        rewrite append_cons in Hp'. congruence.
      * rewrite (IH b r eq_refl). reflexivity.
Qed.

Lemma cut_length (sep s before after : string) :
  sep <> "" -> cut sep s = Some (before, after) ->
  (String.length after < String.length s)%nat.
Proof.
  intros Hsep H. apply cut_Some in H. subst s.
  rewrite !append_length. destruct sep; [congruence|]. simpl. lia.
Qed.

(** The bound of [Split] is enough: a larger one cuts the same parts. *)
Lemma genSplit_enough (sep : string) (n m : nat) (s : string) :
  sep <> "" -> (String.length s <= n)%nat -> (String.length s <= m)%nat ->
  genSplit n s sep = genSplit m s sep.
Proof.
  intros Hsep. revert m s. induction n as [|n IH]; intros m s Hn Hm.
  - destruct s; [|simpl in Hn; lia].
    destruct m; simpl; [reflexivity|].
    destruct sep; [congruence|reflexivity].
  - simpl. destruct (cut sep s) as [[b r]|] eqn:Hc.
    + pose proof (cut_length _ _ _ _ Hsep Hc) as Hl.
      destruct m as [|m]; [lia|]. simpl. rewrite Hc. f_equal.
      apply IH; lia.
    + destruct m; simpl; [reflexivity | rewrite Hc; reflexivity].
Qed.

Lemma concat_genSplit (sep : string) (n : nat) (s : string) :
  String.concat sep (genSplit n s sep) = s.
Proof.
  revert s. induction n as [|n IH]; intros s; [reflexivity|].
  simpl. destruct (cut sep s) as [[b r]|] eqn:Hc; [|reflexivity].
  apply cut_Some in Hc. specialize (IH r).
  destruct (genSplit n r sep) as [|p ps] eqn:Hg.
  - destruct n; simpl in Hg; [discriminate|].
    destruct (cut sep r) as [[? ?]|]; discriminate.
  - change (String.concat sep (b :: p :: ps))
      with (b +:+ sep +:+ String.concat sep (p :: ps)).
    rewrite IH. symmetry. exact Hc.
Qed.

Lemma genSplit_parts (sep : string) (n : nat) (s : string) :
  sep <> "" -> (String.length s <= n)%nat ->
  Forall (fun part => runner.Contains part sep = false) (genSplit n s sep).
Proof.
  intros Hsep. revert s. induction n as [|n IH]; intros s Hn.
  - destruct s; [|simpl in Hn; lia]. constructor; [|constructor].
    apply cut_None_Contains. rewrite cut_unfold.
    destruct sep; [congruence|reflexivity].
  - simpl. destruct (cut sep s) as [[b r]|] eqn:Hc.
    + constructor.
      * apply cut_None_Contains. apply (cut_before _ _ _ _ Hsep Hc).
      * apply IH. pose proof (cut_length _ _ _ _ Hsep Hc). lia.
    + constructor; [|constructor]. apply cut_None_Contains. exact Hc.
Qed.

(** X11. [newManifestList] loses nothing of what it reads: it returns at
    least one part, joining the parts with the separator gives the input
    back, no part holds the separator, and an input without the separator
    is one part. *)
Theorem newManifestList_lossless (buf : string) :
  exists part parts,
    newManifestList (Ok buf) = Ok (part :: parts)
    /\ String.concat separator (part :: parts) = buf
    /\ Forall (fun p => runner.Contains p separator = false) (part :: parts)
    /\ (runner.Contains buf separator = false -> part :: parts = [buf]).
Proof.
  unfold newManifestList, Split.
  assert (Hsep : separator <> "") by discriminate.
  pose proof (concat_genSplit separator (String.length buf) buf) as Hc.
  pose proof (genSplit_parts separator (String.length buf) buf Hsep
                             (Nat.le_refl _)) as Hp.
  assert (Hone : runner.Contains buf separator = false ->
                 genSplit (String.length buf) buf separator = [buf]).
  { intros H. apply cut_None_Contains in H.
    destruct (String.length buf); simpl; [reflexivity|].
    rewrite H. reflexivity. }
  destruct (genSplit (String.length buf) buf separator) as [|part parts] eqn:Hg.
  - exfalso. destruct (String.length buf); simpl in Hg; [discriminate|].
    destruct (cut separator buf) as [[? ?]|]; discriminate.
  - exists part, parts. auto.
Qed.

Lemma prefix_nil (s : string) : String.prefix "" s = true.
Proof. destruct s; reflexivity. Qed.

Lemma prefix_cons (a b : ascii) (p s : string) :
  String.prefix (String a p) (String b s)
  = bool_decide (a = b) && String.prefix p s.
Proof.
  simpl. destruct (ascii_dec a b) as [H|H].
  - rewrite bool_decide_eq_true_2 by exact H. reflexivity.
  - rewrite bool_decide_eq_false_2 by exact H. reflexivity.
Qed.

Lemma hasChar_cons (c d : ascii) (u : string) :
  docker.hasChar c (String d u) = false ->
  d <> c /\ docker.hasChar c u = false.
Proof.
  unfold docker.hasChar. simpl.
  destruct (Ascii.eqb d c) eqn:E; [discriminate|].
  apply Ascii.eqb_neq in E. intros H. split; [exact E|].
  destruct (docker.splitFirst c u) as [[? ?]|]; [discriminate | reflexivity].
Qed.

(** A prefix that reaches into an instance of the separator ends before
    it, when the first byte of the separator is not in the prefix. *)
Lemma prefix_tail (c0 : ascii) (u x rest : string) :
  docker.hasChar c0 u = false ->
  String.prefix u (x +:+ String c0 rest) = true -> String.prefix u x = true.
Proof.
  revert x. induction u as [|d u IH]; intros x Hu Hp; [apply prefix_nil|].
  apply hasChar_cons in Hu as [Hd Hu].
  destruct x as [|e x].
  - change ("" +:+ String c0 rest) with (String c0 rest) in Hp.
    rewrite prefix_cons in Hp. apply andb_true_iff in Hp as [Hp _].
    apply bool_decide_eq_true in Hp. contradiction.
  - rewrite append_cons, prefix_cons in Hp. rewrite prefix_cons.
    apply andb_true_iff in Hp as [Hp1 Hp2]. rewrite Hp1. simpl.
    apply IH; assumption.
Qed.

(** The first instance of a separator whose first byte does not come
    again in it is where the text joins it. *)
Lemma cut_app_sep (c0 : ascii) (t a r : string) :
  docker.hasChar c0 t = false ->
  cut (String c0 t) a = None ->
  cut (String c0 t) (a +:+ String c0 t +:+ r) = Some (a, r).
Proof.
  intros Ht. induction a as [|e a IH]; intros Ha.
  - change ("" +:+ String c0 t +:+ r) with (String c0 t +:+ r).
    rewrite cut_unfold.
    assert (Hp : String.prefix (String c0 t) (String c0 t +:+ r) = true)
      by (apply prefix_iff; eauto).
    rewrite Hp, skip_app. reflexivity.
  - rewrite cut_unfold in Ha.
    destruct (String.prefix (String c0 t) (String e a)) eqn:Hp; [discriminate|].
    destruct (cut (String c0 t) a) as [[? ?]|] eqn:Hc; [discriminate|].
    rewrite append_cons, cut_unfold.
    destruct (String.prefix (String c0 t) (String e (a +:+ String c0 t +:+ r)))
      eqn:Hp'.
    + exfalso. rewrite prefix_cons in Hp, Hp'.
      apply andb_true_iff in Hp' as [H1 H2].
      rewrite H1 in Hp. simpl in Hp.
      apply prefix_tail in H2; [congruence | exact Ht].
    + rewrite IH by reflexivity. reflexivity.
Qed.

Lemma concat_cons (sep p q : string) (qs : list string) :
  String.concat sep (p :: q :: qs) = p +:+ sep +:+ String.concat sep (q :: qs).
Proof. reflexivity. Qed.

(** Splitting undoes joining, for parts that hold no instance of the
    separator. *)
Lemma genSplit_concat (c0 : ascii) (t : string) (p : string)
      (ps : list string) (n : nat) :
  docker.hasChar c0 t = false ->
  Forall (fun part => cut (String c0 t) part = None) (p :: ps) ->
  (String.length (String.concat (String c0 t) (p :: ps)) <= n)%nat ->
  genSplit n (String.concat (String c0 t) (p :: ps)) (String c0 t) = p :: ps.
Proof.
  intros Ht. revert p n. induction ps as [|q qs IH]; intros p n Hps Hn.
  - apply Forall_cons in Hps as [Hp _]. simpl.
    destruct n; simpl; [reflexivity | rewrite Hp; reflexivity].
  - apply Forall_cons in Hps as [Hp Hps].
    rewrite concat_cons in *.
    specialize (IH q).
    set (rest := String.concat (String c0 t) (q :: qs)) in *. clearbody rest.
    rewrite !append_length in Hn. cbn [String.length] in Hn.
    destruct n as [|n]; [lia|].
    simpl. rewrite (cut_app_sep c0 t p _ Ht Hp). f_equal.
    apply IH; [exact Hps | lia].
Qed.

Section StringOfManifests.
Variable TrimSpace : string -> string.

Local Abbreviation manifestList_String := (manifestList_String TrimSpace).
Local Abbreviation newline := (String (ascii_of_nat 10) "").

Lemma append_nil_r (s : string) : s +:+ "" = s.
Proof.
  induction s as [|a s IH]; [reflexivity|]. rewrite append_cons, IH. reflexivity.
Qed.

Lemma appendManifests_S (i : nat) (l : list string) (str : string) :
  appendManifests TrimSpace (S i) l str
  = str +:+ String.concat ""
              ((fun m => separator +:+ newline +:+ TrimSpace m) <$> l).
Proof.
  revert i str. induction l as [|m l IH]; intros i str.
  - simpl. rewrite append_nil_r. reflexivity.
  - cbn [appendManifests Nat.eqb negb]. rewrite IH.
    rewrite fmap_cons.
    destruct l as [|m' l].
    + simpl. rewrite append_nil_r, !append_assoc. reflexivity.
    + rewrite fmap_cons, concat_cons. rewrite !append_assoc. reflexivity.
Qed.

Lemma concat_separator (sep : string) (p : string) (ps : list string) :
  String.concat sep (p :: ps)
  = p +:+ String.concat "" ((fun m => sep +:+ m) <$> ps).
Proof.
  revert p. induction ps as [|q qs IH]; intros p.
  - simpl. rewrite append_nil_r. reflexivity.
  - rewrite concat_cons, IH, fmap_cons. f_equal.
    destruct qs as [|q' qs].
    + simpl. rewrite append_nil_r. reflexivity.
    + rewrite fmap_cons, concat_cons. rewrite !append_assoc. reflexivity.
Qed.

Lemma manifestList_String_concat (l : list string) :
  manifestList_String l
  = String.concat (separator +:+ newline) (TrimSpace <$> l).
Proof.
  destruct l as [|m k]; [reflexivity|].
  unfold kubectl.manifestList_String. cbn [appendManifests Nat.eqb negb].
  rewrite appendManifests_S, fmap_cons, concat_separator.
  change ("" +:+ TrimSpace m) with (TrimSpace m). f_equal. f_equal.
  rewrite <- list_fmap_compose. apply list_fmap_ext.
  intros i x _. simpl. symmetry. apply append_assoc.
Qed.

(** X12. [manifestList.String] is the trimmed manifests joined by the
    separator and a line feed, with no separator before the first or after
    the last; the text of two lists that are not empty, one after the
    other, is the two texts joined the same way. *)
Theorem manifestList_String_joins (l l' : list string) :
  manifestList_String l
  = String.concat (separator +:+ newline) (TrimSpace <$> l)
  /\ (l <> [] -> l' <> [] ->
      manifestList_String (l ++ l')
      = manifestList_String l +:+ (separator +:+ newline)
          +:+ manifestList_String l').
Proof.
  split; [apply manifestList_String_concat|].
  intros Hl Hl'. rewrite !manifestList_String_concat, fmap_app.
  destruct l as [|m k]; [congruence|]. destruct l' as [|m' k']; [congruence|].
  clear. rewrite !fmap_cons. generalize (TrimSpace m) as p.
  generalize (TrimSpace <$> k) as ps. generalize (TrimSpace m') as q.
  generalize (TrimSpace <$> k') as qs. generalize (separator +:+ newline) as sep.
  intros sep qs q ps. induction ps as [|p' ps IH]; intros p.
  - simpl app. rewrite concat_cons. reflexivity.
  - change ((p :: p' :: ps) ++ q :: qs) with (p :: (p' :: ps) ++ q :: qs).
    change ((p' :: ps) ++ q :: qs) with (p' :: (ps ++ q :: qs)).
    rewrite !concat_cons.
    change (p' :: (ps ++ q :: qs)) with ((p' :: ps) ++ q :: qs).
    rewrite IH, !append_assoc. reflexivity.
Qed.

Lemma cut_newline (x : string) :
  cut separator x = None -> String.prefix "---" x = false ->
  cut separator (newline +:+ x) = None.
Proof.
  intros Hfree Hstart.
  change (newline +:+ x) with (String (ascii_of_nat 10) x).
  rewrite cut_unfold. unfold separator at 1.
  rewrite prefix_cons, Hstart, andb_false_r, Hfree. reflexivity.
Qed.

(** X13. Reading back the text of a manifest list gives the trimmed
    manifests, the second and later ones after a line feed, provided no
    trimmed manifest holds the separator and none after the first starts
    with three dashes. *)
Theorem manifests_survive_the_reader (m : string) (l : list string) :
  Forall (fun m => runner.Contains (TrimSpace m) separator = false) (m :: l) ->
  Forall (fun m => String.prefix "---" (TrimSpace m) = false) l ->
  newManifestList (Ok (manifestList_String (m :: l)))
  = Ok (TrimSpace m :: ((fun m => newline +:+ TrimSpace m) <$> l)).
Proof.
  intros Hfree Hstart.
  rewrite manifestList_String_concat.
  unfold newManifestList, Split. f_equal.
  assert (Hparts : String.concat (separator +:+ newline) (TrimSpace <$> m :: l)
                   = String.concat separator
                       (TrimSpace m :: ((fun m => newline +:+ TrimSpace m) <$> l))).
  { rewrite fmap_cons, !concat_separator. f_equal.
    rewrite <- !list_fmap_compose.
    f_equal; try (apply list_fmap_ext; intros i x _; simpl; apply append_assoc). }
  rewrite Hparts.
  apply (genSplit_concat (ascii_of_nat 10) "---");
    [reflexivity| |apply Nat.le_refl].
  apply Forall_cons in Hfree as [Hm Hfree].
  constructor; [apply cut_None_Contains; exact Hm|].
  apply Forall_fmap. apply Forall_forall. intros x Hx.
  rewrite Forall_forall in Hfree, Hstart.
  apply cut_newline; [apply cut_None_Contains; apply Hfree | apply Hstart];
    exact Hx.
Qed.
End StringOfManifests.

Section RemoteManifests.
Variable World : Type.
Variable RunCmd : list string -> option string -> World ->
                  (string * option error) * World.

Local Abbreviation readRemoteManifest := (readRemoteManifest World RunCmd).
Local Abbreviation manifestOf := (manifestOf World).


Lemma Split_colon (p : string) (ps : list string) :
  Forall (fun part => runner.Contains part ":" = false) (p :: ps) ->
  Split (String.concat ":" (p :: ps)) ":" = p :: ps.
Proof.
  intros H. unfold Split.
  apply (genSplit_concat ":" ""); [reflexivity| |apply Nat.le_refl].
  eapply Forall_impl; [exact H|]. intros x Hx. apply cut_None_Contains. exact Hx.
Qed.

(** X14. A remote manifest named [namespace:name] is fetched with
    [kubectl --context c --namespace namespace get name -o yaml], one
    named without a colon with [kubectl --context c get name -o yaml], and
    whatever follows a second colon is ignored. *)
Theorem remote_manifest_namespace (ns name kubeContext : string) (w : World) :
  runner.Contains ns ":" = false -> runner.Contains name ":" = false ->
  readRemoteManifest (ns +:+ ":" +:+ name) kubeContext w
  = manifestOf (RunCmd ["kubectl"; "--context"; kubeContext;
                        "--namespace"; ns; "get"; name; "-o"; "yaml"] None w)
  /\ readRemoteManifest name kubeContext w
     = manifestOf (RunCmd ["kubectl"; "--context"; kubeContext;
                           "get"; name; "-o"; "yaml"] None w)
  /\ forall rest : string,
       readRemoteManifest (ns +:+ ":" +:+ name +:+ ":" +:+ rest) kubeContext w
       = readRemoteManifest (ns +:+ ":" +:+ name) kubeContext w.
Proof.
  intros Hns Hname.
  assert (Hall : forall rest,
             Forall (fun part => runner.Contains part ":" = false) rest ->
             readRemoteManifest (String.concat ":" (ns :: name :: rest))
                                kubeContext w
             = manifestOf (RunCmd ["kubectl"; "--context"; kubeContext;
                                   "--namespace"; ns; "get"; name; "-o"; "yaml"]
                                  None w)).
  { intros rest Hrest. unfold kubectl.readRemoteManifest.
    rewrite Split_colon by (repeat constructor; assumption).
    simpl. unfold kubectl. simpl.
    destruct (RunCmd _ None w) as [[manifest [err|]] w']; reflexivity. }
  split; [exact (Hall [] (Forall_nil_2 _))|]. split.
  - unfold kubectl.readRemoteManifest.
    pose proof (Split_colon name []) as Hs.
    change (String.concat ":" [name]) with name in Hs.
    rewrite Hs by (repeat constructor; assumption).
    simpl. unfold kubectl. simpl.
    destruct (RunCmd _ None w) as [[manifest [err|]] w']; reflexivity.
  - intros rest.
    pose proof (concat_genSplit ":" (String.length rest) rest) as Hc.
    pose proof (genSplit_parts ":" (String.length rest) rest
                               ltac:(discriminate) (Nat.le_refl _)) as Hp.
    destruct (genSplit (String.length rest) rest ":") as [|p ps].
    + simpl in Hc. subst rest.
      change (ns +:+ ":" +:+ name +:+ ":" +:+ "")
        with (String.concat ":" [ns; name; ""]).
      rewrite (Hall [""]) by (repeat constructor).
      symmetry. exact (Hall [] (Forall_nil_2 _)).
    + rewrite <- Hc, <- !concat_cons, (Hall (p :: ps) Hp).
      symmetry. exact (Hall [] (Forall_nil_2 _)).
Qed.
End RemoteManifests.

Section ApplyManifests.
Import deploy.
Variable TrimSpace : string -> string.
Variable World : Type.
Variable RunCmd : list string -> option string -> World ->
                  (string * option error) * World.
Variable ParseReference : string -> result docker.ImageReference.
Variable Unmarshal : string -> result (list (yaml * yaml)).
Variable Marshal : list (yaml * yaml) -> result string.
Variable Artifact : Type.
Variable parseReleaseInfo : string -> list Artifact.

Local Abbreviation applyManifests :=
  (applyManifests TrimSpace World RunCmd ParseReference Unmarshal Marshal
                  Artifact parseReleaseInfo).
Local Abbreviation replaceImages :=
  (replaceImages ParseReference string Unmarshal Marshal).

(** X15. [applyManifests] runs [kubectl apply -f -] once, on the
    rewritten documents trimmed and joined by the separator, when every
    part of the input has its rewritten document; when replacing the
    images fails or panics, no command is run. *)
Theorem apply_runs_kubectl_on_rewritten (buf kubeContext : string)
        (builds : list build.Artifact) (w : World) :
  (forall out,
      Forall2 (manifests.rewritten
                 ParseReference Unmarshal Marshal
                 (manifests.tags {| replacements := newReplacements builds;
                                    log := [] |}))
              (Split buf separator) out ->
      exists lg,
        applyManifests (Ok buf) kubeContext builds w =
        match RunCmd ["kubectl"; "--context"; kubeContext; "apply"; "-f"; "-"]
                     (Some (String.concat (separator +:+ String (ascii_of_nat 10) "")
                                          (TrimSpace <$> out)))
                     w with
        | ((_, Some err), w') =>
            Returned (Err (Wrap err "running kubectl"), w', lg)
        | ((_, None), w') =>
            Returned (Ok (flat_map parseReleaseInfo out), w', lg)
        end)
  /\ (forall err lg,
        replaceImages (Split buf separator) builds = Returned (Err err, lg) ->
        applyManifests (Ok buf) kubeContext builds w
        = Returned (Err (Wrap err "replacing images"), w, lg))
  /\ (forall msg,
        replaceImages (Split buf separator) builds = Panicked msg ->
        applyManifests (Ok buf) kubeContext builds w = Panicked msg).
Proof.
  split; [|split].
  - intros out Hout.
    unfold kubectl.applyManifests, newManifestList, deploy.replaceImages.
    destruct (replaceManifests_exact _ _ _ _ _ _ _ Hout
                {| replacements := newReplacements builds; log := [] |}
                eq_refl) as (st' & -> & _).
    exists (log st' ++ unusedWarnings (replacements st')).
    rewrite manifestList_String_concat.
    unfold kubectl. simpl.
    destruct (RunCmd _ _ w) as [[o [err|]] w']; reflexivity.
  - intros err lg H. unfold kubectl.applyManifests, newManifestList.
    rewrite H. reflexivity.
  - intros msg H. unfold kubectl.applyManifests, newManifestList.
    rewrite H. reflexivity.
Qed.
End ApplyManifests.
End SplitProperties.

(** ** Unused images *)

Section ImageUse.
Import deploy manifests imageUse.
Variable ParseReference : string -> result docker.ImageReference.

Local Abbreviation usedName := (usedName ParseReference).
Local Abbreviation usedNames := (usedNames ParseReference).

Lemma mark_lookup (reps : gmap string replacement) (name n : string) :
  mark reps name !! n
  = (fun r => {| tag := tag r;
                 found := found r || bool_decide (n = name) |})
      <$> reps !! n.
Proof.
  unfold mark. destruct (reps !! name) as [img|] eqn:E.
  - destruct (decide (n = name)) as [->|Hne].
    + rewrite lookup_insert_eq, E. simpl.
      rewrite bool_decide_eq_true_2 by reflexivity.
      rewrite orb_true_r. reflexivity.
    + rewrite lookup_insert_ne by congruence.
      rewrite bool_decide_eq_false_2 by exact Hne.
      destruct (reps !! n) as [[t f]|]; simpl; [|reflexivity].
      rewrite orb_false_r. reflexivity.
  - destruct (decide (n = name)) as [->|Hne].
    + rewrite E. reflexivity.
    + rewrite bool_decide_eq_false_2 by exact Hne.
      destruct (reps !! n) as [[t f]|]; simpl; [|reflexivity].
      rewrite orb_false_r. reflexivity.
Qed.

Lemma marked_lookup (names : list string) (reps : gmap string replacement)
      (n : string) :
  marked names reps !! n
  = (fun r => {| tag := tag r;
                 found := found r || bool_decide (n ∈ names) |})
      <$> reps !! n.
Proof.
  unfold marked. revert reps. induction names as [|name names IH]; intros reps.
  - cbn [foldl]. rewrite (bool_decide_eq_false_2 (n ∈ [])) by apply not_elem_of_nil.
    destruct (reps !! n) as [[t f]|]; simpl; [|reflexivity].
    rewrite orb_false_r. reflexivity.
  - cbn [foldl]. rewrite IH, mark_lookup.
    assert (Hb : bool_decide (n ∈ name :: names)
                 = bool_decide (n = name) || bool_decide (n ∈ names)).
    { destruct (decide (n = name)) as [->|Hne].
      - rewrite bool_decide_eq_true_2 by (apply elem_of_cons; auto).
        rewrite bool_decide_eq_true_2 by reflexivity. reflexivity.
      - rewrite (bool_decide_eq_false_2 (n = name)) by exact Hne.
        apply bool_decide_ext. rewrite elem_of_cons. tauto. }
    rewrite Hb.
    destruct (reps !! n) as [[t f]|]; simpl; [|reflexivity].
    rewrite orb_assoc. reflexivity.
Qed.

Lemma marked_app (l1 l2 : list string) (reps : gmap string replacement) :
  marked (l1 ++ l2) reps = marked l2 (marked l1 reps).
Proof. unfold marked. apply foldl_app. Qed.

Lemma silent_app (l1 l2 : list logLine) :
  silent (l1 ++ l2) <-> silent l1 /\ silent l2.
Proof.
  unfold silent. split.
  - intros H. split; intros name Hin; apply (H name); apply elem_of_app; auto.
  - intros [H1 H2] name Hin. apply elem_of_app in Hin as [Hin|Hin];
      [apply (H1 name) | apply (H2 name)]; exact Hin.
Qed.

Local Abbreviation walkMarks := (walkMarks ParseReference).

Lemma replaceImageValue_marks (v : yaml) (st : walk) :
  match replaceImageValue ParseReference v st with
  | Returned (_, st') =>
      replacements st' = marked (omap usedName [v]) (replacements st)
      /\ (silent (log st) -> silent (log st'))
  | Panicked _ => True
  end.
Proof.
  destruct v as [| | | |image| |]; simpl; auto.
  destruct (ParseReference image) as [parsed|err]; simpl.
  - destruct (docker.FullyQualified parsed); simpl.
    + split; [reflexivity|]. intros H. apply silent_app. split; [exact H|].
      intros name Hin. apply list_elem_of_singleton in Hin. discriminate.
    + unfold mark.
      destruct (replacements st !! docker.BaseName parsed); simpl; auto.
  - split; [reflexivity|]. intros H. apply silent_app. split; [exact H|].
    intros name Hin. apply list_elem_of_singleton in Hin. discriminate.
Qed.

Lemma walkItems_marks (rec : yaml -> walk -> outcome (yaml * walk))
      (items : list yaml) :
  Forall (walkMarks rec) items ->
  forall st,
    match walkItems rec items st with
    | Returned (_, st') =>
        replacements st' = marked (usedNames (YSeq items)) (replacements st)
        /\ (silent (log st) -> silent (log st'))
    | Panicked _ => True
    end.
Proof.
  induction 1 as [|v items Hv _ IH]; intros st; simpl; [auto|].
  specialize (Hv st). destruct (rec v st) as [[v' st1]|msg]; [|exact I].
  destruct Hv as [Hr Hl]. specialize (IH st1).
  destruct (walkItems rec items st1) as [[items' st2]|msg]; [|exact I].
  destruct IH as [Hr2 Hl2]. split; [|auto].
  unfold imageUse.usedNames in *. simpl in *.
  rewrite omap_app, marked_app, <- Hr. exact Hr2.
Qed.

Lemma walkEntries_marks (rec : yaml -> walk -> outcome (yaml * walk))
      (entries : list (yaml * yaml)) :
  Forall (fun kv => walkMarks rec (snd kv)) entries ->
  forall st,
    match walkEntries ParseReference rec entries st with
    | Returned (_, st') =>
        replacements st' = marked (usedNames (YMap entries)) (replacements st)
        /\ (silent (log st) -> silent (log st'))
    | Panicked _ => True
    end.
Proof.
  induction 1 as [|[k v] entries Hv _ IH]; intros st; simpl; [auto|].
  destruct k as [| | | |ks| |]; try exact I.
  unfold imageUse.usedNames in *. simpl in *.
  destruct (String.eqb ks "image").
  - pose proof (replaceImageValue_marks v st) as Hi.
    destruct (replaceImageValue ParseReference v st) as [[v' st1]|msg];
      [|exact I].
    destruct Hi as [Hr Hl]. specialize (IH st1).
    destruct (walkEntries ParseReference rec entries st1) as [[entries' st2]|msg];
      [|exact I].
    destruct IH as [Hr2 Hl2]. split; [|auto].
    rewrite omap_app, marked_app, <- Hr. exact Hr2.
  - specialize (Hv st). destruct (rec v st) as [[v' st1]|msg]; [|exact I].
    destruct Hv as [Hr Hl]. specialize (IH st1).
    destruct (walkEntries ParseReference rec entries st1) as [[entries' st2]|msg];
      [|exact I].
    destruct IH as [Hr2 Hl2]. split; [|auto].
    unfold imageUse.usedNames in Hr.
    rewrite omap_app, marked_app, <- Hr. exact Hr2.
Qed.

Lemma recursiveReplaceImage_marks (t : yaml) :
  walkMarks (recursiveReplaceImage ParseReference) t.
Proof.
  induction t as [| | | | |items IH|entries IH] using yaml_ind;
    try (intros st; simpl; auto; fail).
  - intros st. simpl.
    pose proof (walkItems_marks _ items IH st) as H.
    destruct (walkItems _ items st) as [[items' st']|msg]; [exact H | exact I].
  - intros st. simpl.
    pose proof (walkEntries_marks _ entries IH st) as H.
    destruct (walkEntries _ _ entries st) as [[entries' st']|msg];
      [exact H | exact I].
Qed.

Section WithCodec.
Variable bytes : Type.
Variable Unmarshal : bytes -> result (list (yaml * yaml)).
Variable Marshal : list (yaml * yaml) -> result bytes.

Local Abbreviation documentNames := (documentNames ParseReference bytes Unmarshal).

Lemma replaceManifests_marks (l : list bytes) :
  forall st out st',
    replaceManifests ParseReference bytes Unmarshal Marshal l st
    = Returned (Ok out, st') ->
    replacements st' = marked (flat_map documentNames l) (replacements st)
    /\ (silent (log st) -> silent (log st')).
Proof.
  induction l as [|manifest l IH]; intros st out st' H.
  - injection H as <- <-. auto.
  - rewrite replaceManifests_cons in H. simpl.
    unfold imageUse.documentNames at 1.
    destruct (Unmarshal manifest) as [m|err]; [|discriminate].
    destruct m as [|kv m].
    { apply IH in H. exact H. }
    pose proof (walkEntries_marks _ (kv :: m)
                  (Forall_true _ _ (fun kv => recursiveReplaceImage_marks (snd kv)))
                  st) as Hw.
    destruct (walkEntries ParseReference
                          (recursiveReplaceImage ParseReference)
                          (kv :: m) st) as [[m' st1]|msg]; [|discriminate].
    destruct Hw as [Hr Hl].
    destruct (Marshal m') as [updated|err]; [|discriminate].
    destruct (replaceManifests ParseReference bytes Unmarshal Marshal l st1)
      as [[[rest|err] st2]|msg] eqn:ER; try discriminate.
    injection H as <- <-.
    destruct (IH _ _ _ ER) as [Hr2 Hl2]. split; [|auto].
    rewrite marked_app, <- Hr. exact Hr2.
Qed.

Lemma notUsed_unusedWarnings (reps : gmap string replacement) (name : string) :
  notUsed name ∈ unusedWarnings reps <->
  exists r, reps !! name = Some r /\ found r = false.
Proof.
  unfold unusedWarnings. rewrite list_elem_of_omap. split.
  - intros ([n r] & Hin & Hf). apply elem_of_map_to_list in Hin.
    destruct (found r) eqn:E; [discriminate|]. injection Hf as <-. eauto.
  - intros (r & Hr & Hf). exists (name, r).
    split; [apply elem_of_map_to_list; exact Hr|].
    rewrite Hf. reflexivity.
Qed.

(** X16. When a pass over the manifests returns, the warning that an
    image is not used by the deployment is logged exactly for the image
    names that have a build result and to which no image value of the
    manifests, read as a reference that is not fully qualified, refers. *)
Theorem unused_image_warning (l : list bytes) (builds : list build.Artifact)
        (out : list bytes) (lg : list logLine) (name : string) :
  replaceImages ParseReference bytes Unmarshal Marshal l builds
  = Returned (Ok out, lg) ->
  notUsed name ∈ lg <->
  name ∈ build.ImageName <$> builds /\ name ∉ flat_map documentNames l.
Proof.
  unfold replaceImages. intros H.
  destruct (replaceManifests ParseReference bytes Unmarshal Marshal l _)
    as [[[out'|err] st']|msg] eqn:ER; try discriminate.
  injection H as <- <-.
  apply replaceManifests_marks in ER as [Hr Hl]. simpl in Hr, Hl.
  assert (Hs : silent (log st')) by (apply Hl; intros n Hn; inversion Hn).
  rewrite elem_of_app, notUsed_unusedWarnings, Hr.
  split.
  - intros [Hin|(r & Hlook & Hf)]; [destruct (Hs name Hin)|].
    rewrite marked_lookup, newReplacements_lookup in Hlook.
    destruct (lastBuild builds name) as [b|] eqn:Hb; [|discriminate].
    apply (lastBuild_named ParseReference) in Hb as [Hb Hn].
    cbn [fmap option_fmap option_map] in Hlook.
    injection Hlook as <-. cbn [found tag orb] in Hf. split.
    + rewrite <- Hn. apply list_elem_of_fmap_2. exact Hb.
    + intros Hin. rewrite bool_decide_eq_true_2 in Hf by exact Hin.
      discriminate.
  - intros [Hin Hnot]. right.
    rewrite marked_lookup, newReplacements_lookup.
    destruct (lastBuild builds name) as [b|] eqn:Hb.
    + cbn [fmap option_fmap option_map]. eexists. split; [reflexivity|].
      cbn [found tag orb]. apply bool_decide_eq_false_2. exact Hnot.
    + exfalso. apply list_elem_of_fmap in Hin as (b & -> & Hb').
      unfold lastBuild in Hb. apply last_None in Hb.
      assert (Hin : b ∈ filter (runner.named (build.ImageName b)) builds)
        by (apply list_elem_of_filter; split; [reflexivity | exact Hb']).
      rewrite Hb in Hin. apply elem_of_nil in Hin. exact Hin.
Qed.
End WithCodec.
End ImageUse.

(** ** Invariants of the port-forwarder *)

Section PortForwardInvariants.
Import kubernetes portforward.

Lemma hasChar_append (c : ascii) (x y : string) :
  docker.hasChar c (x +:+ String c y) = true.
Proof.
  unfold docker.hasChar. induction x as [|a x IH].
  - change ("" +:+ String c y) with (String c y). simpl.
    rewrite Ascii.eqb_refl. reflexivity.
  - change (String a x +:+ String c y) with (String a (x +:+ String c y)).
    simpl. destruct (Ascii.eqb a c); [reflexivity|].
    destruct (docker.splitFirst c (x +:+ String c y)) as [[? ?]|];
      [reflexivity | discriminate].
Qed.

Lemma uint_no_dash (d : Decimal.uint) :
  docker.hasChar "-" (NilEmpty.string_of_uint d) = false.
Proof.
  unfold docker.hasChar.
  induction d; simpl; try reflexivity;
    destruct (docker.splitFirst "-" (NilEmpty.string_of_uint d)) as [[? ?]|];
    try discriminate; reflexivity.
Qed.

Lemma itoa_no_dash (z : Z) : (0 <= z)%Z -> docker.hasChar "-" (itoa z) = false.
Proof.
  intros Hz. unfold itoa. destruct z as [|p|p]; [reflexivity| |lia].
  simpl. destruct (Pos.to_uint p) eqn:E; try apply uint_no_dash. reflexivity.
Qed.

Lemma itoa_inj (a b : Z) : itoa a = itoa b -> a = b.
Proof.
  unfold itoa. intros H. apply DecimalZ.to_int_inj.
  assert (Hnn : forall z, Z.to_int z <> Decimal.Pos Decimal.Nil
                          /\ Z.to_int z <> Decimal.Neg Decimal.Nil).
  { intros [|p|p]; simpl; split; try discriminate;
      intros [= E]; apply (DecimalPos.Unsigned.to_uint_nonnil p E). }
  destruct (Hnn a) as [A1 A2]. destruct (Hnn b) as [B1 B2].
  pose proof (NilZero.isi _ A1 A2) as Ia.
  pose proof (NilZero.isi _ B1 B2) as Ib.
  rewrite H in Ia. congruence.
Qed.

(** The text after the last dash of a key is the port. *)
Lemma dash_split (a b d1 d2 : string) :
  docker.hasChar "-" d1 = false -> docker.hasChar "-" d2 = false ->
  a +:+ "-" +:+ d1 = b +:+ "-" +:+ d2 -> a = b /\ d1 = d2.
Proof.
  intros H1 H2. revert b. induction a as [|c a IH]; intros b H.
  - destruct b as [|c' b].
    + injection H as H. auto.
    + change (String "-" d1 = String c' (b +:+ String "-" d2)) in H.
      injection H as _ H. rewrite H, hasChar_append in H1. discriminate.
  - destruct b as [|c' b].
    + change (String c (a +:+ String "-" d1) = String "-" d2) in H.
      injection H as _ H. rewrite <- H, hasChar_append in H2. discriminate.
    + change (String c (a +:+ "-" +:+ d1) = String c' (b +:+ "-" +:+ d2)) in H.
      injection H as -> H. destruct (IH b H) as [-> ->]. auto.
Qed.

(** X17. Entries with ports that are not negative and the same key have
    the same container name and the same port. *)
Theorem key_injective (p q : portForwardEntry) :
  (0 <= port p)%Z -> (0 <= port q)%Z ->
  key p = key q -> containerName p = containerName q /\ port p = port q.
Proof.
  intros Hp Hq H. unfold key in H.
  apply dash_split in H as [Hc Hi]; try (apply itoa_no_dash; assumption).
  split; [exact Hc | apply itoa_inj; exact Hi].
Qed.

Variable runs : portForwardEntry -> behaviour.

Lemma started_emit (ev : event) (st : state) :
  started st -> started (emit ev st).
Proof. intros H. exact H. Qed.

Lemma stop_started (p : portForwardEntry) (st : state) :
  started st -> started (snd (stop p st)).
Proof.
  intros H. pose proof (stop_spec p st) as Hs.
  destruct (stop p st) as [[err|] st']; simpl.
  - destruct Hs as [-> _]. exact H.
  - destruct Hs as (pid & _ & _ & _ & _ & T & N).
    intros k e. rewrite T, N. apply H.
Qed.

Lemma forward_started (p : portForwardEntry) (st : state) :
  started st -> started (snd (forward runs p st)).
Proof.
  intros H. destruct (forward_spec runs p st) as (_ & T & N & _).
  intros k e. rewrite T, N.
  destruct (decide (k = key p)) as [->|Hk].
  - rewrite lookup_insert_eq. intros [= <-]. split; [reflexivity|].
    simpl. eexists. split; [reflexivity | lia].
  - rewrite lookup_insert_ne by congruence. intros He.
    destruct (H k e He) as (Hkey & pid & Hc & Hlt).
    split; [exact Hkey|]. exists pid. split; [exact Hc | lia].
Qed.

Lemma forwardEntry_started (entry : portForwardEntry) (st : state) :
  started st -> started (snd (forwardEntry runs entry st)).
Proof.
  intros H. unfold forwardEntry.
  set (stopped := match forwardedPods st !! key entry with
                  | Some prevEntry =>
                      if (resourceVersion prevEntry <? resourceVersion entry)%Z
                      then stop prevEntry st else (None, st)
                  | None => (None, st)
                  end).
  assert (Hs : started (snd stopped)).
  { subst stopped. destruct (forwardedPods st !! key entry) as [prev|];
      [|exact H].
    destruct (resourceVersion prev <? resourceVersion entry)%Z; [|exact H].
    apply stop_started. exact H. }
  destruct stopped as [[err|] st1]; simpl in *; [exact Hs|].
  rewrite forwardEntry_after_stop. apply forward_started. exact Hs.
Qed.

Lemma forwardEntries_started (entries : list portForwardEntry) (st : state) :
  started st -> started (snd (forwardEntries runs entries st)).
Proof.
  revert st. induction entries as [|entry rest IH]; intros st H; [exact H|].
  simpl. pose proof (forwardEntry_started entry st H) as H1.
  destruct (forwardEntry runs entry st) as [[[err|]|pid] st1]; simpl in *;
    auto.
Qed.

Lemma portForwardPod_started (pod : Pod) (st : state) :
  started st -> started (snd (portForwardPod runs pod st)).
Proof.
  intros H. unfold portForwardPod.
  destruct (Atoi (ResourceVersion pod)); [|exact H].
  apply forwardEntries_started. exact H.
Qed.

Lemma rangeList_started (l : list (string * portForwardEntry)) (st : state) :
  started st ->
  started (rangeList l
             (fun _ entry st =>
                match stop entry st with
                | (Some err, st) =>
                    (false, emit (EWarnf "cleaning up port forwards" err) st)
                | (None, st) => (false, st)
                end) st).
Proof.
  intros H. destruct l as [|[k e] l]; [exact H|]. simpl.
  pose proof (stop_started e st H) as Hs.
  destruct (stop e st) as [[err|] st1]; simpl in *; exact Hs.
Qed.

Variable Select : Pod -> bool.


(** X19. Events that are not [Modified], objects that are not pods and
    pods that are not selected, not running or being deleted leave the
    forwarder as it is. *)
Theorem passed_over_events_change_nothing (script : list input) (st : state) :
  forallb (passedOver Select) script = true ->
  Start runs Select script st = st.
Proof.
  induction script as [|i script IH]; intros H; [reflexivity|].
  simpl in H. apply andb_true_iff in H as [Hi H].
  destruct i as [| |[| | |] pod|ty]; simpl in *; try discriminate; auto.
  apply negb_true_iff in Hi. rewrite Hi. auto.
Qed.

(** X20. When a started [kubectl port-forward] keeps running, the
    goroutine of [portForwardPod] never gets past the first entry: it does
    not return nil, no key other than the first entry's is touched and at
    most one process is started, however many ports the pod has. *)
Theorem first_port_only (entry : portForwardEntry)
        (rest : list portForwardEntry) (st : state) :
  (forall e, runs e = KeepsRunning) ->
  forwardEntries runs (entry :: rest) st = forwardEntry runs entry st
  /\ fst (forwardEntry runs entry st) <> Finished None
  /\ (forall k, k <> key entry ->
                forwardedPods (snd (forwardEntries runs (entry :: rest) st)) !! k
                = forwardedPods st !! k)
  /\ (nextPid (snd (forwardEntries runs (entry :: rest) st))
      <= S (nextPid st))%nat.
Proof.
  intros Hruns.
  assert (Hf : forall e s, exists pid, fst (forward runs e s) = Blocked pid).
  { intros e s. unfold forward. rewrite Hruns. simpl. eauto. }
  assert (Hne : fst (forwardEntry runs entry st) <> Finished None).
  { unfold forwardEntry.
    destruct (match forwardedPods st !! key entry with
              | Some prevEntry =>
                  if (resourceVersion prevEntry <? resourceVersion entry)%Z
                  then stop prevEntry st else (None, st)
              | None => (None, st)
              end) as [[err|] st1]; [discriminate|].
    destruct (Hf entry st1) as [pid Hpid].
    destruct (forward runs entry st1) as [r st2]. simpl in Hpid. subst r.
    discriminate. }
  assert (Heq : forwardEntries runs (entry :: rest) st
                = forwardEntry runs entry st).
  { simpl. destruct (forwardEntry runs entry st) as [[[err|]|pid] st1];
      simpl in *; congruence. }
  split; [exact Heq|]. split; [exact Hne|]. rewrite Heq.
  unfold forwardEntry.
  set (stopped := match forwardedPods st !! key entry with
                  | Some prevEntry =>
                      if (resourceVersion prevEntry <? resourceVersion entry)%Z
                      then stop prevEntry st else (None, st)
                  | None => (None, st)
                  end).
  assert (Hs : forwardedPods (snd stopped) = forwardedPods st
               /\ nextPid (snd stopped) = nextPid st).
  { subst stopped. destruct (forwardedPods st !! key entry) as [prev|]; [|auto].
    destruct (resourceVersion prev <? resourceVersion entry)%Z; [|auto].
    pose proof (stop_spec prev st) as Hstop.
    destruct (stop prev st) as [[err|] st1]; simpl.
    - destruct Hstop as [-> _]. auto.
    - destruct Hstop as (pid & _ & _ & _ & _ & T & N). auto. }
  destruct Hs as [Ht Hn].
  destruct stopped as [[err|] st1]; simpl in *.
  - rewrite Ht, Hn. split; [auto | lia].
  - rewrite forwardEntry_after_stop.
    destruct (forward_spec runs entry st1) as (_ & T & N & _).
    rewrite T, N, Ht, Hn. split; [|lia].
    intros k Hk. rewrite lookup_insert_ne by congruence. reflexivity.
Qed.
End PortForwardInvariants.

(** ** The updates of the labeler *)

Section LabelerProperties.
Import label labeler.
Variable DefaultLabels : gmap string string.
Variable API : Type.
Variable apiUpdate : kind -> string -> gmap string string -> API -> option error * API.

Local Abbreviation updateRuntimeObject :=
  (updateRuntimeObject DefaultLabels API apiUpdate).
Local Abbreviation retry := (retry DefaultLabels API apiUpdate).
Local Abbreviation labelResults := (labelResults DefaultLabels API apiUpdate).
Local Abbreviation mapAt := (mapAt API).
Local Abbreviation copyInto := (copyInto API).

Lemma retrieveNamespace_nonempty (ns : string) (m : ObjectMeta) :
  retrieveNamespace ns m <> "".
Proof.
  unfold retrieveNamespace.
  destruct (String.eqb ns "") eqn:E1; simpl.
  - destruct (String.eqb (Namespace m) "") eqn:E2; simpl.
    + discriminate.
    + apply String.eqb_neq. exact E2.
  - apply String.eqb_neq. exact E1.
Qed.

(** One call of [updateRuntimeObject]: what it adds to the trace. *)
Lemma updateRuntimeObject_trace (labels : loc) (res : Artifact)
      (st : state API) (err : option error) (st' : state API) :
  updateRuntimeObject labels res st = Returned (err, st') ->
  exists obj,
    objects st !! Obj res = Some obj
    /\ ((Kind obj = OtherObject /\ err = None
         /\ trace st' = trace st ++ [EInfof "unknown runtime.Object, skipping label"])
        \/ (Kind obj <> OtherObject
            /\ trace st'
               = trace st
                   ++ [EUpdate (Kind obj)
                               (retrieveNamespace (ArtifactNamespace res) (Meta obj))
                               ((DefaultLabels ∪ mapAt st labels)
                                  ∪ ownLabels st obj)])).
Proof.
  unfold label.updateRuntimeObject.
  set (st1 := copyInto DefaultLabels labels st).
  change (objects st1) with (objects st).
  destruct (objects st !! Obj res) as [obj|] eqn:Eo; [|discriminate].
  intros H. exists obj. split; [reflexivity|].
  assert (H1 : mapAt st1 labels = DefaultLabels ∪ mapAt st labels).
  { unfold st1. rewrite mapAt_copyInto. case_decide; congruence. }
  assert (Hsent : forall l st2,
             addSkaffoldLabels API labels (Obj res) obj st1 = (l, st2) ->
             mapAt st2 l = (DefaultLabels ∪ mapAt st labels) ∪ ownLabels st obj
             /\ trace st2 = trace st).
  { intros l st2. unfold addSkaffoldLabels, ownLabels.
    destruct (Labels (Meta obj)) as [l0|].
    - intros [= <- <-]. split; [|reflexivity].
      rewrite mapAt_copyInto, decide_True by reflexivity. rewrite H1.
      unfold st1. rewrite mapAt_copyInto.
      case_decide as Hl; [|reflexivity]. subst l0.
      fold (mapAt st labels).
      apply map_eq. intros i. rewrite !lookup_union.
      destruct (DefaultLabels !! i), (mapAt st labels !! i); reflexivity.
    - assert (Hl : labels <> fresh (dom (maps st1))).
      { intros Heq. apply (is_fresh (dom (maps st1))). rewrite <- Heq.
        apply elem_of_dom. unfold st1, label.copyInto. simpl.
        rewrite lookup_insert_eq. eauto. }
      set (l1 := fresh (dom (maps st1))) in *. clearbody l1.
      intros [= <- <-]. split; [|reflexivity].
      rewrite mapAt_copyInto, decide_True by reflexivity.
      match goal with
      | |- mapAt ?s0 labels ∪ mapAt ?s0 ?l = _ =>
          assert (Ha : mapAt s0 labels = mapAt st1 labels)
            by (unfold label.mapAt; simpl;
                rewrite lookup_insert_ne by congruence; reflexivity);
          assert (Hb : mapAt s0 l = ∅)
            by (unfold label.mapAt; simpl;
                rewrite lookup_insert_eq; reflexivity);
          rewrite Ha, Hb
      end.
      rewrite H1. reflexivity. }
  destruct (addSkaffoldLabels API labels (Obj res) obj st1) as [l st2] eqn:E2.
  destruct (Hsent l st2 eq_refl) as [Hm Ht].
  destruct (Kind obj) eqn:Ek;
    try (right; split; [discriminate|];
         destruct (apiUpdate _ _ _ _) as [e a]; injection H as <- <-;
         simpl; rewrite Ht, Hm; reflexivity).
  left. injection H as <- <-. auto.
Qed.

(** X23. The update sent for an object of a known kind carries the
    default labels laid over the caller's labels laid over the object's
    own: a label of the object survives unless a default or a caller's
    label has its key, a caller's label unless a default has its key. *)
Theorem labels_sent_to_the_api (labels : loc) (res : Artifact)
        (st : state API) (err : option error) (st' : state API)
        (obj : RuntimeObject) :
  updateRuntimeObject labels res st = Returned (err, st') ->
  objects st !! Obj res = Some obj ->
  Kind obj <> OtherObject ->
  trace st'
  = trace st
      ++ [EUpdate (Kind obj)
                  (retrieveNamespace (ArtifactNamespace res) (Meta obj))
                  ((DefaultLabels ∪ mapAt st labels) ∪ ownLabels st obj)]
  /\ (forall k v, ownLabels st obj !! k = Some v ->
                  DefaultLabels !! k = None -> mapAt st labels !! k = None ->
                  ((DefaultLabels ∪ mapAt st labels) ∪ ownLabels st obj) !! k
                  = Some v)
  /\ (forall k v, mapAt st labels !! k = Some v -> DefaultLabels !! k = None ->
                  ((DefaultLabels ∪ mapAt st labels) ∪ ownLabels st obj) !! k
                  = Some v)
  /\ DefaultLabels ⊆ (DefaultLabels ∪ mapAt st labels) ∪ ownLabels st obj.
Proof.
  intros H Ho Hk.
  destruct (updateRuntimeObject_trace _ _ _ _ _ H) as (obj' & Ho' & Hcase).
  assert (obj' = obj) by congruence. subst obj'.
  destruct Hcase as [(Hother & _)|[_ Ht]]; [contradiction|].
  split; [exact Ht|]. split; [|split].
  - intros k v Hown Hd Hc. rewrite !lookup_union, Hd, Hc, Hown. reflexivity.
  - intros k v Hc Hd. rewrite !lookup_union, Hd, Hc. simpl.
    destruct (ownLabels st obj !! k); reflexivity.
  - etransitivity; apply map_union_subseteq_l.
Qed.

Lemma Forall_wellFormed_update (labels : loc) (res : Artifact)
      (st : state API) (err : option error) (st' : state API) :
  updateRuntimeObject labels res st = Returned (err, st') ->
  exists evs, trace st' = trace st ++ evs
              /\ Forall (wellFormed DefaultLabels) evs
              /\ (updates evs <= 1)%nat /\ sleeps evs = O
              /\ (err <> None -> updates evs = 1%nat).
Proof.
  intros H.
  destruct (updateRuntimeObject_trace _ _ _ _ _ H) as (obj & Ho & Hcase).
  destruct Hcase as [(Hother & -> & Ht)|[Hk Ht]].
  - eexists. split; [exact Ht|]. repeat split; auto.
    + repeat constructor.
    + congruence.
  - eexists. split; [exact Ht|]. repeat split; auto.
    repeat constructor; auto.
    + apply retrieveNamespace_nonempty.
    + etransitivity; apply map_union_subseteq_l.
Qed.

Lemma updates_app (l1 l2 : list event) :
  updates (l1 ++ l2) = (updates l1 + updates l2)%nat.
Proof. unfold updates. rewrite List.filter_app, length_app. reflexivity. Qed.

Lemma sleeps_app (l1 l2 : list event) :
  sleeps (l1 ++ l2) = (sleeps l1 + sleeps l2)%nat.
Proof. unfold sleeps. rewrite List.filter_app, length_app. reflexivity. Qed.

(** The retry loop with [i] tries left. *)
Lemma retry_trace (i : nat) (labels : loc) (res : Artifact) (st : state API)
      (err : option error) (st' : state API) :
  retry i labels res st = Returned (err, st') ->
  exists evs,
    trace st' = trace st ++ evs
    /\ Forall (wellFormed DefaultLabels) evs
    /\ (updates evs <= i)%nat
    /\ (sleeps evs <= updates evs)%nat
    /\ (updates evs <= S (sleeps evs))%nat
    /\ (err <> None -> updates evs = i /\ sleeps evs = i).
Proof.
  revert st. induction i as [|i IH]; intros st H.
  - injection H as <- <-. exists []. rewrite app_nil_r.
    repeat split; auto; congruence.
  - rewrite retry_S in H.
    destruct (updateRuntimeObject labels res st) as [[[e|] st1]|msg] eqn:Eu;
      [| |discriminate].
    + destruct (Forall_wellFormed_update _ _ _ _ _ Eu)
        as (evs & Ht & Hw & Hu & Hs & Hone).
      specialize (Hone ltac:(discriminate)).
      destruct i as [|i].
      * injection H as <- <-. exists (evs ++ [ESleep]).
        simpl. rewrite Ht, <- app_assoc. split; [reflexivity|].
        rewrite updates_app, sleeps_app. cbn.
        repeat split; try lia.
        apply Forall_app. split; [exact Hw | repeat constructor].
      * apply IH in H as (evs' & Ht' & Hw' & Hu' & Hs' & Hs2' & Herr').
        exists (evs ++ [ESleep] ++ evs').
        simpl in Ht'. rewrite Ht', Ht, <- !app_assoc.
        split; [reflexivity|].
        rewrite !updates_app, !sleeps_app. cbn.
        split.
        { apply Forall_app. split; [exact Hw|].
          constructor; [exact I | exact Hw']. }
        split; [lia|]. split; [lia|]. split; [lia|].
        intros Hne. destruct (Herr' Hne). lia.
    + injection H as <- <-.
      destruct (Forall_wellFormed_update _ _ _ _ _ Eu)
        as (evs & Ht & Hw & Hu & Hs & Hone).
      exists evs. repeat split; auto; try lia; congruence.
Qed.

(** X21. Every update the labeler sends is for a known kind of object,
    in a namespace that is not empty and with the default labels; there
    are at most three updates per result, and the sleeps are the failed
    updates: no more sleeps than updates, and no more updates than sleeps
    and results. *)
Theorem updates_are_bounded_and_well_formed
        (clientError : option error) (labels : loc)
        (results : list Artifact) (st st' : state API) :
  ApplyLabelDeployResults DefaultLabels API apiUpdate clientError
                          labels results st = Returned st' ->
  exists evs,
    trace st' = trace st ++ evs
    /\ Forall (wellFormed DefaultLabels) evs
    /\ (updates evs <= tries * length results)%nat
    /\ (sleeps evs <= updates evs)%nat
    /\ (updates evs <= sleeps evs + length results)%nat.
Proof.
  unfold label.ApplyLabelDeployResults.
  destruct clientError as [err|].
  { intros [= <-]. eexists. split; [reflexivity|].
    split; [repeat constructor|]. cbn. lia. }
  revert st. induction results as [|res rest IH]; intros st H.
  - injection H as <-. exists []. rewrite app_nil_r.
    split; [reflexivity|]. split; [constructor|]. cbn. lia.
  - cbn [label.labelResults] in H.
    destruct (retry tries labels res st) as [[err st1]|msg] eqn:Er;
      [|discriminate].
    apply retry_trace in Er as (evs & Ht & Hw & Hu & Hs & Hs2 & _).
    destruct err as [err|].
    + apply IH in H as (evs' & Ht' & Hw' & Hu' & Hs' & Hs2').
      simpl in Ht'.
      exists (evs ++ [EWarnf "error adding label to runtime object: %s" err]
                  ++ evs').
      rewrite Ht', Ht, <- !app_assoc. split; [reflexivity|].
      rewrite !updates_app, !sleeps_app. cbn [length].
      split.
      { apply Forall_app. split; [exact Hw|].
        constructor; [exact I | exact Hw']. }
      unfold tries in *. cbn [updates sleeps List.filter isUpdate isSleep length].
      lia.
    + apply IH in H as (evs' & Ht' & Hw' & Hu' & Hs' & Hs2').
      exists (evs ++ evs').
      rewrite Ht', Ht, <- !app_assoc. split; [reflexivity|].
      rewrite !updates_app, !sleeps_app. cbn [length].
      split; [apply Forall_app; split; assumption|].
      unfold tries in *. lia.
Qed.

(** An object keeps its kind and its namespace. *)
Lemma updateRuntimeObject_kind (labels : loc) (res : Artifact)
      (st : state API) (err : option error) (st' : state API) :
  updateRuntimeObject labels res st = Returned (err, st') ->
  forall o obj,
    objects st !! o = Some obj ->
    exists obj', objects st' !! o = Some obj'
                 /\ Kind obj' = Kind obj
                 /\ Namespace (Meta obj') = Namespace (Meta obj).
Proof.
  unfold label.updateRuntimeObject.
  set (st1 := copyInto DefaultLabels labels st).
  change (objects st1) with (objects st).
  destruct (objects st !! Obj res) as [obj0|] eqn:Eo; [|discriminate].
  assert (H2 : forall l2 st2,
             addSkaffoldLabels API labels (Obj res) obj0 st1 = (l2, st2) ->
             forall o obj,
               objects st !! o = Some obj ->
               exists obj', objects st2 !! o = Some obj'
                            /\ Kind obj' = Kind obj
                            /\ Namespace (Meta obj') = Namespace (Meta obj)).
  { intros l2 st2. unfold addSkaffoldLabels.
    destruct (Labels (Meta obj0)) as [l0|].
    - intros [= <- <-] o obj Ho. exists obj. auto.
    - intros [= <- <-] o obj Ho. simpl.
      destruct (decide (o = Obj res)) as [->|Hne].
      + rewrite lookup_insert_eq. eexists. split; [reflexivity|].
        assert (obj = obj0) by congruence. subst. auto.
      + rewrite lookup_insert_ne by congruence. exists obj. auto. }
  destruct (addSkaffoldLabels API labels (Obj res) obj0 st1) as [l2 st2] eqn:E2.
  specialize (H2 l2 st2 eq_refl).
  destruct (Kind obj0);
    try (destruct (apiUpdate _ _ _ _) as [e a]; intros [= <- <-];
         exact H2).
  intros [= <- <-] o obj Ho. exists obj. auto.
Qed.

(** X22. An object of a known kind is updated at least once and at most
    three times. When the updates keep failing there are exactly three,
    each followed by a sleep, the last one too; when one succeeds it is
    the last step and every update before it was followed by a sleep. *)
Theorem three_tries_then_give_up (labels : loc) (res : Artifact)
        (st st' : state API) (err : option error) (obj : RuntimeObject) :
  objects st !! Obj res = Some obj -> Kind obj <> OtherObject ->
  retry tries labels res st = Returned (err, st') ->
  exists evs,
    trace st' = trace st ++ evs
    /\ (1 <= updates evs <= tries)%nat
    /\ (is_Some err -> updates evs = tries /\ sleeps evs = tries
                       /\ last evs = Some ESleep)
    /\ (err = None -> S (sleeps evs) = updates evs
                      /\ exists k ns lbls, last evs = Some (EUpdate k ns lbls)).
Proof.
  intros Ho Hk H.
  assert (Hlast : forall i st st' err,
             retry i labels res st = Returned (Some err, st') ->
             last (trace st') = Some ESleep).
  { clear. induction i as [|i IH]; intros st st' err H; [discriminate|].
    rewrite retry_S in H.
    destruct (updateRuntimeObject labels res st) as [[[e|] st1]|msg];
      try discriminate.
    destruct i as [|i].
    - injection H as <- <-. simpl. apply last_snoc.
    - apply IH in H. exact H. }
  assert (Hnone : forall i st st' obj,
             objects st !! Obj res = Some obj -> Kind obj <> OtherObject ->
             retry (S i) labels res st = Returned (None, st') ->
             exists evs, trace st' = trace st ++ evs
                         /\ S (sleeps evs) = updates evs
                         /\ exists k ns lbls, last evs = Some (EUpdate k ns lbls)).
  { clear. induction i as [|i IH]; intros st st' obj Ho Hk H;
      rewrite retry_S in H;
      destruct (updateRuntimeObject labels res st) as [[[e|] st1]|msg] eqn:Eu;
      try discriminate.
    - injection H as <-.
      destruct (updateRuntimeObject_trace _ _ _ _ _ Eu) as (obj' & Ho' & Hcase).
      assert (obj' = obj) by congruence. subst obj'.
      destruct Hcase as [(Hother & _)|[_ Ht]]; [contradiction|].
      eexists. split; [exact Ht|]. split; [reflexivity|]. eauto.
    - destruct (updateRuntimeObject_kind _ _ _ _ _ Eu _ _ Ho)
        as (obj1 & Ho1 & Hk1 & _).
      destruct (updateRuntimeObject_trace _ _ _ _ _ Eu) as (obj' & Ho' & Hcase).
      assert (obj' = obj) by congruence. subst obj'.
      destruct Hcase as [(Hother & _)|[_ Ht]]; [contradiction|].
      apply (IH _ _ obj1) in H; [|exact Ho1|congruence].
      destruct H as (evs' & Ht' & Hc & k & ns & lbls & Hl).
      eexists (_ :: ESleep :: evs').
      simpl in Ht'. rewrite Ht', Ht, <- !app_assoc. split; [reflexivity|].
      split.
      + unfold updates, sleeps in *. simpl. lia.
      + exists k, ns, lbls. destruct evs' as [|ev evs']; [discriminate|].
        exact Hl.
    - injection H as <-.
      destruct (updateRuntimeObject_trace _ _ _ _ _ Eu) as (obj' & Ho' & Hcase).
      assert (obj' = obj) by congruence. subst obj'.
      destruct Hcase as [(Hother & _)|[_ Ht]]; [contradiction|].
      eexists. split; [exact Ht|]. split; [reflexivity|]. eauto. }
  destruct (retry_trace _ _ _ _ _ _ H) as (evs & Ht & _ & Hu & _ & _ & Herr).
  exists evs. split; [exact Ht|].
  assert (Hcases : (is_Some err -> updates evs = tries /\ sleeps evs = tries
                                   /\ last evs = Some ESleep)
                   /\ (err = None ->
                       S (sleeps evs) = updates evs
                       /\ exists k ns lbls, last evs = Some (EUpdate k ns lbls))).
  { split.
    - intros [e ->]. destruct (Herr ltac:(discriminate)) as [H1 H2].
      repeat split; auto.
      apply Hlast in H. rewrite Ht in H.
      destruct evs as [|ev evs]; [unfold tries in H1; cbn in H1; lia|].
      rewrite last_app in H.
      destruct (last (ev :: evs)) eqn:E; [exact H|].
      apply last_None in E. discriminate.
    - intros ->. destruct (Hnone _ _ _ _ Ho Hk H) as (evs' & Ht' & Hc).
      rewrite Ht in Ht'. apply app_inv_head in Ht'. subst evs'. exact Hc. }
  split; [|exact Hcases]. split; [|exact Hu].
  destruct err as [e|].
  - destruct Hcases as [Hc _]. destruct (Hc ltac:(eauto)) as [-> _].
    unfold tries. lia.
  - destruct Hcases as [_ Hc]. destruct (Hc eq_refl) as [Hc' _]. lia.
Qed.

(** *** Other maps are left alone *)

Lemma apart_emit (labels l : loc) (ev : event) (st : state API) :
  apart labels l st -> apart labels l (emit API ev st).
Proof. intros H. exact H. Qed.

Lemma updateRuntimeObject_apart (labels l : loc) (res : Artifact)
      (st : state API) (err : option error) (st' : state API) :
  apart labels l st ->
  updateRuntimeObject labels res st = Returned (err, st') ->
  apart labels l st' /\ maps st' !! l = maps st !! l.
Proof.
  intros (Hne & Halloc & Hobj). unfold label.updateRuntimeObject.
  set (st1 := copyInto DefaultLabels labels st).
  assert (H1 : apart labels l st1 /\ maps st1 !! l = maps st !! l).
  { unfold st1, label.copyInto, apart. simpl.
    rewrite lookup_insert_ne by congruence. auto. }
  destruct H1 as [(_ & Halloc1 & Hobj1) Hm1].
  change (objects st1) with (objects st).
  destruct (objects st !! Obj res) as [obj|] eqn:Eo; [|discriminate].
  assert (H2 : forall l2 st2,
             addSkaffoldLabels API labels (Obj res) obj st1 = (l2, st2) ->
             apart labels l st2 /\ maps st2 !! l = maps st !! l).
  { intros l2 st2. unfold addSkaffoldLabels.
    destruct (Labels (Meta obj)) as [l0|] eqn:El.
    - intros [= <- <-]. unfold label.copyInto, apart. simpl.
      assert (l0 <> l) by (intros ->; apply (Hobj _ _ Eo); exact El).
      rewrite lookup_insert_ne by congruence. auto.
    - assert (Hl : fresh (dom (maps st1)) <> l).
      { intros Heq. apply (is_fresh (dom (maps st1))). rewrite Heq.
        apply elem_of_dom. exact Halloc1. }
      set (l1 := fresh (dom (maps st1))) in *. clearbody l1.
      intros [= <- <-]. unfold label.copyInto, apart. simpl.
      rewrite !lookup_insert_ne by congruence.
      split; [|reflexivity]. split; [exact Hne|]. split; [exact Halloc|].
      intros o obj'. destruct (decide (o = Obj res)) as [->|Ho].
      + rewrite lookup_insert_eq. intros [= <-]. simpl. congruence.
      + rewrite lookup_insert_ne by congruence. apply Hobj. }
  destruct (addSkaffoldLabels API labels (Obj res) obj st1) as [l2 st2] eqn:E2.
  destruct (H2 l2 st2 eq_refl) as [Ha Hm].
  destruct (Kind obj);
    try (destruct (apiUpdate _ _ _ _) as [e a]; intros [= <- <-];
         split; [exact Ha | exact Hm]).
  intros [= <- <-]. split; [|exact Hm1].
  unfold apart. simpl. auto.
Qed.

Lemma retry_apart (i : nat) (labels l : loc) (res : Artifact)
      (st : state API) (err : option error) (st' : state API) :
  apart labels l st ->
  retry i labels res st = Returned (err, st') ->
  apart labels l st' /\ maps st' !! l = maps st !! l.
Proof.
  revert st. induction i as [|i IH]; intros st Ha H.
  - injection H as <- <-. auto.
  - rewrite retry_S in H.
    destruct (updateRuntimeObject labels res st) as [[[e|] st1]|msg] eqn:Eu;
      try discriminate.
    + destruct (updateRuntimeObject_apart _ _ _ _ _ _ Ha Eu) as [Ha1 Hm1].
      destruct i as [|i].
      * injection H as <- <-. split; [exact Ha1 | exact Hm1].
      * apply IH in H; [|exact Ha1]. destruct H as [Ha2 Hm2].
        split; [exact Ha2|]. rewrite Hm2. exact Hm1.
    + injection H as <- <-.
      exact (updateRuntimeObject_apart _ _ _ _ _ _ Ha Eu).
Qed.

(** X24. A map that is neither the caller's nor the label map of an
    object is left as it is by the labeler, and is still neither
    afterwards. *)
Theorem other_maps_untouched (clientError : option error) (labels l : loc)
        (results : list Artifact) (st st' : state API) :
  apart labels l st ->
  ApplyLabelDeployResults DefaultLabels API apiUpdate clientError
                          labels results st = Returned st' ->
  maps st' !! l = maps st !! l /\ apart labels l st'.
Proof.
  unfold label.ApplyLabelDeployResults. intros Ha.
  destruct clientError as [err|]; [intros [= <-]; auto|].
  revert st Ha. induction results as [|res rest IH]; intros st Ha H.
  - injection H as <-. auto.
  - cbn [label.labelResults] in H.
    destruct (retry tries labels res st) as [[err st1]|msg] eqn:Er;
      [|discriminate].
    destruct (retry_apart _ _ _ _ _ _ _ Ha Er) as [Ha1 Hm1].
    destruct err as [err|].
    + apply IH in H; [|exact Ha1]. destruct H as [Hm Ha2].
      split; [|exact Ha2]. rewrite Hm. exact Hm1.
    + apply IH in H; [|exact Ha1]. destruct H as [Hm Ha2].
      split; [|exact Ha2]. rewrite Hm. exact Hm1.
Qed.
End LabelerProperties.

(** ** The file syncer *)

Section SyncerProperties.
Import sync.
Variable World : Type.
Variable Client : World -> option error.
Variable ListPods : World -> result (list Pod) * World.
Variable RunCmd : list string -> World -> option error * World.

Local Abbreviation perform := (perform World Client ListPods RunCmd).
Local Abbreviation state := (state World).

Local Abbreviation ranPrefix := (ranPrefix World RunCmd).


Lemma ranPrefix_nil (st : state) : ranPrefix [] st (None, st).
Proof. exists O. simpl. rewrite app_nil_r. auto. Qed.

Lemma ranPrefix_app (cmds1 cmds2 : list (list string)) (st st1 : state)
      (r : option error * state) :
  ranPrefix cmds1 st (None, st1) -> ranPrefix cmds2 st1 r ->
  ranPrefix (cmds1 ++ cmds2) st r.
Proof.
  intros (n1 & H1 & L1) (n2 & H2 & L2). simpl in *.
  exists (length cmds1 + n2)%nat. split.
  - rewrite H2, H1, <- app_assoc. f_equal.
    rewrite take_app_add', (take_ge cmds1) by lia. reflexivity.
  - destruct (fst r) as [err|].
    + destruct L2 as (Hn & cause & w & -> & cmd & Hc & Hr).
      rewrite length_app. split; [lia|].
      exists cause, w. split; [reflexivity|]. exists cmd. split; [|exact Hr].
      rewrite lookup_app_r by lia.
      replace (length cmds1 + n2 - 1 - length cmds1)%nat with (n2 - 1)%nat by lia.
      exact Hc.
    + rewrite length_app. lia.
Qed.

Lemma ranPrefix_fail (cmds1 cmds2 : list (list string)) (st : state)
      (err : error) (st1 : state) :
  ranPrefix cmds1 st (Some err, st1) ->
  ranPrefix (cmds1 ++ cmds2) st (Some err, st1).
Proof.
  intros (n & H & Hn & cause & w & -> & cmd & Hc & Hr). simpl in *.
  exists n. simpl. split.
  - rewrite take_app_le by lia. exact H.
  - rewrite length_app. split; [lia|].
    exists cause, w. split; [reflexivity|]. exists cmd. split; [|exact Hr].
    rewrite lookup_app_l by lia. exact Hc.
Qed.

Lemma performFiles_ran (cmdFn : Pod -> Container -> string -> list string)
      (p : Pod) (c : Container) (files : list string) (st : state) :
  ranPrefix (map (cmdFn p c) files) st
            (performFiles World RunCmd cmdFn p c files st).
Proof.
  revert st. induction files as [|f files IH]; intros st;
    [apply ranPrefix_nil|].
  simpl. destruct (RunCmd (cmdFn p c f) (world st)) as [[err|] w] eqn:Er.
  - exists 1%nat. simpl. split; [reflexivity|]. split; [lia|].
    exists err, (world st). split; [reflexivity|].
    exists (cmdFn p c f). split; [reflexivity|]. rewrite Er. reflexivity.
  - apply (ranPrefix_app [cmdFn p c f] _ st
                         {| world := w; ran := ran st ++ [cmdFn p c f] |}).
    + exists 1%nat. simpl. auto.
    + apply IH.
Qed.

Lemma performContainers_ran (image : string) (files : list string)
      (cmdFn : Pod -> Container -> string -> list string)
      (p : Pod) (cs : list Container) (st : state) :
  ranPrefix (flat_map (fun c => if String.prefix image (Image c)
                                then map (cmdFn p c) files else []) cs)
            st (performContainers World RunCmd image files cmdFn p cs st).
Proof.
  revert st. induction cs as [|c cs IH]; intros st; [apply ranPrefix_nil|].
  simpl. destruct (String.prefix image (Image c)).
  - pose proof (performFiles_ran cmdFn p c files st) as Hf.
    destruct (performFiles World RunCmd cmdFn p c files st) as [[err|] st1].
    + apply ranPrefix_fail. exact Hf.
    + eapply ranPrefix_app; [exact Hf | apply IH].
  - apply IH.
Qed.

Lemma performPods_ran (image : string) (files : list string)
      (cmdFn : Pod -> Container -> string -> list string)
      (pods : list Pod) (st : state) :
  ranPrefix (commands image files cmdFn pods) st
            (performPods World RunCmd image files cmdFn pods st).
Proof.
  revert st. induction pods as [|p pods IH]; intros st; [apply ranPrefix_nil|].
  simpl.
  pose proof (performContainers_ran image files cmdFn p (Containers p) st) as Hc.
  destruct (performContainers World RunCmd image files cmdFn p (Containers p) st)
    as [[err|] st1].
  - apply ranPrefix_fail. exact Hc.
  - eapply ranPrefix_app; [exact Hc | apply IH].
Qed.

(** X25. With a client and a listing of the pods, a sync runs the
    commands of the listed pods in order (for each pod, each container
    whose image starts with the image name, each file) up to the first
    that fails, and all of them when it returns nil; no command is for a
    container of another image; with no file nothing is run; and it
    returns nil when no command fails. *)
Theorem sync_runs_the_listed_commands (image : string) (files : list string)
        (cmdFn : Pod -> Container -> string -> list string) (st : state)
        (pods : list Pod) (w : World) :
  Client (world st) = None ->
  ListPods (world st) = (Ok pods, w) ->
  let r := perform image files cmdFn st in
  let cmds := commands image files cmdFn pods in
  (exists n, ran (snd r) = ran st ++ take n cmds
             /\ (fst r = None -> ran (snd r) = ran st ++ cmds)
             /\ (is_Some (fst r) -> (0 < n <= length cmds)%nat))
  /\ (forall cmd, cmd ∈ cmds ->
                  exists p c f, p ∈ pods /\ c ∈ Containers p
                                /\ String.prefix image (Image c) = true
                                /\ f ∈ files /\ cmd = cmdFn p c f)
  /\ (files = [] -> r = (None, {| world := w; ran := ran st |}))
  /\ ((forall cmd w', fst (RunCmd cmd w') = None) -> fst r = None).
Proof.
  intros Hclient Hlist r cmds.
  assert (Hr : r = performPods World RunCmd image files cmdFn pods
                               {| world := w; ran := ran st |}).
  { subst r. unfold sync.perform. rewrite Hclient, Hlist. reflexivity. }
  pose proof (performPods_ran image files cmdFn pods
                              {| world := w; ran := ran st |}) as Hp.
  rewrite <- Hr in Hp. fold cmds in Hp.
  destruct Hp as (n & Hran & Hres). simpl in Hran.
  split; [|split; [|split]].
  - exists n. split; [exact Hran|]. split.
    + intros Hnone. rewrite Hnone in Hres. rewrite Hran, take_ge by lia.
      reflexivity.
    + intros [err Herr]. rewrite Herr in Hres. tauto.
  - intros cmd Hin. unfold cmds, commands in Hin.
    apply list_elem_of_In, in_flat_map in Hin as (p & Hp & Hin).
    apply in_flat_map in Hin as (c & Hc & Hin).
    destruct (String.prefix image (Image c)) eqn:E; [|destruct Hin].
    apply in_map_iff in Hin as (f & <- & Hf).
    exists p, c, f. rewrite !list_elem_of_In. auto.
  - intros ->. rewrite Hr. clear.
    generalize ({| world := w; ran := ran st |}) as s.
    induction pods as [|p pods IH]; intros s; [reflexivity|].
    simpl.
    assert (Hc : forall cs, performContainers World RunCmd image [] cmdFn p cs s
                            = (None, s)).
    { induction cs as [|c cs IHc]; [reflexivity|]. simpl.
      destruct (String.prefix image (Image c)); exact IHc. }
    rewrite Hc. apply IH.
  - intros Hok. destruct (fst r) as [err|] eqn:E; [|reflexivity].
    destruct Hres as (_ & cause & w' & _ & cmd & _ & Hfail).
    rewrite Hok in Hfail. discriminate.
Qed.
End SyncerProperties.

(** ** The file-system watcher *)

Section FsWatcherProperties.
Import fswatch.

#[local] Instance le_total : Total le.
Proof. intros a b. apply String.leb_total. Qed.

Lemma sortedPaths_spec (changedPaths : gset string) :
  Sorted le (sortedPaths changedPaths)
  /\ NoDup (sortedPaths changedPaths)
  /\ forall x, x ∈ sortedPaths changedPaths <-> x ∈ changedPaths.
Proof.
  unfold sortedPaths.
  pose proof (merge_sort_Permutation le (elements changedPaths)) as Hp.
  split; [apply Sorted_merge_sort; apply _|]. split.
  - rewrite Hp. apply NoDup_elements.
  - intros x. rewrite Hp. apply elem_of_elements.
Qed.

Lemma batches_app (l1 l2 : list event) :
  batches (l1 ++ l2) = batches l1 ++ batches l2.
Proof. unfold batches. apply omap_app. Qed.

Lemma Start_quiet (script rest : list input) (changedPaths : gset string) :
  forallb quiet script = true ->
  exists tr,
    Start (script ++ rest) changedPaths
    = tr ++ Start rest (changedBy script ∪ changedPaths)
    /\ batches tr = [].
Proof.
  revert changedPaths. induction script as [|i script IH];
    intros changedPaths H.
  - exists []. simpl. rewrite (left_id_L ∅ (∪)). auto.
  - simpl in H. apply andb_true_iff in H as [Hi H].
    destruct i as [name op|err| |]; try discriminate; simpl.
    + destruct (op =? Chmod)%N eqn:E.
      * destruct (IH changedPaths H) as (tr & -> & Hb). exists tr. auto.
      * destruct (IH ({[ name ]} ∪ changedPaths) H) as (tr & -> & Hb).
        exists (EReset :: EInfof name op :: tr). split; [|exact Hb].
        assert (Hset : changedBy script ∪ ({[name]} ∪ changedPaths)
                       = {[name]} ∪ changedBy script ∪ changedPaths).
        { rewrite (assoc_L (∪)), (comm_L (∪) (changedBy script)).
          reflexivity. }
        rewrite Hset. reflexivity.
    + destruct (IH changedPaths H) as (tr & -> & Hb).
      exists (EError err :: tr). auto.
Qed.

Lemma elem_of_changedBy (script : list input) (x : string) :
  x ∈ changedBy script <->
  exists op, Event x op ∈ script /\ op <> Chmod.
Proof.
  induction script as [|i script IH]; simpl.
  - split; [intros H; apply elem_of_empty in H; destruct H|].
    intros (op & H & _). apply elem_of_nil in H. destruct H.
  - destruct i as [name op|err| |];
      try (rewrite IH; split; intros (op' & Hin & Hop); exists op';
           (split; [|exact Hop]);
           [apply elem_of_cons; right; exact Hin
           |apply elem_of_cons in Hin as [Hin|Hin]; [discriminate | exact Hin]]).
    destruct (op =? Chmod)%N eqn:E.
    + apply N.eqb_eq in E. rewrite IH. split; intros (op' & Hin & Hop);
        exists op'; (split; [|exact Hop]).
      * apply elem_of_cons. right. exact Hin.
      * apply elem_of_cons in Hin as [Hin|Hin]; [congruence | exact Hin].
    + apply N.eqb_neq in E. rewrite elem_of_union, elem_of_singleton, IH.
      split.
      * intros [->|(op' & Hin & Hop)].
        -- exists op. split; [apply elem_of_cons; auto | exact E].
        -- exists op'. split; [apply elem_of_cons; auto | exact Hop].
      * intros (op' & Hin & Hop). apply elem_of_cons in Hin as [Hin|Hin].
        -- injection Hin as -> ->. auto.
        -- right. eauto.
Qed.

(** X26. After file events, the batch handed to [onChange] when the
    timer fires is sorted, has no duplicate, and holds exactly the paths of
    the events received since the last batch that are not a bare chmod;
    the next batch starts from nothing. *)
Theorem quiet_period_batch (script rest : list input) :
  forallb quiet script = true ->
  exists batch,
    batches (Start (script ++ TimerC :: rest) ∅)
    = batch :: batches (Start rest ∅)
    /\ Sorted le batch /\ NoDup batch
    /\ forall x, x ∈ batch <->
                 exists op, Event x op ∈ script /\ op <> Chmod.
Proof.
  intros H.
  destruct (Start_quiet script (TimerC :: rest) ∅ H) as (tr & -> & Hb).
  rewrite batches_app, Hb. simpl.
  rewrite (right_id_L ∅ (∪)).
  eexists. split; [reflexivity|].
  destruct (sortedPaths_spec (changedBy script)) as (Hs & Hn & He).
  split; [exact Hs|]. split; [exact Hn|].
  intros x. rewrite He. apply elem_of_changedBy.
Qed.
End FsWatcherProperties.

(** ** Further examples *)

Section ExtraExamples.
Import testutil testdata.

Lemma watch_loop_keeps_images_witness :
  "b" ∈ build.ImageName
        <$> runner.builds
              (snd (testRun watched
                            [[Ok (modified ["static/index.html"])]]
                            (midTick runner.noChanges [] []))).
Proof.
  apply watch_loop_keeps_images. decide_by_computation.
Defined.

Lemma unchanged_ticks_do_nothing_witness :
  testRun watched
          [[Ok watch.noEvents; Ok watch.noEvents; Ok watch.noEvents]; []]
          (testState (testWorld [] []))
  = (None, testState (testWorld [] [])).
Proof.
  apply unchanged_ticks_do_nothing.
  repeat constructor; exists watch.noEvents; split; reflexivity.
Defined.

Lemma failed_sync_is_not_rebuilt_witness :
  runner.Run globMatch TestWorld testBuild testDeploy failingCopy testSync
             [runner.CArtifact artifactStatic; runner.CDeployer]
             [[Ok (modified ["static/index.html"]); Ok watch.noEvents]]
             (midTick runner.noChanges [] [])
  = (None,
     {| runner.builds := [tagged "a" "a:1"; tagged "b" "b:1"];
        runner.changed := runner.noChanges;
        runner.world := runner.world (midTick runner.noChanges [] []);
        runner.trace :=
          [runner.ECopy "web" ["static/index.html"];
           runner.EWarn "on change error: %s" None;
           runner.EMute; runner.EPrint "Watching for changes...";
           runner.EUnmute] |}).
Proof.
  apply (failed_sync_is_not_rebuilt
           globMatch TestWorld testBuild testDeploy failingCopy testSync
           artifactStatic (modified ["static/index.html"])
           [runner.CDeployer] [Ok watch.noEvents]
           (midTick runner.noChanges [] [])
           (New "exit status 1")
           (runner.world (midTick runner.noChanges [] []))).
  - reflexivity.
  - vm_compute. reflexivity.
  - reflexivity.
  - repeat constructor; exists watch.noEvents; split; reflexivity.
Defined.

Lemma registered_components_witness :
  [runner.CArtifact artifactA; runner.CDeployer; runner.CConfiguration]
  = (runner.CArtifact
       <$> filter (fun a => runner.shouldWatch (watchOnly "a") a = true)
                  [artifactA; artifactB])
      ++ [runner.CDeployer; runner.CConfiguration]
  /\ runner.builds (testState (testWorld [] []))
     = runner.builds (testState (testWorld [] []))
  /\ runner.changed (testState (testWorld [] []))
     = runner.changed (testState (testWorld [] []))
  /\ runner.trace (testState (testWorld [] []))
     = runner.trace (testState (testWorld [] [])).
Proof.
  apply (registered_components TestWorld testStat (watchOnly "a")
                               [artifactA; artifactB]).
  reflexivity.
Defined.

Lemma manifests_survive_the_reader_witness :
  kubectl.newManifestList
    (Ok (kubectl.manifestList_String asciiTrim
           ["kind: Pod" +:+ nl; nl +:+ "kind: Service"; "kind: Job"]))
  = Ok ["kind: Pod"; nl +:+ "kind: Service"; nl +:+ "kind: Job"].
Proof.
  apply (manifests_survive_the_reader
           asciiTrim ("kind: Pod" +:+ nl) [nl +:+ "kind: Service"; "kind: Job"]).
  - repeat constructor.
  - repeat constructor.
Defined.

Lemma remote_manifest_namespace_witness :
  kubectl.readRemoteManifest _ testRunCmd "kube-system:deployment/dns" "minikube" []
  = kubectl.manifestOf _
      (testRunCmd ["kubectl"; "--context"; "minikube"; "--namespace";
                   "kube-system"; "get"; "deployment/dns"; "-o"; "yaml"]
                  None [])
  /\ kubectl.readRemoteManifest _ testRunCmd "deployment/dns" "minikube" []
     = kubectl.manifestOf _
         (testRunCmd ["kubectl"; "--context"; "minikube"; "get";
                      "deployment/dns"; "-o"; "yaml"]
                     None [])
  /\ forall rest : string,
       kubectl.readRemoteManifest
         _ testRunCmd
         ("kube-system" +:+ ":" +:+ "deployment/dns" +:+ ":" +:+ rest)
         "minikube" []
       = kubectl.readRemoteManifest
           _ testRunCmd ("kube-system" +:+ ":" +:+ "deployment/dns")
           "minikube" [].
Proof.
  apply (remote_manifest_namespace _ testRunCmd "kube-system" "deployment/dns").
  - reflexivity.
  - reflexivity.
Defined.

Lemma unused_image_warning_witness :
  imageUse.notUsed "cache"
    ∈ snd (returned (testReplaceImages
                       [manifestS4]
                       (buildsS4 ++ [tagged "cache" "cache:1"]))
                    (Ok [], []))
  <-> "cache" ∈ build.ImageName <$> buildsS4 ++ [tagged "cache" "cache:1"]
      /\ "cache" ∉ flat_map (imageUse.documentNames docker.ParseReference
                                                    testManifest testUnmarshal)
                            [manifestS4].
Proof.
  apply (unused_image_warning
           docker.ParseReference testManifest testUnmarshal testMarshal
           [manifestS4] (buildsS4 ++ [tagged "cache" "cache:1"])
           [updatedS4]).
  vm_compute. reflexivity.
Defined.

Lemma key_injective_witness :
  kubernetes.containerName (webEntry "web-1" 1)
  = kubernetes.containerName (webEntry "web-2" 2)
  /\ kubernetes.port (webEntry "web-1" 1) = kubernetes.port (webEntry "web-2" 2).
Proof.
  apply key_injective.
  - simpl. lia.
  - simpl. lia.
  - reflexivity.
Defined.


Lemma passed_over_events_change_nothing_witness :
  testStart [kubernetes.PodEvent kubernetes.Added (pod "web-1" "1" "web" 8080);
             kubernetes.OtherEvent kubernetes.Modified;
             modifiedPod pendingPod;
             kubernetes.PodEvent kubernetes.Deleted (pod "web-1" "2" "web" 8080)]
            kubernetes.initial
  = kubernetes.initial.
Proof.
  apply passed_over_events_change_nothing. reflexivity.
Defined.

Lemma first_port_only_witness :
  kubernetes.forwardEntries keepsRunning
                            [webEntry "web-1" 1; adminEntry "web-1" 1]
                            kubernetes.initial
  = kubernetes.forwardEntry keepsRunning (webEntry "web-1" 1) kubernetes.initial
  /\ fst (kubernetes.forwardEntry keepsRunning (webEntry "web-1" 1)
                                  kubernetes.initial)
     <> kubernetes.Finished None
  /\ (forall k,
        k <> kubernetes.key (webEntry "web-1" 1) ->
        kubernetes.forwardedPods
          (snd (kubernetes.forwardEntries keepsRunning
                  [webEntry "web-1" 1; adminEntry "web-1" 1]
                  kubernetes.initial)) !! k
        = kubernetes.forwardedPods kubernetes.initial !! k)
  /\ (kubernetes.nextPid
        (snd (kubernetes.forwardEntries keepsRunning
                [webEntry "web-1" 1; adminEntry "web-1" 1]
                kubernetes.initial))
      <= S (kubernetes.nextPid kubernetes.initial))%nat.
Proof.
  apply first_port_only. intros e. reflexivity.
Defined.

Lemma updates_are_bounded_and_well_formed_witness :
  exists evs,
    label.trace
      (returned (label.ApplyLabelDeployResults
                   testDefaultLabels unit failingApiUpdate None
                   0%nat [labelResult; labelResult] labelState)
                labelState)
    = label.trace labelState ++ evs
    /\ Forall (labeler.wellFormed testDefaultLabels) evs
    /\ (labeler.updates evs <= label.tries * 2)%nat
    /\ (labeler.sleeps evs <= labeler.updates evs)%nat
    /\ (labeler.updates evs <= labeler.sleeps evs + 2)%nat.
Proof.
  apply (updates_are_bounded_and_well_formed
           testDefaultLabels unit failingApiUpdate None 0%nat
           [labelResult; labelResult] labelState).
  vm_compute. reflexivity.
Defined.

Lemma three_tries_then_give_up_witness :
  exists evs,
    label.trace
      (snd (returned (label.retry testDefaultLabels unit failingApiUpdate
                                  label.tries 0%nat labelResult labelState)
                     (None, labelState)))
    = label.trace labelState ++ evs
    /\ (1 <= labeler.updates evs <= label.tries)%nat
    /\ (is_Some (Some (New "the object has been modified")) ->
        labeler.updates evs = label.tries /\ labeler.sleeps evs = label.tries
        /\ last evs = Some label.ESleep)
    /\ (Some (New "the object has been modified") = None ->
        S (labeler.sleeps evs) = labeler.updates evs
        /\ exists k ns lbls, last evs = Some (label.EUpdate k ns lbls)).
Proof.
  apply (three_tries_then_give_up
           testDefaultLabels unit failingApiUpdate 0%nat labelResult labelState
           _ _
           {| label.Kind := label.CoreV1Pod;
              label.Meta := {| label.Labels := None; label.Namespace := "" |} |}).
  - reflexivity.
  - discriminate.
  - vm_compute. reflexivity.
Defined.

Lemma labels_sent_to_the_api_witness :
  let st := spareState in
  let obj := {| label.Kind := label.CoreV1Pod;
                label.Meta := {| label.Labels := None;
                                 label.Namespace := "" |} |} in
  let sent := (testDefaultLabels ∪ label.mapAt unit st 0%nat)
                ∪ labeler.ownLabels st obj in
  label.trace
    (snd (returned (label.updateRuntimeObject testDefaultLabels unit
                                              testApiUpdate 0%nat labelResult st)
                   (None, st)))
  = label.trace st ++ [label.EUpdate label.CoreV1Pod "default" sent]
  /\ (forall k v, labeler.ownLabels st obj !! k = Some v ->
                  testDefaultLabels !! k = None ->
                  label.mapAt unit st 0%nat !! k = None ->
                  sent !! k = Some v)
  /\ (forall k v, label.mapAt unit st 0%nat !! k = Some v ->
                  testDefaultLabels !! k = None -> sent !! k = Some v)
  /\ testDefaultLabels ⊆ sent.
Proof.
  cbv zeta.
  apply (labels_sent_to_the_api
           testDefaultLabels unit testApiUpdate 0%nat labelResult spareState
           None
           (snd (returned (label.updateRuntimeObject
                             testDefaultLabels unit testApiUpdate 0%nat
                             labelResult spareState)
                          (None, spareState)))
           {| label.Kind := label.CoreV1Pod;
              label.Meta := {| label.Labels := None;
                               label.Namespace := "" |} |}).
  - vm_compute. reflexivity.
  - reflexivity.
  - discriminate.
Defined.

Lemma other_maps_untouched_witness :
  label.maps
    (returned (testApplyLabels 0%nat [labelResult] spareState) spareState)
    !! 7%nat
  = label.maps spareState !! 7%nat
  /\ labeler.apart 0%nat 7%nat
       (returned (testApplyLabels 0%nat [labelResult] spareState) spareState).
Proof.
  apply (other_maps_untouched testDefaultLabels unit testApiUpdate None
                              0%nat 7%nat [labelResult] spareState).
  - split; [discriminate|]. split; [vm_compute; eauto|].
    intros o obj H. unfold spareState in H. cbn [label.objects] in H.
    unfold labelState in H. cbn [label.objects] in H.
    apply lookup_singleton_Some in H as [_ <-]. discriminate.
  - vm_compute. reflexivity.
Defined.

Lemma sync_runs_the_listed_commands_witness :
  let st := {| sync.world := tt; sync.ran := [] |} in
  let r := testPerform "web" ["static/index.html"] sync.copyFileFn st in
  let cmds := sync.commands "web" ["static/index.html"] sync.copyFileFn
                            syncPods in
  (exists n, sync.ran (snd r) = sync.ran st ++ take n cmds
             /\ (fst r = None -> sync.ran (snd r) = sync.ran st ++ cmds)
             /\ (is_Some (fst r) -> (0 < n <= length cmds)%nat))
  /\ (forall cmd, cmd ∈ cmds ->
                  exists p c f, p ∈ syncPods /\ c ∈ sync.Containers p
                                /\ String.prefix "web" (sync.Image c) = true
                                /\ f ∈ ["static/index.html"]
                                /\ cmd = sync.copyFileFn p c f)
  /\ (["static/index.html"] = [] ->
      r = (None, {| sync.world := tt; sync.ran := sync.ran st |}))
  /\ ((forall cmd w', fst (testSyncCmd cmd w') = None) -> fst r = None).
Proof.
  apply (sync_runs_the_listed_commands
           unit testClient testListPods testSyncCmd "web"
           ["static/index.html"] sync.copyFileFn
           {| sync.world := tt; sync.ran := [] |} syncPods tt).
  - reflexivity.
  - reflexivity.
Defined.

Lemma quiet_period_batch_witness :
  exists batch,
    fswatch.batches
      (fswatch.Start ([fswatch.Event "main.go" 2; fswatch.Event "go.mod" 16;
                       fswatch.Error (New "too many events");
                       fswatch.Event "Dockerfile" 2; fswatch.Event "main.go" 2]
                        ++ fswatch.TimerC :: [fswatch.Done])
                     ∅)
    = batch :: fswatch.batches (fswatch.Start [fswatch.Done] ∅)
    /\ Sorted fswatch.le batch /\ NoDup batch
    /\ forall x, x ∈ batch <->
                 exists op,
                   fswatch.Event x op
                     ∈ [fswatch.Event "main.go" 2; fswatch.Event "go.mod" 16;
                        fswatch.Error (New "too many events");
                        fswatch.Event "Dockerfile" 2; fswatch.Event "main.go" 2]
                   /\ op <> fswatch.Chmod.
Proof.
  apply quiet_period_batch. reflexivity.
Defined.

Lemma apply_runs_kubectl_on_rewritten_witness :
  exists lg,
    textApply (Ok twoDocuments) "minikube" [tagged "web" "web:v2"] []
    = Returned
        (Ok [],
         [(["kubectl"; "--context"; "minikube"; "apply"; "-f"; "-"],
           Some ("image: web:v2" +:+ nl +:+ "---" +:+ nl +:+ "image: db:1"))],
         lg).
Proof.
  destruct (apply_runs_kubectl_on_rewritten
              asciiTrim (list (list string * option string)) testRunCmd
              docker.ParseReference textUnmarshal textMarshal unit
              noReleaseInfo twoDocuments "minikube" [tagged "web" "web:v2"] [])
    as [H _].
  destruct (H ["image: web:v2" +:+ nl; "image: db:1" +:+ nl]) as [lg Hlg].
  - constructor; [|constructor; [|constructor]].
    + exists [(deploy.YStr "image", deploy.YStr "web")].
      repeat split; try discriminate; vm_compute; reflexivity.
    + exists [(deploy.YStr "image", deploy.YStr "db:1")].
      repeat split; try discriminate; vm_compute; reflexivity.
  - exists lg. exact Hlg.
Defined.
End ExtraExamples.
